(** * Control-flow analysis core of gta3sc: a shallow embedding

    The development follows the control-flow header (block list, call and
    spawn graphs, depth-first traversals, statement graph and while
    structuring) and the [get_immstr] family of [disassembler.hpp].

    Conventions.
    - [BlockId], [ProcId] ([size_t]) are [nat]; they are only used as indices.
    - Fixed-width unsigned fields are [Z] with the wrap-around written out.
    - A [std::vector] is a [list]; [v[i]] outside the vector is undefined
      behaviour in C++ and is the outcome [Undefined] here.
    - Statement nodes live in a store indexed by their address; a
      [shared_ptr]/[weak_ptr] is the index of the node it points to. *)

From Stdlib Require Import ZArith Lia String Ascii.
From stdpp Require Import gmap list.

#[local] Set Warnings "-clear-no-such-hyp".

(** Outcome of a modelled call. [Undefined] stands for undefined behaviour
    (an index outside its vector, a failed [assert]); [ExpectsFailed] for a
    violated [Expects] contract, which terminates the program; [OutOfFuel]
    only arises in the fuel-indexed recursive definitions and is shown not
    to happen with the fuel the top-level definitions supply. *)
Inductive Res (A : Type) : Type :=
  | Done (a : A)
  | Undefined
  | ExpectsFailed
  | OutOfFuel.
Arguments Done {A} a.
Arguments Undefined {A}.
Arguments ExpectsFailed {A}.
Arguments OutOfFuel {A}.

Definition Res_bind {A B : Type} (r : Res A) (k : A -> Res B) : Res B :=
  match r with
  | Done a => k a
  | Undefined => Undefined
  | ExpectsFailed => ExpectsFailed
  | OutOfFuel => OutOfFuel
  end.

Notation "'do' x <- r ; k" := (Res_bind r (fun x => k))
  (at level 10, x pattern, r at level 100, k at level 200).

Abbreviation BlockId := nat (only parsing).
Abbreviation ProcId := nat (only parsing).

(* ===================================================================== *)
(** ** Segment references *)
(* ===================================================================== *)

Module SegRef.

Local Open Scope Z_scope.

Inductive SegType : Type := Main | Mission | Streamed | ExitNode.

(** [static_cast<uint8_t>] of the enumerators, in declaration order. *)
Definition SegType_u8 (t : SegType) : Z :=
  match t with
  | Main => 0
  | Mission => 1
  | Streamed => 2
  | ExitNode => 3
  end.

Definition SegType_eqb (a b : SegType) : bool :=
  match a, b with
  | Main, Main | Mission, Mission | Streamed, Streamed | ExitNode, ExitNode => true
  | _, _ => false
  end.

Record SegReference : Type := mkSegReference {
  reserved   : Z;   (* uint8_t, padding *)
  segtype    : SegType;
  segindex   : Z;   (* uint16_t *)
  data_index : Z    (* uint32_t *)
}.

(** The constructor narrows its [size_t] arguments; it leaves [reserved]
    uninitialised, so the value found there is an argument of the model. *)
Definition SegReference_new (junk : Z) (st : SegType) (si di : Z) : SegReference :=
  {| reserved := junk; segtype := st;
     segindex := si mod 2 ^ 16; data_index := di mod 2 ^ 32 |}.

(** [operator==] *)
Definition eqb (a b : SegReference) : bool :=
  (data_index a =? data_index b)
  && (segindex a =? segindex b)
  && SegType_eqb (segtype a) (segtype b).

(** [operator!=] *)
Definition neqb (a b : SegReference) : bool := negb (eqb a b).

(** [operator<] *)
Definition ltb (a b : SegReference) : bool :=
  if negb (SegType_eqb (segtype a) (segtype b))
  then SegType_u8 (segtype a) <? SegType_u8 (segtype b)
  else if negb (segindex a =? segindex b)
  then segindex a <? segindex b
  else data_index a <? data_index b.

(** The order of the specification: segment kinds are ordered
    Main < Mission < Streamed < ExitNode, and references are compared
    lexicographically on (kind, segment index, data index). *)
Definition kind_lt (a b : SegType) : Prop :=
  match a, b with
  | Main, (Mission | Streamed | ExitNode) => True
  | Mission, (Streamed | ExitNode) => True
  | Streamed, ExitNode => True
  | _, _ => False
  end.

Definition spec_lt (a b : SegReference) : Prop :=
  kind_lt (segtype a) (segtype b)
  \/ (segtype a = segtype b /\ segindex a < segindex b)
  \/ (segtype a = segtype b /\ segindex a = segindex b
      /\ data_index a < data_index b).

Definition spec_eq (a b : SegReference) : Prop :=
  segtype a = segtype b /\ segindex a = segindex b
  /\ data_index a = data_index b.

Lemma SegType_eqb_eq a b : SegType_eqb a b = true <-> a = b.
Proof. destruct a, b; simpl; split; congruence. Qed.

Lemma kind_lt_u8 a b : kind_lt a b <-> SegType_u8 a < SegType_u8 b.
Proof. destruct a, b; simpl; split; intros; try lia; try tauto. Qed.

Lemma SegType_u8_inj a b : SegType_u8 a = SegType_u8 b -> a = b.
Proof. destruct a, b; simpl; intros; congruence || lia. Qed.

Lemma ltb_spec a b : ltb a b = true <-> spec_lt a b.
Proof.
  unfold ltb, spec_lt.
  destruct (SegType_eqb (segtype a) (segtype b)) eqn:Et; simpl.
  - apply SegType_eqb_eq in Et.
    destruct (Z.eqb_spec (segindex a) (segindex b)) as [Ei | Ei]; simpl.
    + rewrite Z.ltb_lt. split; [tauto |].
      intros [Hk | [[_ Hi] | (_ & _ & Hd)]]; [| lia | exact Hd].
      apply kind_lt_u8 in Hk. rewrite Et in Hk. lia.
    + rewrite Z.ltb_lt. split; [tauto |].
      intros [Hk | [[_ Hi] | (_ & Hi & _)]]; [| exact Hi | contradiction].
      apply kind_lt_u8 in Hk. rewrite Et in Hk. lia.
  - rewrite Z.ltb_lt, <- kind_lt_u8. split; [tauto |].
    intros [Hk | [[Ht _] | (Ht & _)]]; [exact Hk | |];
      apply SegType_eqb_eq in Ht; congruence.
Qed.

Lemma eqb_spec a b : eqb a b = true <-> spec_eq a b.
Proof.
  unfold eqb, spec_eq.
  rewrite !andb_true_iff, !Z.eqb_eq, SegType_eqb_eq. tauto.
Qed.

Lemma spec_lt_key a b :
  spec_lt a b <->
  SegType_u8 (segtype a) < SegType_u8 (segtype b)
  \/ (SegType_u8 (segtype a) = SegType_u8 (segtype b)
      /\ (segindex a < segindex b
          \/ (segindex a = segindex b /\ data_index a < data_index b))).
Proof.
  unfold spec_lt. rewrite kind_lt_u8. split.
  - intros [H | [[-> H] | (-> & H1 & H2)]]; auto.
  - intros [H | [Ht [H | [H1 H2]]]]; auto; apply SegType_u8_inj in Ht; auto.
Qed.

(** C7: [operator<] is the lexicographic order on (kind, segment index,
    data index) with Main < Mission < Streamed < ExitNode, [operator==] is
    componentwise equality, and [operator<] is a strict total order
    compatible with that equality (irreflexive, transitive, exactly one of
    a < b, a == b, b < a holds, and == can be substituted on either side). *)
Theorem SegReference_order :
  (forall a b, ltb a b = true <-> spec_lt a b)
  /\ (forall a b, eqb a b = true <-> spec_eq a b)
  /\ (forall a, ltb a a = false)
  /\ (forall a b c, ltb a b = true -> ltb b c = true -> ltb a c = true)
  /\ (forall a b,
        (ltb a b = true /\ eqb a b = false /\ ltb b a = false)
        \/ (ltb a b = false /\ eqb a b = true /\ ltb b a = false)
        \/ (ltb a b = false /\ eqb a b = false /\ ltb b a = true))
  /\ (forall a a' b b', eqb a a' = true -> eqb b b' = true ->
        ltb a b = ltb a' b').
Proof.
  split; [exact ltb_spec |]. split; [exact eqb_spec |].
  split; [| split; [| split]].
  - intros a. apply not_true_is_false. rewrite ltb_spec, spec_lt_key. lia.
  - intros a b c. rewrite !ltb_spec, !spec_lt_key. lia.
  - intros a b.
    assert (Hab := ltb_spec a b). assert (Hba := ltb_spec b a).
    assert (He := eqb_spec a b).
    rewrite spec_lt_key in Hab, Hba.
    assert (Hk : spec_eq a b <->
                 SegType_u8 (segtype a) = SegType_u8 (segtype b)
                 /\ segindex a = segindex b /\ data_index a = data_index b).
    { unfold spec_eq. split; [intros (-> & ? & ?); auto |].
      intros (Ht & ? & ?). apply SegType_u8_inj in Ht. auto. }
    rewrite Hk in He.
    destruct (ltb a b), (eqb a b), (ltb b a); intuition lia.
  - intros a a' b b' Ha Hb.
    apply eqb_spec in Ha as (Ha1 & Ha2 & Ha3).
    apply eqb_spec in Hb as (Hb1 & Hb2 & Hb3).
    unfold ltb. rewrite Ha1, Ha2, Ha3, Hb1, Hb2, Hb3. reflexivity.
Qed.

End SegRef.

(* ===================================================================== *)
(** ** Immediate strings of decompiled arguments *)
(* ===================================================================== *)

Module Disasm.

Local Open Scope Z_scope.

(** [DecompiledVar] *)
Record DecompiledVar : Type := {
  global : bool;
  offset : Z     (* uint32_t *)
}.

(** [DecompiledVarArray] *)
Record DecompiledVarArray : Type := {
  base  : DecompiledVar;
  index : DecompiledVar
}.

(** Modelled from the spec: [DecompiledString] is an alias of
    [CompiledString], declared in [compiler.hpp]; [get_immstr] only reads
    its member [storage], a sequence of characters searched for ['\0']. *)
Record DecompiledString : Type := {
  storage : string
}.

(** [ArgVariant2]: the alternatives of the variant, in declaration order.
    A [float] is carried by its 32-bit pattern; [EOAL] has no content. *)
Inductive ArgVariant2 : Type :=
  | ArgEOAL
  | ArgInt8 (i : Z)
  | ArgInt16 (i : Z)
  | ArgInt32 (i : Z)
  | ArgFloat (bits : Z)
  | ArgVar (v : DecompiledVar)
  | ArgVarArray (a : DecompiledVarArray)
  | ArgString (s : DecompiledString).

(** The NUL character ['\0']. *)
Definition NUL : ascii := Ascii.zero.

(** [std::string(first, std::find(first, last, '\0'))]: the characters
    before the first NUL, all of them when the search reaches [last]. *)
Fixpoint until_nul (s : string) : string :=
  match s with
  | EmptyString => EmptyString
  | String c rest => if Ascii.eqb c NUL then EmptyString else String c (until_nul rest)
  end.

(** The overloads of [get_immstr], one per alternative. *)
Definition get_immstr_EOAL : option string := None.
Definition get_immstr_Var (_ : DecompiledVar) : option string := None.
Definition get_immstr_VarArray (_ : DecompiledVarArray) : option string := None.
Definition get_immstr_String (s : DecompiledString) : option string :=
  Some (until_nul (storage s)).
Definition get_immstr_int8 (_ : Z) : option string := None.
Definition get_immstr_int16 (_ : Z) : option string := None.
Definition get_immstr_int32 (_ : Z) : option string := None.
Definition get_immstr_float (_ : Z) : option string := None.

(** [get_immstr(const ArgVariant2&)]: [visit_one] dispatches on the
    alternative held. *)
Definition get_immstr (varg : ArgVariant2) : option string :=
  match varg with
  | ArgEOAL => get_immstr_EOAL
  | ArgInt8 i => get_immstr_int8 i
  | ArgInt16 i => get_immstr_int16 i
  | ArgInt32 i => get_immstr_int32 i
  | ArgFloat f => get_immstr_float f
  | ArgVar v => get_immstr_Var v
  | ArgVarArray a => get_immstr_VarArray a
  | ArgString s => get_immstr_String s
  end.

(** [c] occurs in [s]. *)
Fixpoint occurs (c : ascii) (s : string) : Prop :=
  match s with
  | EmptyString => False
  | String d rest => c = d \/ occurs c rest
  end.

(** [r] is [s] cut strictly before its first NUL: [r] is a prefix of [s]
    without NUL, and what follows it in [s] is empty or starts with NUL. *)
Definition cut_at_first_nul (s r : string) : Prop :=
  ~ occurs NUL r
  /\ exists rest, s = (r ++ rest)%string
       /\ (rest = EmptyString \/ exists rest', rest = String NUL rest').

Lemma append_nil (b : string) : (EmptyString ++ b)%string = b.
Proof. reflexivity. Qed.

Lemma append_cons c (a b : string) :
  (String c a ++ b)%string = String c (a ++ b)%string.
Proof. reflexivity. Qed.

Lemma until_nul_cut s : cut_at_first_nul s (until_nul s).
Proof.
  induction s as [| c s (Hno & rest & Hs & Hrest)]; simpl.
  - split; [tauto |]. exists EmptyString. auto.
  - destruct (Ascii.eqb_spec c NUL) as [-> | Hc].
    + split; [simpl; tauto |]. exists (String NUL s). simpl. eauto.
    + split; [simpl; intros [E | E]; [congruence | tauto] |].
      exists rest. split; [| exact Hrest].
      change (String c s = String c (until_nul s ++ rest)%string). f_equal. exact Hs.
Qed.

Lemma until_nul_no_nul s : ~ occurs NUL s -> until_nul s = s.
Proof.
  induction s as [| c s IH]; simpl; [reflexivity |]. intros Hno.
  destruct (Ascii.eqb_spec c NUL) as [-> | Hc]; [tauto |].
  rewrite IH; tauto.
Qed.

Lemma cut_at_first_nul_unique s r1 r2 :
  cut_at_first_nul s r1 -> cut_at_first_nul s r2 -> r1 = r2.
Proof.
  revert r1 r2. induction s as [| c s IH]; intros r1 r2
    (H1 & t1 & E1 & T1) (H2 & t2 & E2 & T2).
  - destruct r1, r2; trivial; discriminate.
  - destruct r1 as [| a r1], r2 as [| b r2]; trivial.
    + rewrite append_nil in E1. rewrite append_cons in E2.
      destruct T1 as [-> | [t ->]]; [discriminate |].
      exfalso. apply H2. left. congruence.
    + rewrite append_nil in E2. rewrite append_cons in E1.
      destruct T2 as [-> | [t ->]]; [discriminate |].
      exfalso. apply H1. left. congruence.
    + rewrite append_cons in E1, E2. simpl in H1, H2.
      injection E1 as <- E1. injection E2 as <- E2. f_equal.
      apply IH; (split; [tauto | eauto]).
Qed.

(** C10: [get_immstr] yields a string exactly for a [DecompiledString]
    argument, and then the characters of its storage strictly before the
    first NUL (the entire storage when it holds no NUL); for EOAL, the
    integers, the float, variables and variable arrays it yields nothing. *)
Theorem get_immstr_spec (varg : ArgVariant2) :
  match varg with
  | ArgString s =>
      exists r, get_immstr varg = Some r
        /\ cut_at_first_nul (storage s) r
        /\ (forall r', cut_at_first_nul (storage s) r' -> r' = r)
        /\ (~ occurs NUL (storage s) -> r = storage s)
  | ArgEOAL | ArgInt8 _ | ArgInt16 _ | ArgInt32 _ | ArgFloat _
  | ArgVar _ | ArgVarArray _ => get_immstr varg = None
  end.
Proof.
  destruct varg as [| | | | | | | s]; try reflexivity.
  exists (until_nul (storage s)). split; [reflexivity |].
  split; [apply until_nul_cut |]. split.
  - intros r' Hr'. eapply cut_at_first_nul_unique; [exact Hr' | apply until_nul_cut].
  - apply until_nul_no_nul.
Qed.

End Disasm.

(* ===================================================================== *)
(** ** Block list, control-flow edges, call and spawn cross-references *)
(* ===================================================================== *)

Module Blocks.

(** [ProcEntry::XRefInfo] *)
Record XRefInfo : Type := mkXRef {
  xref_block : BlockId;     (* block_id *)
  xref_proc  : ProcId       (* proc_id *)
}.

#[global] Instance XRefInfo_eq_dec : EqDecision XRefInfo.
Proof. solve_decision. Defined.

(** [ProcEntry]; [ProcType] is the bit mask of its enumerators. *)
Record ProcEntry : Type := mkProcEntry {
  proc_type     : Z;
  proc_block    : BlockId;            (* block_id *)
  exit_block    : option BlockId;
  calls_into    : list XRefInfo;
  called_from   : list XRefInfo;
  spawns_script : list XRefInfo;
  spawned_from  : list XRefInfo
}.

(** The constructor: every cross-reference vector starts empty. *)
Definition ProcEntry_new (type : Z) (block_id : BlockId) : ProcEntry :=
  mkProcEntry type block_id None [] [] [] [].

(** [Block] *)
Record Block : Type := mkBlock {
  block_begin     : SegRef.SegReference;
  length          : nat;
  pred            : list BlockId;
  succ            : list BlockId;
  dominators      : list bool;
  post_dominators : list bool
}.

Definition Block_new (block_begin : SegRef.SegReference) (length : nat) : Block :=
  mkBlock block_begin length [] [] [] [].

(** [BlockList]; the two references to the disassemblers play no part in
    the operations below and are left out. *)
Record BlockList : Type := mkBlockList {
  blocks           : list Block;
  non_dummy_blocks : BlockId * BlockId;
  main_blocks      : BlockId * BlockId;
  mission_blocks   : list (BlockId * BlockId);
  proc_entries     : list ProcEntry
}.

Definition set_blocks (bl : BlockList) (bs : list Block) : BlockList :=
  mkBlockList bs (non_dummy_blocks bl) (main_blocks bl) (mission_blocks bl)
              (proc_entries bl).

Definition set_proc_entries (bl : BlockList) (ps : list ProcEntry) : BlockList :=
  mkBlockList (blocks bl) (non_dummy_blocks bl) (main_blocks bl)
              (mission_blocks bl) ps.

(** [b.succ.emplace_back(x)], [b.pred.emplace_back(x)] *)
Definition succ_emplace_back (x : BlockId) (b : Block) : Block :=
  mkBlock (block_begin b) (length b) (pred b) (succ b ++ [x])
          (dominators b) (post_dominators b).

Definition pred_emplace_back (x : BlockId) (b : Block) : Block :=
  mkBlock (block_begin b) (length b) (pred b ++ [x]) (succ b)
          (dominators b) (post_dominators b).

(** [BlockList::link_blocks]: two indexed updates, in the order of the
    source; an index outside [blocks] is undefined behaviour. *)
Definition link_blocks (bl : BlockList) (link_from link_to : BlockId)
  : Res BlockList :=
  match blocks bl !! link_from with
  | None => Undefined
  | Some _ =>
      let blocks1 := alter (succ_emplace_back link_to) link_from (blocks bl) in
      match blocks1 !! link_to with
      | None => Undefined
      | Some _ =>
          Done (set_blocks bl (alter (pred_emplace_back link_from) link_to blocks1))
      end
  end.

Definition calls_into_emplace_back (x : XRefInfo) (p : ProcEntry) : ProcEntry :=
  mkProcEntry (proc_type p) (proc_block p) (exit_block p)
    (calls_into p ++ [x]) (called_from p) (spawns_script p) (spawned_from p).

Definition called_from_emplace_back (x : XRefInfo) (p : ProcEntry) : ProcEntry :=
  mkProcEntry (proc_type p) (proc_block p) (exit_block p)
    (calls_into p) (called_from p ++ [x]) (spawns_script p) (spawned_from p).

Definition spawns_script_emplace_back (x : XRefInfo) (p : ProcEntry) : ProcEntry :=
  mkProcEntry (proc_type p) (proc_block p) (exit_block p)
    (calls_into p) (called_from p) (spawns_script p ++ [x]) (spawned_from p).

Definition spawned_from_emplace_back (x : XRefInfo) (p : ProcEntry) : ProcEntry :=
  mkProcEntry (proc_type p) (proc_block p) (exit_block p)
    (calls_into p) (called_from p) (spawns_script p) (spawned_from p ++ [x]).

(** A [ProcEntry&] argument is an element of [proc_entries] (this is what
    [proc_id] asserts); it is passed here as its index, which is also what
    [proc_id] returns for it. *)
Definition proc_id (bl : BlockList) (p : ProcId) : Res ProcId :=
  match proc_entries bl !! p with
  | Some _ => Done p
  | None => Undefined
  end.

(** [BlockList::link_script_spawn] *)
Definition link_script_spawn (bl : BlockList) (spawner_block : BlockId)
    (spawner spawned : ProcId) : Res BlockList :=
  do _ <- proc_id bl spawner;
  do spawned_id <- proc_id bl spawned;
  let ps1 := alter (spawns_script_emplace_back (mkXRef spawner_block spawned_id))
                   spawner (proc_entries bl) in
  do spawner_id <- proc_id (set_proc_entries bl ps1) spawner;
  Done (set_proc_entries bl
          (alter (spawned_from_emplace_back (mkXRef spawner_block spawner_id))
                 spawned ps1)).

(** [BlockList::link_call] *)
Definition link_call (bl : BlockList) (caller_block : BlockId)
    (caller called : ProcId) : Res BlockList :=
  do _ <- proc_id bl caller;
  do called_id <- proc_id bl called;
  let ps1 := alter (calls_into_emplace_back (mkXRef caller_block called_id))
                   caller (proc_entries bl) in
  do caller_id <- proc_id (set_proc_entries bl ps1) caller;
  Done (set_proc_entries bl
          (alter (called_from_emplace_back (mkXRef caller_block caller_id))
                 called ps1)).

(** A sequence of [link_blocks] calls. *)
Fixpoint link_blocks_seq (bl : BlockList) (edges : list (BlockId * BlockId))
  : Res BlockList :=
  match edges with
  | [] => Done bl
  | (a, b) :: rest => do bl1 <- link_blocks bl a b; link_blocks_seq bl1 rest
  end.

(** One cross-procedure linking operation, and a sequence of them. *)
Inductive XLink : Type :=
  | LinkCall (block : BlockId) (caller called : ProcId)
  | LinkSpawn (block : BlockId) (spawner spawned : ProcId).

Definition xlink (bl : BlockList) (op : XLink) : Res BlockList :=
  match op with
  | LinkCall f p q => link_call bl f p q
  | LinkSpawn f p q => link_script_spawn bl f p q
  end.

Fixpoint xlink_seq (bl : BlockList) (ops : list XLink) : Res BlockList :=
  match ops with
  | [] => Done bl
  | op :: rest => do bl1 <- xlink bl op; xlink_seq bl1 rest
  end.

(** Reading the edge lists of a block or procedure by id. *)
Definition succ_of (bl : BlockList) (a : BlockId) : list BlockId :=
  from_option succ [] (blocks bl !! a).
Definition pred_of (bl : BlockList) (a : BlockId) : list BlockId :=
  from_option pred [] (blocks bl !! a).

Definition calls_into_of (bl : BlockList) (p : ProcId) : list XRefInfo :=
  from_option calls_into [] (proc_entries bl !! p).
Definition called_from_of (bl : BlockList) (p : ProcId) : list XRefInfo :=
  from_option called_from [] (proc_entries bl !! p).
Definition spawns_script_of (bl : BlockList) (p : ProcId) : list XRefInfo :=
  from_option spawns_script [] (proc_entries bl !! p).
Definition spawned_from_of (bl : BlockList) (p : ProcId) : list XRefInfo :=
  from_option spawned_from [] (proc_entries bl !! p).

(** Edge symmetry, with multiplicities. *)
Definition edge_sym (bl : BlockList) : Prop :=
  forall a b : BlockId,
    count_occ Nat.eq_dec (pred_of bl b) a = count_occ Nat.eq_dec (succ_of bl a) b.

(** Call-graph and spawn-graph symmetry. *)
Definition call_sym (bl : BlockList) : Prop :=
  forall (f : BlockId) (p q : ProcId),
    mkXRef f q ∈ calls_into_of bl p <-> mkXRef f p ∈ called_from_of bl q.

Definition spawn_sym (bl : BlockList) : Prop :=
  forall (f : BlockId) (p q : ProcId),
    mkXRef f q ∈ spawns_script_of bl p <-> mkXRef f p ∈ spawned_from_of bl q.

(** What a sequence of links contributes to each list. *)
Definition targets_from (a : BlockId) (edges : list (BlockId * BlockId)) : list BlockId :=
  (filter (fun e => e.1 = a) edges).*2.
Definition sources_to (b : BlockId) (edges : list (BlockId * BlockId)) : list BlockId :=
  (filter (fun e => e.2 = b) edges).*1.

Definition calls_by (p : ProcId) (ops : list XLink) : list XRefInfo :=
  omap (fun op => match op with
                  | LinkCall f p' q => if decide (p' = p) then Some (mkXRef f q) else None
                  | LinkSpawn _ _ _ => None
                  end) ops.
Definition callers_of (q : ProcId) (ops : list XLink) : list XRefInfo :=
  omap (fun op => match op with
                  | LinkCall f p q' => if decide (q' = q) then Some (mkXRef f p) else None
                  | LinkSpawn _ _ _ => None
                  end) ops.
Definition spawns_by (p : ProcId) (ops : list XLink) : list XRefInfo :=
  omap (fun op => match op with
                  | LinkSpawn f p' q => if decide (p' = p) then Some (mkXRef f q) else None
                  | LinkCall _ _ _ => None
                  end) ops.
Definition spawners_of (q : ProcId) (ops : list XLink) : list XRefInfo :=
  omap (fun op => match op with
                  | LinkSpawn f p q' => if decide (q' = q) then Some (mkXRef f p) else None
                  | LinkCall _ _ _ => None
                  end) ops.

Definition edge_in_range (bl : BlockList) (e : BlockId * BlockId) : Prop :=
  (e.1 < List.length (blocks bl))%nat /\ (e.2 < List.length (blocks bl))%nat.

Definition xlink_in_range (bl : BlockList) (op : XLink) : Prop :=
  match op with
  | LinkCall _ p q | LinkSpawn _ p q =>
      (p < List.length (proc_entries bl))%nat /\ (q < List.length (proc_entries bl))%nat
  end.

(** *** Facts about [link_blocks] *)

Lemma link_blocks_Done bl a b :
  edge_in_range bl (a, b) ->
  link_blocks bl a b =
    Done (set_blocks bl (alter (pred_emplace_back a) b
                           (alter (succ_emplace_back b) a (blocks bl)))).
Proof.
  intros [Ha Hb]; simpl in *. unfold link_blocks.
  destruct (lookup_lt_is_Some_2 (blocks bl) a Ha) as [x ->].
  assert (Hb' : (b < List.length (alter (succ_emplace_back b) a (blocks bl)))%nat)
    by (rewrite length_alter; exact Hb).
  destruct (lookup_lt_is_Some_2 _ b Hb') as [y ->]. reflexivity.
Qed.

Lemma succ_of_link bl a b c :
  edge_in_range bl (a, b) ->
  succ_of (set_blocks bl (alter (pred_emplace_back a) b
                            (alter (succ_emplace_back b) a (blocks bl)))) c
  = succ_of bl c ++ (if decide (a = c) then [b] else []).
Proof.
  intros [Ha Hb]; simpl in *. unfold succ_of; simpl.
  assert (E : forall l : list Block,
             from_option succ [] (alter (pred_emplace_back a) b l !! c)
             = from_option succ [] (l !! c)).
  { intros l. destruct (decide (b = c)) as [-> | Hne].
    - rewrite list_lookup_alter_eq. destruct (l !! c); reflexivity.
    - rewrite list_lookup_alter_ne by exact Hne. reflexivity. }
  rewrite E. destruct (decide (a = c)) as [-> | Hne].
  - rewrite list_lookup_alter_eq.
    destruct (lookup_lt_is_Some_2 (blocks bl) c Ha) as [x ->]. reflexivity.
  - rewrite list_lookup_alter_ne by exact Hne. rewrite app_nil_r. reflexivity.
Qed.

Lemma pred_of_link bl a b c :
  edge_in_range bl (a, b) ->
  pred_of (set_blocks bl (alter (pred_emplace_back a) b
                            (alter (succ_emplace_back b) a (blocks bl)))) c
  = pred_of bl c ++ (if decide (b = c) then [a] else []).
Proof.
  intros [Ha Hb]; simpl in *. unfold pred_of; simpl.
  assert (E : forall l : list Block,
             from_option pred [] (alter (succ_emplace_back b) a l !! c)
             = from_option pred [] (l !! c)).
  { intros l. destruct (decide (a = c)) as [-> | Hne].
    - rewrite list_lookup_alter_eq. destruct (l !! c); reflexivity.
    - rewrite list_lookup_alter_ne by exact Hne. reflexivity. }
  destruct (decide (b = c)) as [-> | Hne].
  - rewrite list_lookup_alter_eq.
    specialize (E (blocks bl)).
    assert (Hc : (c < List.length (alter (succ_emplace_back c) a (blocks bl)))%nat)
      by (rewrite length_alter; exact Hb).
    destruct (lookup_lt_is_Some_2 _ c Hc) as [x Hx].
    rewrite Hx in E |- *. simpl in *. rewrite E. reflexivity.
  - rewrite list_lookup_alter_ne by exact Hne. rewrite E, app_nil_r. reflexivity.
Qed.

Lemma link_blocks_seq_spec edges : forall bl,
  Forall (edge_in_range bl) edges ->
  exists bl',
    link_blocks_seq bl edges = Done bl'
    /\ List.length (blocks bl') = List.length (blocks bl)
    /\ proc_entries bl' = proc_entries bl
    /\ (forall c, succ_of bl' c = succ_of bl c ++ targets_from c edges)
    /\ (forall c, pred_of bl' c = pred_of bl c ++ sources_to c edges).
Proof.
  induction edges as [| [a b] rest IH]; intros bl Hr.
  - exists bl. simpl. repeat split; intros; rewrite app_nil_r; reflexivity.
  - apply Forall_cons in Hr as [Hab Hrest]. simpl.
    rewrite (link_blocks_Done _ _ _ Hab). simpl.
    set (bl1 := set_blocks bl _).
    assert (Hlen : List.length (blocks bl1) = List.length (blocks bl))
      by (unfold bl1; simpl; rewrite !length_alter; reflexivity).
    destruct (IH bl1) as (bl' & Hrun & Hl & Hp & Hs & Hq).
    { eapply Forall_impl; [exact Hrest |]. intros e. unfold edge_in_range.
      rewrite Hlen. tauto. }
    exists bl'. split; [exact Hrun |]. split; [congruence |].
    split; [rewrite Hp; reflexivity |]. split; intros c.
    + rewrite Hs. unfold bl1. rewrite succ_of_link by exact Hab.
      rewrite <- app_assoc. f_equal. unfold targets_from.
      rewrite filter_cons. simpl. destruct (decide (a = c)); reflexivity.
    + rewrite Hq. unfold bl1. rewrite pred_of_link by exact Hab.
      rewrite <- app_assoc. f_equal. unfold sources_to.
      rewrite filter_cons. simpl. destruct (decide (b = c)); reflexivity.
Qed.

Lemma count_sources_targets (edges : list (BlockId * BlockId)) a b :
  count_occ Nat.eq_dec (sources_to b edges) a
  = count_occ Nat.eq_dec (targets_from a edges) b.
Proof.
  unfold sources_to, targets_from.
  induction edges as [| [x y] rest IH]; [reflexivity |].
  rewrite !filter_cons. simpl.
  destruct (decide (y = b)) as [-> | Hy], (decide (x = a)) as [-> | Hx]; simpl;
    repeat (destruct (Nat.eq_dec _ _)); try congruence;
    first [exact IH | f_equal; exact IH].
Qed.

(** C5: a [link_blocks a b] call appends exactly [b] to [a.succ] and [a] to
    [b.pred] and changes no other [succ] or [pred] list; hence, after any
    sequence of calls started from a symmetric block list (such as one
    whose blocks are freshly constructed), [a] occurs in [pred b] as many
    times as [b] occurs in [succ a]. *)
Theorem link_blocks_edge_symmetry
    (bl : BlockList) (edges : list (BlockId * BlockId)) :
  Forall (edge_in_range bl) edges ->
  exists bl',
    link_blocks_seq bl edges = Done bl'
    /\ (forall c, succ_of bl' c = succ_of bl c ++ targets_from c edges)
    /\ (forall c, pred_of bl' c = pred_of bl c ++ sources_to c edges)
    /\ (forall a b, edges = [(a, b)] ->
          succ_of bl' a = succ_of bl a ++ [b]
          /\ pred_of bl' b = pred_of bl b ++ [a]
          /\ (forall c, c <> a -> succ_of bl' c = succ_of bl c)
          /\ (forall c, c <> b -> pred_of bl' c = pred_of bl c))
    /\ (edge_sym bl -> edge_sym bl')
    /\ List.length (blocks bl') = List.length (blocks bl)
    /\ proc_entries bl' = proc_entries bl.
Proof.
  intros Hr. destruct (link_blocks_seq_spec edges bl Hr)
    as (bl' & Hrun & Hl & Hp & Hs & Hq).
  exists bl'. split; [exact Hrun |]. split; [exact Hs |]. split; [exact Hq |].
  split; [| split; [| split; [exact Hl | exact Hp]]].
  - intros a b ->. unfold targets_from, sources_to in *.
    repeat split.
    + rewrite Hs, filter_cons. simpl. rewrite decide_True by reflexivity. reflexivity.
    + rewrite Hq, filter_cons. simpl. rewrite decide_True by reflexivity. reflexivity.
    + intros c Hc. rewrite Hs, filter_cons. simpl.
      rewrite decide_False by congruence. simpl. apply app_nil_r.
    + intros c Hc. rewrite Hq, filter_cons. simpl.
      rewrite decide_False by congruence. simpl. apply app_nil_r.
  - intros Hsym a b. rewrite Hs, Hq, !count_occ_app, Hsym.
    f_equal. apply count_sources_targets.
Qed.

Definition three_blocks : BlockList :=
  let r := SegRef.SegReference_new 0 SegRef.Main 0 0 in
  mkBlockList [Block_new r 1; Block_new r 1; Block_new r 1] (0, 3)%nat (0, 3)%nat []
              [ProcEntry_new 1 0; ProcEntry_new 2 1].

Lemma fresh_blocks_edge_sym bl :
  Forall (fun b => pred b = [] /\ succ b = []) (blocks bl) -> edge_sym bl.
Proof.
  intros Hall a b. unfold pred_of, succ_of.
  rewrite Forall_lookup in Hall.
  destruct (blocks bl !! a) as [x |] eqn:Ea, (blocks bl !! b) as [y |] eqn:Eb;
    simpl; trivial.
  - destruct (Hall _ _ Ea) as [_ ->], (Hall _ _ Eb) as [-> _]. reflexivity.
  - destruct (Hall _ _ Ea) as [_ ->]. reflexivity.
  - destruct (Hall _ _ Eb) as [-> _]. reflexivity.
Qed.

Lemma three_blocks_edge_sym : edge_sym three_blocks.
Proof. apply fresh_blocks_edge_sym. repeat constructor. Qed.

Lemma link_blocks_edge_symmetry_witness :
  exists bl',
    link_blocks_seq three_blocks [(0, 1); (1, 2); (2, 1); (1, 1)]%nat = Done bl'
    /\ succ_of bl' 1%nat = [2; 1]%nat
    /\ pred_of bl' 1%nat = [0; 2; 1]%nat
    /\ edge_sym bl'.
Proof.
  destruct (link_blocks_edge_symmetry three_blocks
              [(0, 1); (1, 2); (2, 1); (1, 1)]%nat)
    as (bl' & Hrun & Hs & Hq & _ & Hsym & _).
  - repeat constructor; simpl; lia.
  - exists bl'. split; [exact Hrun |].
    split; [rewrite Hs; reflexivity |].
    split; [rewrite Hq; reflexivity |].
    apply Hsym, three_blocks_edge_sym.
Defined.

(** *** Facts about [link_call] and [link_script_spawn] *)

Lemma lookup_alter_field {A B : Type} (g : A -> list B) (h : A -> A)
    (extra : list B) (l : list A) (i c : nat) :
  (forall e, g (h e) = g e ++ extra) ->
  (i < List.length l)%nat ->
  from_option g [] (alter h i l !! c)
  = from_option g [] (l !! c) ++ (if decide (i = c) then extra else []).
Proof.
  intros Hg Hi. destruct (decide (i = c)) as [-> | Hne].
  - rewrite list_lookup_alter_eq.
    destruct (lookup_lt_is_Some_2 l c Hi) as [x ->]. simpl. apply Hg.
  - rewrite list_lookup_alter_ne by exact Hne. rewrite app_nil_r. reflexivity.
Qed.

Lemma proc_id_Done bl p :
  (p < List.length (proc_entries bl))%nat -> proc_id bl p = Done p.
Proof.
  intros Hp. unfold proc_id.
  destruct (lookup_lt_is_Some_2 _ p Hp) as [x ->]. reflexivity.
Qed.

Lemma link_call_Done bl f p q :
  xlink_in_range bl (LinkCall f p q) ->
  link_call bl f p q =
    Done (set_proc_entries bl
            (alter (called_from_emplace_back (mkXRef f p)) q
               (alter (calls_into_emplace_back (mkXRef f q)) p (proc_entries bl)))).
Proof.
  intros [Hp Hq]. unfold link_call.
  rewrite (proc_id_Done bl p Hp), (proc_id_Done bl q Hq). simpl.
  rewrite proc_id_Done by (simpl; rewrite length_alter; exact Hp).
  reflexivity.
Qed.

Lemma link_script_spawn_Done bl f p q :
  xlink_in_range bl (LinkSpawn f p q) ->
  link_script_spawn bl f p q =
    Done (set_proc_entries bl
            (alter (spawned_from_emplace_back (mkXRef f p)) q
               (alter (spawns_script_emplace_back (mkXRef f q)) p (proc_entries bl)))).
Proof.
  intros [Hp Hq]. unfold link_script_spawn.
  rewrite (proc_id_Done bl p Hp), (proc_id_Done bl q Hq). simpl.
  rewrite proc_id_Done by (simpl; rewrite length_alter; exact Hp).
  reflexivity.
Qed.

(** The effect of one operation on the four lists of every procedure. *)
Definition xlink_effect (bl bl' : BlockList) (ops : list XLink) : Prop :=
  forall c,
    calls_into_of bl' c = calls_into_of bl c ++ calls_by c ops
    /\ called_from_of bl' c = called_from_of bl c ++ callers_of c ops
    /\ spawns_script_of bl' c = spawns_script_of bl c ++ spawns_by c ops
    /\ spawned_from_of bl' c = spawned_from_of bl c ++ spawners_of c ops.

Ltac alter_fields Hp Hq :=
  repeat match goal with
  | |- context [from_option ?g [] (alter (?h ?x) ?i ?l !! ?c)] =>
      first
        [ rewrite (lookup_alter_field g (h x) [x] l i c)
            by (first [reflexivity | rewrite ?length_alter; first [exact Hp | exact Hq]])
        | rewrite (lookup_alter_field g (h x) [] l i c)
            by (first [intros; symmetry; apply app_nil_r
                      | rewrite ?length_alter; first [exact Hp | exact Hq]]) ]
  end.

Lemma xlink_step bl op :
  xlink_in_range bl op ->
  exists bl',
    xlink bl op = Done bl'
    /\ blocks bl' = blocks bl
    /\ List.length (proc_entries bl') = List.length (proc_entries bl)
    /\ xlink_effect bl bl' [op].
Proof.
  destruct op as [f p q | f p q]; intros Hr; simpl.
  - rewrite (link_call_Done _ _ _ _ Hr). eexists. split; [reflexivity |].
    destruct Hr as [Hp Hq].
    split; [reflexivity |]. split; [simpl; rewrite !length_alter; reflexivity |].
    intros c.
    unfold calls_into_of, called_from_of, spawns_script_of, spawned_from_of,
      calls_by, callers_of, spawns_by, spawners_of; simpl.
    alter_fields Hp Hq.
    repeat split; repeat case_decide; subst; simpl;
      rewrite ?app_nil_r; try reflexivity; try congruence.
  - rewrite (link_script_spawn_Done _ _ _ _ Hr). eexists. split; [reflexivity |].
    destruct Hr as [Hp Hq].
    split; [reflexivity |]. split; [simpl; rewrite !length_alter; reflexivity |].
    intros c.
    unfold calls_into_of, called_from_of, spawns_script_of, spawned_from_of,
      calls_by, callers_of, spawns_by, spawners_of; simpl.
    alter_fields Hp Hq.
    repeat split; repeat case_decide; subst; simpl;
      rewrite ?app_nil_r; try reflexivity; try congruence.
Qed.

Lemma xlink_seq_spec ops : forall bl,
  Forall (xlink_in_range bl) ops ->
  exists bl',
    xlink_seq bl ops = Done bl'
    /\ blocks bl' = blocks bl
    /\ List.length (proc_entries bl') = List.length (proc_entries bl)
    /\ xlink_effect bl bl' ops.
Proof.
  induction ops as [| op rest IH]; intros bl Hr.
  - exists bl. simpl. repeat split; rewrite app_nil_r; reflexivity.
  - apply Forall_cons in Hr as [Hop Hrest].
    destruct (xlink_step bl op Hop) as (bl1 & Hrun1 & Hb1 & Hl1 & He1).
    destruct (IH bl1) as (bl' & Hrun & Hb & Hl & He).
    { eapply Forall_impl; [exact Hrest |]. intros [f p q | f p q]; simpl;
        rewrite Hl1; tauto. }
    exists bl'. simpl. rewrite Hrun1. simpl.
    split; [exact Hrun |]. split; [congruence |]. split; [congruence |].
    intros c. destruct (He c) as (E1 & E2 & E3 & E4).
    destruct (He1 c) as (F1 & F2 & F3 & F4).
    rewrite E1, E2, E3, E4, F1, F2, F3, F4, <- !app_assoc.
    unfold calls_by, callers_of, spawns_by, spawners_of.
    repeat split; f_equal; destruct op; simpl; repeat case_decide; reflexivity.
Qed.

Lemma elem_of_calls_by f p q ops :
  mkXRef f q ∈ calls_by p ops <-> LinkCall f p q ∈ ops.
Proof.
  unfold calls_by. rewrite list_elem_of_omap. split.
  - intros ([f' p' q' | f' p' q'] & Hin & E); [| discriminate].
    case_decide; [| discriminate]. injection E as -> ->. subst. exact Hin.
  - intros Hin. exists (LinkCall f p q). split; [exact Hin |].
    rewrite decide_True by reflexivity. reflexivity.
Qed.

Lemma elem_of_callers_of f p q ops :
  mkXRef f p ∈ callers_of q ops <-> LinkCall f p q ∈ ops.
Proof.
  unfold callers_of. rewrite list_elem_of_omap. split.
  - intros ([f' p' q' | f' p' q'] & Hin & E); [| discriminate].
    case_decide; [| discriminate]. injection E as -> ->. subst. exact Hin.
  - intros Hin. exists (LinkCall f p q). split; [exact Hin |].
    rewrite decide_True by reflexivity. reflexivity.
Qed.

Lemma elem_of_spawns_by f p q ops :
  mkXRef f q ∈ spawns_by p ops <-> LinkSpawn f p q ∈ ops.
Proof.
  unfold spawns_by. rewrite list_elem_of_omap. split.
  - intros ([f' p' q' | f' p' q'] & Hin & E); [discriminate |].
    case_decide; [| discriminate]. injection E as -> ->. subst. exact Hin.
  - intros Hin. exists (LinkSpawn f p q). split; [exact Hin |].
    rewrite decide_True by reflexivity. reflexivity.
Qed.

Lemma elem_of_spawners_of f p q ops :
  mkXRef f p ∈ spawners_of q ops <-> LinkSpawn f p q ∈ ops.
Proof.
  unfold spawners_of. rewrite list_elem_of_omap. split.
  - intros ([f' p' q' | f' p' q'] & Hin & E); [discriminate |].
    case_decide; [| discriminate]. injection E as -> ->. subst. exact Hin.
  - intros Hin. exists (LinkSpawn f p q). split; [exact Hin |].
    rewrite decide_True by reflexivity. reflexivity.
Qed.

(** C6: after any sequence of [link_call] and [link_script_spawn]
    operations (on procedures of the list) started from a symmetric state,
    {F,Q} is in [P.calls_into] exactly when {F,P} is in [Q.called_from], and
    likewise for [spawns_script] and [spawned_from]; the call lists receive
    the entries of the [link_call] operations only and the spawn lists
    those of the [link_script_spawn] operations only. *)
Theorem xlink_symmetry (bl : BlockList) (ops : list XLink) :
  Forall (xlink_in_range bl) ops ->
  exists bl',
    xlink_seq bl ops = Done bl'
    /\ xlink_effect bl bl' ops
    /\ (forall f p q,
          (mkXRef f q ∈ calls_by p ops <-> LinkCall f p q ∈ ops)
          /\ (mkXRef f p ∈ callers_of q ops <-> LinkCall f p q ∈ ops)
          /\ (mkXRef f q ∈ spawns_by p ops <-> LinkSpawn f p q ∈ ops)
          /\ (mkXRef f p ∈ spawners_of q ops <-> LinkSpawn f p q ∈ ops))
    /\ (call_sym bl -> call_sym bl')
    /\ (spawn_sym bl -> spawn_sym bl')
    /\ blocks bl' = blocks bl.
Proof.
  intros Hr. destruct (xlink_seq_spec ops bl Hr) as (bl' & Hrun & Hb & _ & He).
  exists bl'. split; [exact Hrun |]. split; [exact He |].
  split; [| split; [| split; [| exact Hb]]].
  - intros f p q. split; [apply elem_of_calls_by |].
    split; [apply elem_of_callers_of |].
    split; [apply elem_of_spawns_by | apply elem_of_spawners_of].
  - intros Hsym f p q.
    destruct (He p) as (-> & _). destruct (He q) as (_ & -> & _).
    rewrite !elem_of_app, (Hsym f p q), elem_of_calls_by, elem_of_callers_of.
    reflexivity.
  - intros Hsym f p q.
    destruct (He p) as (_ & _ & -> & _). destruct (He q) as (_ & _ & _ & ->).
    rewrite !elem_of_app, (Hsym f p q), elem_of_spawns_by, elem_of_spawners_of.
    reflexivity.
Qed.

Lemma three_blocks_xref_sym : call_sym three_blocks /\ spawn_sym three_blocks.
Proof.
  assert (E : forall g : ProcEntry -> list XRefInfo,
             (forall t b, g (ProcEntry_new t b) = []) ->
             forall p, from_option g [] (proc_entries three_blocks !! p) = []).
  { intros g Hg [| [| p]]; simpl; auto. }
  split; intros f p q;
    unfold calls_into_of, called_from_of, spawns_script_of, spawned_from_of;
    rewrite !E by reflexivity; split; intros H; inversion H.
Qed.

Lemma xlink_symmetry_witness :
  exists bl',
    xlink_seq three_blocks
      [LinkCall 0 0 1; LinkSpawn 1 0 1; LinkCall 2 1 1]%nat = Done bl'
    /\ calls_into_of bl' 0%nat = [mkXRef 0 1]
    /\ called_from_of bl' 1%nat = [mkXRef 0 0; mkXRef 2 1]
    /\ spawns_script_of bl' 0%nat = [mkXRef 1 1]
    /\ spawned_from_of bl' 1%nat = [mkXRef 1 0]
    /\ call_sym bl' /\ spawn_sym bl'.
Proof.
  destruct (xlink_symmetry three_blocks
              [LinkCall 0 0 1; LinkSpawn 1 0 1; LinkCall 2 1 1]%nat)
    as (bl' & Hrun & He & _ & Hc & Hs & _).
  - repeat constructor; simpl; lia.
  - exists bl'. split; [exact Hrun |].
    destruct (He 0%nat) as (E1 & _ & E3 & _).
    destruct (He 1%nat) as (_ & E2 & _ & E4).
    split; [rewrite E1; reflexivity |]. split; [rewrite E2; reflexivity |].
    split; [rewrite E3; reflexivity |]. split; [rewrite E4; reflexivity |].
    split; [apply Hc | apply Hs]; apply three_blocks_xref_sym.
Defined.

End Blocks.

(* ===================================================================== *)
(** ** Depth-first traversals *)
(* ===================================================================== *)

Module DFS.

(** The three [depth_first_internal_] templates have one body:
    assert that the node is unvisited and mark it; call the visitor and
    stop on [false]; select the vector to iterate; recurse into each
    element not yet visited and stop as soon as a recursive call stops.
    They differ in the [visited] container (a [dynamic_bitset] indexed by
    id, where an index outside the bitset is undefined behaviour, or a
    [std::map] from node address to [bool]) and in the vector selected.
    [visited] is modelled by the set of ids marked [true] together with the
    index check [in_range]; [adj] selects the vector.

    A visitor is a callable with captured state: [visitor n s] is the
    answer and the new captured state.  The visitor does not change the
    graph that is being traversed. *)
Section Generic.
Context {St : Type}.
Variable in_range : nat -> bool.
Variable adj : nat -> Res (list nat).
Variable visitor : nat -> St -> bool * St.

(** [visited[n]] *)
Definition visited_get (visited : gset nat) (n : nat) : Res bool :=
  if in_range n then Done (bool_decide (n ∈ visited)) else Undefined.

(** The [for] loop over the selected vector; [rec] is the recursive call. *)
Definition for_each_next
    (rec : gset nat -> St -> nat -> Res (bool * gset nat * St))
  : list nat -> gset nat -> St -> Res (bool * gset nat * St) :=
  fix loop (nexts : list nat) (visited : gset nat) (s : St) :=
    match nexts with
    | [] => Done (true, visited, s)
    | next :: rest =>
        do seen <- visited_get visited next;
        if (seen : bool) then loop rest visited s
        else
          do r <- rec visited s next;
          if r.1.1 then loop rest r.1.2 r.2
          else Done (false, r.1.2, r.2)
    end.

(** [depth_first_internal_]: the result is the returned [bool], with the
    [visited] container and the visitor's state as the call leaves them. *)
Fixpoint depth_first_internal_ (fuel : nat) (visited : gset nat) (s : St)
    (node : nat) : Res (bool * gset nat * St) :=
  match fuel with
  | O => OutOfFuel
  | S fuel =>
      do seen <- visited_get visited node;
      if (seen : bool) then Undefined       (* assert(visited[node] == false) *)
      else
        let visited := {[node]} ∪ visited in
        let r := visitor node s in
        if r.1 then
          do nexts <- adj node;
          for_each_next (depth_first_internal_ fuel) nexts visited r.2
        else Done (false, visited, r.2)
  end.

(** [depth_first]: a fresh all-false [visited] for [size] nodes; the
    result of the internal call is dropped, what remains is the
    visitor's state. *)
Definition depth_first (size : nat) (start : nat) (s : St) : Res St :=
  do r <- depth_first_internal_ (S size) ∅ s start;
  Done r.2.

(** The visitor is called on the nodes of [path], in this order, starting
    in state [s]: every call answers [true], except that the last may
    answer [false]; [flag] tells whether all answered [true]. *)
Inductive visits : St -> list nat -> bool -> St -> Prop :=
  | visits_nil s : visits s [] true s
  | visits_stop s x s' :
      visitor x s = (false, s') -> visits s [x] false s'
  | visits_cons s x s1 rest flag s' :
      visitor x s = (true, s1) -> visits s1 rest flag s' ->
      visits s (x :: rest) flag s'.

Definition edge (x y : nat) : Prop :=
  exists l, adj x = Done l /\ y ∈ l.

Definition reach : nat -> nat -> Prop := rtc edge.

(** What a call that returns has done, in terms of the nodes it visited. *)
Definition run_path (roots : list nat) (visited : gset nat) (s : St)
    (r : bool * gset nat * St) (path : list nat) : Prop :=
    NoDup path
    /\ (forall x, x ∈ path -> x ∉ visited)
    /\ r.1.2 = list_to_set path ∪ visited
    /\ visits s path r.1.1 r.2
    /\ (forall x, x ∈ path -> exists r0, r0 ∈ roots /\ reach r0 x)
    /\ (r.1.1 = true ->
          (forall r0, r0 ∈ roots -> r0 ∈ r.1.2)
          /\ (forall x y, x ∈ path -> edge x y -> y ∈ r.1.2)).

Definition run_post (roots : list nat) (visited : gset nat) (s : St)
    (r : bool * gset nat * St) : Prop :=
  exists path, run_path roots visited s r path.

Lemma visits_app s p1 s1 p2 flag s2 :
  visits s p1 true s1 -> visits s1 p2 flag s2 -> visits s (p1 ++ p2) flag s2.
Proof.
  intros H1. remember true as t eqn:Et. revert Et.
  induction H1 as [s | s x s' Hv | s x s1' rest f s' Hv Hrest IH];
    intros Et H2; simpl.
  - exact H2.
  - discriminate.
  - eapply visits_cons; [exact Hv | auto].
Qed.

Lemma visited_get_Done visited n b :
  visited_get visited n = Done b ->
  in_range n = true /\ (b = true <-> n ∈ visited).
Proof.
  unfold visited_get. destruct (in_range n); [| discriminate].
  intros [= <-]. split; [reflexivity |].
  rewrite bool_decide_eq_true. reflexivity.
Qed.

Lemma for_each_next_post rec :
  (forall visited s node r,
      rec visited s node = Done r -> node ∉ visited ->
      exists rest, run_path [node] visited s r (node :: rest)) ->
  forall nexts visited s r,
    for_each_next rec nexts visited s = Done r ->
    run_post nexts visited s r.
Proof.
  intros Hrec. induction nexts as [| next rest IH]; intros visited s r Hrun;
    simpl in Hrun.
  - assert (r = (true, visited, s)) as -> by congruence. exists []. simpl.
    split; [constructor |]. split; [intros x Hx; inversion Hx |].
    split; [set_solver |]. split; [constructor |].
    split; [intros x Hx; inversion Hx |]. intros _.
    split; [intros ? Hx | intros ? ? Hx ?]; inversion Hx.
  - destruct (visited_get visited next) as [seen | | |] eqn:Hget;
      try discriminate. simpl in Hrun.
    apply visited_get_Done in Hget as [_ Hseen].
    destruct seen.
    + (* already visited: skipped *)
      destruct (IH _ _ _ Hrun) as (path & Hnd & Hfresh & Hvis & Hcalls & Hreach & Hclosed).
      exists path. repeat (split; [assumption |]).
      split.
      * intros x Hx. destruct (Hreach x Hx) as (r0 & Hr0 & Hr0x).
        exists r0. split; [right; exact Hr0 | exact Hr0x].
      * intros Hflag. destruct (Hclosed Hflag) as [Hroots Hcl].
        split; [| exact Hcl]. intros r0 Hr0.
        apply elem_of_cons in Hr0 as [-> | Hr0]; [| auto].
        rewrite Hvis. apply elem_of_union_r. apply Hseen. reflexivity.
    + assert (Hnew : next ∉ visited) by (intros Hin; apply Hseen in Hin; discriminate).
      destruct (rec visited s next) as [r1 | | |] eqn:Hcall; try discriminate.
      simpl in Hrun.
      destruct (Hrec _ _ _ _ Hcall Hnew)
        as (rest1 & Hnd1 & Hfresh1 & Hvis1 & Hcalls1 & Hreach1 & Hclosed1).
      set (p1 := next :: rest1) in *.
      destruct r1 as [[flag1 visited1] s1]; cbn [fst snd] in Hrun, Hvis1, Hcalls1, Hclosed1.
      assert (Hin1 : forall x, x ∈ visited1 <-> x ∈ p1 \/ x ∈ visited).
      { intros x. rewrite Hvis1. unfold p1.
        rewrite elem_of_union, elem_of_list_to_set. reflexivity. }
      clear Hvis1.
      destruct flag1.
      * destruct (IH _ _ _ Hrun)
          as (p2 & Hnd2 & Hfresh2 & Hvis2 & Hcalls2 & Hreach2 & Hclosed2).
        assert (Hin2 : forall x, x ∈ r.1.2 <-> x ∈ p2 \/ x ∈ visited1).
        { intros x. rewrite Hvis2, elem_of_union, elem_of_list_to_set. reflexivity. }
        exists (p1 ++ p2).
        split. { apply NoDup_app. split; [exact Hnd1 |]. split; [| exact Hnd2].
                 intros x Hx1 Hx2. apply (Hfresh2 x Hx2), Hin1. auto. }
        split. { intros x Hx. apply elem_of_app in Hx as [Hx | Hx]; [auto |].
                 intros Hin. apply (Hfresh2 x Hx), Hin1. auto. }
        split. { apply set_eq. intros x.
                 rewrite Hin2, Hin1, elem_of_union, elem_of_list_to_set, elem_of_app.
                 tauto. }
        split. { eapply visits_app; eassumption. }
        split. { intros x Hx. apply elem_of_app in Hx as [Hx | Hx].
                 - destruct (Hreach1 x Hx) as (r0 & Hr0 & Hr0x).
                   apply list_elem_of_singleton in Hr0 as ->.
                   exists next. split; [left | exact Hr0x].
                 - destruct (Hreach2 x Hx) as (r0 & Hr0 & Hr0x).
                   exists r0. split; [right; exact Hr0 | exact Hr0x]. }
        intros Hflag. destruct (Hclosed2 Hflag) as [Hroots2 Hcl2].
        destruct (Hclosed1 eq_refl) as [Hroots1 Hcl1].
        assert (Hmono : forall x, x ∈ visited1 -> x ∈ r.1.2)
          by (intros x Hx; apply Hin2; auto).
        split.
        -- intros r0 Hr0. apply elem_of_cons in Hr0 as [-> | Hr0]; [| auto].
           apply Hmono, Hroots1. left.
        -- intros x y Hx Hxy. apply elem_of_app in Hx as [Hx | Hx]; [| eauto].
           apply Hmono. eauto.
      * assert (r = (false, visited1, s1)) as -> by congruence. simpl.
        exists p1. split; [exact Hnd1 |]. split; [exact Hfresh1 |].
        split. { apply set_eq. intros x.
                 rewrite Hin1, elem_of_union, elem_of_list_to_set. tauto. }
        split; [exact Hcalls1 |].
        split; [| discriminate].
        intros x Hx. destruct (Hreach1 x Hx) as (r0 & Hr0 & Hr0x).
        apply list_elem_of_singleton in Hr0 as ->.
        exists next. split; [left | exact Hr0x].
Qed.

Lemma depth_first_internal_post fuel : forall visited s node r,
  depth_first_internal_ fuel visited s node = Done r ->
  (node ∉ visited) /\ exists rest, run_path [node] visited s r (node :: rest).
Proof.
  induction fuel as [| fuel IH]; intros visited s node r Hrun;
    simpl in Hrun; [discriminate |].
  destruct (visited_get visited node) as [seen | | |] eqn:Hget; try discriminate.
  simpl in Hrun. apply visited_get_Done in Hget as [_ Hseen].
  destruct seen; [discriminate |].
  assert (Hnew : node ∉ visited) by (intros Hin; apply Hseen in Hin; discriminate).
  split; [exact Hnew |].
  destruct (visitor node s) as [continue s1] eqn:Hv. simpl in Hrun.
  destruct continue.
  - destruct (adj node) as [nexts | | |] eqn:Hadj; try discriminate.
    simpl in Hrun.
    apply for_each_next_post in Hrun; [| intros ? ? ? ? H _; apply (IH _ _ _ _ H)].
    destruct Hrun as (path & Hnd & Hfresh & Hvis & Hcalls & Hreach & Hclosed).
    exists path.
    split. { constructor; [| exact Hnd]. intros Hin. apply (Hfresh _ Hin). set_solver. }
    split. { intros x Hx. apply elem_of_cons in Hx as [-> | Hx]; [exact Hnew |].
             intros Hin. apply (Hfresh _ Hx). set_solver. }
    split. { rewrite Hvis. simpl. set_solver. }
    split. { eapply visits_cons; eassumption. }
    split. { intros x Hx. exists node. split; [left |].
             apply elem_of_cons in Hx as [-> | Hx]; [apply rtc_refl |].
             destruct (Hreach x Hx) as (r0 & Hr0 & Hr0x).
             eapply rtc_l; [| exact Hr0x]. exists nexts. auto. }
    intros Hflag. destruct (Hclosed Hflag) as [Hroots Hcl].
    split.
    + intros r0 Hr0. apply list_elem_of_singleton in Hr0 as ->.
      rewrite Hvis. set_solver.
    + intros x y Hx Hxy. apply elem_of_cons in Hx as [-> | Hx]; [| eauto].
      destruct Hxy as (l & Hl & Hy). rewrite Hadj in Hl. injection Hl as <-.
      auto.
  - assert (r = (false, {[node]} ∪ visited, s1)) as -> by congruence.
    simpl. exists [].
    split; [apply NoDup_singleton |].
    split; [intros x Hx; apply list_elem_of_singleton in Hx as ->; exact Hnew |].
    split; [simpl; set_solver |].
    split; [apply visits_stop; exact Hv |].
    split; [| discriminate].
    intros x Hx. apply list_elem_of_singleton in Hx as ->.
    exists node. split; [left | apply rtc_refl].
Qed.

(** *** Termination: the fuel of [depth_first] is enough

    [U] is the set of node ids of a graph closed under [adj]. *)
Section Termination.
Variable U : gset nat.
Hypothesis in_range_U : forall x, x ∈ U -> in_range x = true.
Hypothesis adj_U :
  forall x, x ∈ U -> exists l, adj x = Done l /\ forall y, y ∈ l -> y ∈ U.

Lemma visited_get_U visited n :
  n ∈ U -> visited_get visited n = Done (bool_decide (n ∈ visited)).
Proof. intros Hn. unfold visited_get. rewrite in_range_U by exact Hn. reflexivity. Qed.

Lemma for_each_next_returns rec fuel :
  (forall visited s node,
      node ∈ U -> node ∉ visited -> size (U ∖ visited) <= fuel ->
      exists r rest, rec visited s node = Done r
                /\ run_path [node] visited s r (node :: rest)) ->
  forall nexts visited s,
    (forall y, y ∈ nexts -> y ∈ U) -> size (U ∖ visited) <= fuel ->
    exists r, for_each_next rec nexts visited s = Done r.
Proof.
  intros Hrec. induction nexts as [| next rest IH]; intros visited s HU Hsz;
    simpl; [eauto |].
  rewrite visited_get_U by (apply HU; left). simpl.
  assert (HU' : forall y, y ∈ rest -> y ∈ U) by (intros; apply HU; right; assumption).
  case_bool_decide as Hin; [apply IH; assumption |].
  destruct (Hrec visited s next) as (r1 & rest1 & -> & Hpost);
    [apply HU; left | exact Hin | exact Hsz |]. simpl.
  destruct r1 as [[flag1 visited1] s1]; simpl.
  destruct flag1; [| eauto].
  apply IH; [exact HU' |].
  destruct Hpost as (_ & _ & Hvis & _). simpl in Hvis.
  etransitivity; [| exact Hsz]. apply subseteq_size. set_solver.
Qed.

Lemma depth_first_internal_returns fuel : forall visited s node,
  node ∈ U -> node ∉ visited -> size (U ∖ visited) <= fuel ->
  exists r rest, depth_first_internal_ fuel visited s node = Done r
            /\ run_path [node] visited s r (node :: rest).
Proof.
  induction fuel as [| fuel IH]; intros visited s node HU Hnew Hsz.
  - exfalso. assert (Hin : node ∈ U ∖ visited) by set_solver.
    assert (Hempty : U ∖ visited ≡ ∅) by (apply size_empty_iff; lia).
    set_solver.
  - assert (Hex : exists r, depth_first_internal_ (S fuel) visited s node = Done r).
    { simpl. rewrite visited_get_U by exact HU. simpl.
      rewrite bool_decide_eq_false_2 by exact Hnew.
      destruct (visitor node s) as [continue s1]; simpl.
      destruct continue; [| eauto].
      destruct (adj_U node HU) as (nexts & -> & Hnexts). simpl.
      apply (for_each_next_returns _ fuel); [exact IH | exact Hnexts |].
      assert (Hlt : size (U ∖ ({[node]} ∪ visited)) < size (U ∖ visited)).
      { apply subset_size. set_solver. }
      lia. }
    destruct Hex as [r Hr].
    destruct (depth_first_internal_post _ _ _ _ _ Hr) as [_ [rest Hpost]].
    exists r, rest. split; [exact Hr | exact Hpost].
Qed.
End Termination.

End Generic.

(** *** The sequence of visitor calls

    [traced visitor] behaves as [visitor] and appends every call, with its
    answer, to a log kept next to the visitor's state. *)
Definition traced {St : Type} (visitor : nat -> St -> bool * St)
    (n : nat) (sl : St * list (nat * bool)) : bool * (St * list (nat * bool)) :=
  let r := visitor n sl.1 in
  (r.1, (r.2, sl.2 ++ [(n, r.1)])).

(** A stop is the last call. *)
Definition stop_is_last (calls : list (nat * bool)) : Prop :=
  forall i x, calls !! i = Some (x, false) -> S i = List.length calls.

Definition Res_map {A B : Type} (f : A -> B) (r : Res A) : Res B :=
  do a <- r; Done (f a).

Section Traced.
Context {St : Type}.
Variable in_range : nat -> bool.
Variable adj : nat -> Res (list nat).
Variable visitor : nat -> St -> bool * St.

Definition untrace (r : bool * gset nat * (St * list (nat * bool)))
  : bool * gset nat * St := (r.1.1, r.1.2, r.2.1).

Lemma for_each_next_untrace rec rec' :
  (forall visited s log node,
      Res_map untrace (rec' visited (s, log) node) = rec visited s node) ->
  forall nexts visited s log,
    Res_map untrace (for_each_next in_range rec' nexts visited (s, log))
    = for_each_next in_range rec nexts visited s.
Proof.
  intros Hrec. induction nexts as [| next rest IH]; intros visited s log;
    simpl; [reflexivity |].
  destruct (visited_get in_range visited next) as [seen | | |]; simpl;
    try reflexivity.
  destruct seen; [apply IH |].
  rewrite <- (Hrec visited s log next).
  destruct (rec' visited (s, log) next) as [[[f v] [s1 log1]] | | |]; simpl;
    try reflexivity.
  destruct f; [apply IH | reflexivity].
Qed.

(** Tracing does not change what the traversal does. *)
Lemma depth_first_internal_untrace fuel : forall visited s log node,
  Res_map untrace
    (depth_first_internal_ in_range adj (traced visitor) fuel visited (s, log) node)
  = depth_first_internal_ in_range adj visitor fuel visited s node.
Proof.
  induction fuel as [| fuel IH]; intros visited s log node; simpl;
    [reflexivity |].
  destruct (visited_get in_range visited node) as [seen | | |]; simpl;
    try reflexivity.
  destruct seen; [reflexivity |].
  destruct (visitor node s) as [continue s1]; simpl.
  destruct continue; [| reflexivity].
  destruct (adj node) as [nexts | | |]; simpl; try reflexivity.
  apply for_each_next_untrace. exact IH.
Qed.

(** The log of a run is the path visited, with the answers. *)
Lemma visits_traced s log path flag s' log' :
  visits (traced visitor) (s, log) path flag (s', log') ->
  visits visitor s path flag s'
  /\ exists new, log' = log ++ new /\ new.*1 = path
       /\ (forall i x, new !! i = Some (x, false) ->
             flag = false /\ S i = List.length new).
Proof.
  intros H. remember (s, log) as sl eqn:E1. remember (s', log') as sl' eqn:E2.
  revert s log E1 s' log' E2.
  induction H as [sl | sl x sl' Hv | sl x sl1 rest f sl' Hv Hrest IH];
    intros s log -> s' log' E2.
  - injection E2 as -> ->. split; [constructor |].
    exists []. rewrite app_nil_r. split; [reflexivity |].
    split; [reflexivity |]. intros i x Hi. inversion Hi.
  - subst sl'. unfold traced in Hv. simpl in Hv.
    destruct (visitor x s) as [b s1] eqn:Hx. simpl in Hv.
    injection Hv as -> -> <-. split; [apply visits_stop; exact Hx |].
    exists [(x, false)]. split; [reflexivity |]. split; [reflexivity |].
    intros [| i] y Hi; [auto | inversion Hi].
  - unfold traced in Hv. simpl in Hv.
    destruct (visitor x s) as [b s1] eqn:Hx. simpl in Hv.
    injection Hv as -> <-.
    destruct (IH _ _ eq_refl _ _ E2) as (Hvis & new & -> & Hpath & Hstop).
    split; [eapply visits_cons; eassumption |].
    exists ((x, true) :: new). rewrite <- app_assoc. simpl.
    split; [reflexivity |]. split; [f_equal; exact Hpath |].
    intros [| i] y Hi; simpl in Hi; [discriminate |].
    destruct (Hstop i y Hi) as [-> Hl]. auto.
Qed.
End Traced.

(** *** The contract of a top-level traversal *)
Section TopLevel.
Context {St : Type}.
Variable in_range : nat -> bool.
Variable adj : nat -> Res (list nat).
Variable visitor : nat -> St -> bool * St.
Variable size : nat.
Hypothesis in_range_size : forall x, x < size -> in_range x = true.
Hypothesis adj_size :
  forall x, x < size -> exists l, adj x = Done l /\ forall y, y ∈ l -> y < size.

(** The traversal returns; it has called the visitor on the nodes of a
    duplicate-free [path] of nodes reachable from [start], [start] first;
    and when no call answered [false], on every reachable node. *)
Lemma depth_first_visits start s :
  start < size ->
  exists path flag s',
    depth_first in_range adj visitor size start s = Done s'
    /\ visits visitor s path flag s'
    /\ NoDup path
    /\ head path = Some start
    /\ (forall x, x ∈ path -> reach adj start x)
    /\ (flag = true -> forall x, reach adj start x -> x ∈ path).
Proof.
  intros Hstart. unfold depth_first.
  pose (U := (set_seq 0 size : gset nat)).
  assert (HU : forall x, x ∈ U <-> x < size)
    by (intros x; unfold U; rewrite elem_of_set_seq; lia).
  destruct (depth_first_internal_returns in_range adj visitor U) with
    (fuel := S size) (visited := (∅ : gset nat)) (s := s) (node := start)
    as (r & rest & Hr & Hnd & Hfresh & Hvis & Hcalls & Hreach & Hclosed).
  - intros x Hx. apply in_range_size, HU, Hx.
  - intros x Hx. destruct (adj_size x) as (l & Hl & Hin); [apply HU, Hx |].
    exists l. split; [exact Hl |]. intros y Hy. apply HU, Hin, Hy.
  - apply HU, Hstart.
  - set_solver.
  - etransitivity; [apply subseteq_size with (Y := U); set_solver |].
    unfold U. rewrite size_set_seq. lia.
  - rewrite Hr. simpl. exists (start :: rest), r.1.1, r.2.
    split; [reflexivity |]. split; [exact Hcalls |]. split; [exact Hnd |].
    split; [reflexivity |]. split.
    + intros x Hx. destruct (Hreach x Hx) as (r0 & Hr0 & Hr0x).
      apply list_elem_of_singleton in Hr0 as ->. exact Hr0x.
    + intros Hflag x Hx. destruct (Hclosed Hflag) as [Hroots Hcl].
      assert (Hin : forall y, y ∈ r.1.2 -> y ∈ start :: rest).
      { intros y. rewrite Hvis. set_solver. }
      apply (rtc_ind_r (R := edge adj) (fun x => x ∈ start :: rest) start);
        [| | exact Hx].
      * apply Hin, Hroots. left.
      * intros y z _ Hyz IH. apply Hin. eapply Hcl; [exact IH | exact Hyz].
Qed.
End TopLevel.

(** The calls of a top-level traversal, as logged by [traced]: no node is
    called twice, a stop is the last call, and the log does not change the
    outcome. *)
Definition traversal_contract {St : Type}
    (run : forall St' : Type, (nat -> St' -> bool * St') -> St' -> Res St')
    (start : nat) (visitor : nat -> St -> bool * St) (s : St) : Prop :=
  exists s' calls,
    run _ (traced visitor) (s, []) = Done (s', calls)
    /\ run _ visitor s = Done s'
    /\ NoDup calls.*1
    /\ stop_is_last calls
    /\ head calls.*1 = Some start.

Lemma depth_first_traced {St : Type} in_range adj size
    (visitor : nat -> St -> bool * St) start s :
  (forall x, x < size -> in_range x = true) ->
  (forall x, x < size -> exists l, adj x = Done l /\ forall y, y ∈ l -> y < size) ->
  start < size ->
  traversal_contract
    (fun St' v s => depth_first in_range adj v size start s) start visitor s.
Proof.
  intros Hr Hadj Hstart.
  destruct (depth_first_visits in_range adj (traced visitor) size Hr Hadj start
              (s, []) Hstart)
    as (path & flag & [s' calls] & Hrun & Hvis & Hnd & Hhead & _).
  apply visits_traced in Hvis as (_ & new & Hnew & Hpath & Hstop).
  simpl in Hnew. subst calls path.
  exists s', new. split; [exact Hrun |]. split.
  - unfold depth_first in *.
    rewrite <- (depth_first_internal_untrace in_range adj visitor _ _ s [] start).
    destruct (depth_first_internal_ in_range adj (traced visitor) (S size) ∅ (s, []) start)
      as [[[f v] [s1 l1]] | | |]; simpl in Hrun |- *; congruence.
  - split; [exact Hnd |]. split; [| exact Hhead].
    intros i x Hi. apply (Hstop i x Hi).
Qed.

(** *** Depth first on control flow *)

(** The vector selected by [forward ? succ : pred]; [blocks[block]] outside
    the vector is undefined behaviour. *)
Definition cfg_adj (block_list : Blocks.BlockList) (forward : bool)
    (block : BlockId) : Res (list BlockId) :=
  match Blocks.blocks block_list !! block with
  | Some b => Done (if forward then Blocks.succ b else Blocks.pred b)
  | None => Undefined
  end.

(** [dynamic_bitset visited(block_list.blocks.size())] *)
Definition cfg_in_range (block_list : Blocks.BlockList) (block : BlockId) : bool :=
  bool_decide (block < List.length (Blocks.blocks block_list)).

Definition depth_first_cfg {St : Type} (block_list : Blocks.BlockList)
    (start_block : BlockId) (forward : bool)
    (visitor : BlockId -> St -> bool * St) (s : St) : Res St :=
  depth_first (cfg_in_range block_list) (cfg_adj block_list forward) visitor
              (List.length (Blocks.blocks block_list)) start_block s.

(** *** Depth first on call graph and spawn graph *)

Inductive Tag : Type := tag_call_graph | tag_spawn_graph.

Definition iter_vec (tag : Tag) (forward : bool) (proc : Blocks.ProcEntry)
  : list Blocks.XRefInfo :=
  match tag with
  | tag_call_graph =>
      if forward then Blocks.calls_into proc else Blocks.called_from proc
  | tag_spawn_graph =>
      if forward then Blocks.spawns_script proc else Blocks.spawned_from proc
  end.

(** A [ProcEntry&] is passed as its index; the loop visits [xref.proc_id]
    for every [xref] of the selected vector. *)
Definition xref_adj (block_list : Blocks.BlockList) (tag : Tag) (forward : bool)
    (proc : ProcId) : Res (list ProcId) :=
  match Blocks.proc_entries block_list !! proc with
  | Some p => Done (Blocks.xref_proc <$> iter_vec tag forward p)
  | None => Undefined
  end.

(** [dynamic_bitset visited(block_list.proc_entries.size())] *)
Definition xref_in_range (block_list : Blocks.BlockList) (proc : ProcId) : bool :=
  bool_decide (proc < List.length (Blocks.proc_entries block_list)).

Definition depth_first_xref {St : Type} (tag : Tag) (block_list : Blocks.BlockList)
    (start_proc : ProcId) (forward : bool)
    (visitor : ProcId -> St -> bool * St) (s : St) : Res St :=
  depth_first (xref_in_range block_list) (xref_adj block_list tag forward) visitor
              (List.length (Blocks.proc_entries block_list)) start_proc s.

(** Every id stored in an edge list is the id of a block: this holds of
    lists filled by [link_blocks], which indexes [blocks] with both ids. *)
Definition cfg_closed (block_list : Blocks.BlockList) : Prop :=
  forall i b, Blocks.blocks block_list !! i = Some b ->
    forall y, y ∈ Blocks.succ b \/ y ∈ Blocks.pred b ->
      y < List.length (Blocks.blocks block_list).

(** Every cross-reference names a procedure of the list. *)
Definition xref_closed (block_list : Blocks.BlockList) : Prop :=
  forall i p, Blocks.proc_entries block_list !! i = Some p ->
    forall tag forward x, x ∈ iter_vec tag forward p ->
      Blocks.xref_proc x < List.length (Blocks.proc_entries block_list).

Lemma depth_first_cfg_contract {St : Type} block_list start forward
    (visitor : BlockId -> St -> bool * St) s :
  cfg_closed block_list ->
  start < List.length (Blocks.blocks block_list) ->
  traversal_contract
    (fun St' v s => depth_first_cfg block_list start forward v s) start visitor s.
Proof.
  intros Hwf Hstart. apply depth_first_traced; [| | exact Hstart].
  - intros x Hx. unfold cfg_in_range. apply bool_decide_eq_true_2, Hx.
  - intros x Hx. unfold cfg_adj.
    destruct (lookup_lt_is_Some_2 _ x Hx) as [b Hb]. rewrite Hb.
    eexists. split; [reflexivity |]. intros y Hy.
    apply (Hwf x b Hb). destruct forward; auto.
Qed.

Lemma depth_first_xref_contract {St : Type} tag block_list start forward
    (visitor : ProcId -> St -> bool * St) s :
  xref_closed block_list ->
  start < List.length (Blocks.proc_entries block_list) ->
  traversal_contract
    (fun St' v s => depth_first_xref tag block_list start forward v s)
    start visitor s.
Proof.
  intros Hwf Hstart. apply depth_first_traced; [| | exact Hstart].
  - intros x Hx. unfold xref_in_range. apply bool_decide_eq_true_2, Hx.
  - intros x Hx. unfold xref_adj.
    destruct (lookup_lt_is_Some_2 _ x Hx) as [p Hp]. rewrite Hp.
    eexists. split; [reflexivity |]. intros y Hy.
    apply list_elem_of_fmap in Hy as (xr & -> & Hxr).
    apply (Hwf x p Hp tag forward xr Hxr).
Qed.

(** Executable versions of the two conditions. *)
Definition cfg_closedb (block_list : Blocks.BlockList) : bool :=
  forallb (fun b =>
             forallb (fun y => bool_decide (y < List.length (Blocks.blocks block_list)))
                     (Blocks.succ b ++ Blocks.pred b))
          (Blocks.blocks block_list).

Definition xref_closedb (block_list : Blocks.BlockList) : bool :=
  forallb (fun p =>
             forallb (fun x => bool_decide
                        (Blocks.xref_proc x < List.length (Blocks.proc_entries block_list)))
                     (Blocks.calls_into p ++ Blocks.called_from p
                      ++ Blocks.spawns_script p ++ Blocks.spawned_from p))
          (Blocks.proc_entries block_list).

Lemma cfg_closedb_ok block_list :
  cfg_closedb block_list = true -> cfg_closed block_list.
Proof.
  unfold cfg_closedb. rewrite forallb_forall. intros Hall i b Hb y Hy.
  specialize (Hall b (proj1 (list_elem_of_In _ _) (list_elem_of_lookup_2 _ _ _ Hb))).
  rewrite forallb_forall in Hall.
  apply (bool_decide_eq_true_1 _), Hall, list_elem_of_In, elem_of_app. exact Hy.
Qed.

Lemma xref_closedb_ok block_list :
  xref_closedb block_list = true -> xref_closed block_list.
Proof.
  unfold xref_closedb. rewrite forallb_forall. intros Hall i p Hp tag forward x Hx.
  specialize (Hall p (proj1 (list_elem_of_In _ _) (list_elem_of_lookup_2 _ _ _ Hp))).
  rewrite forallb_forall in Hall.
  apply (bool_decide_eq_true_1 _), Hall, list_elem_of_In. rewrite !elem_of_app.
  destruct tag, forward; simpl in Hx; auto.
Qed.

(** A block list used as a running example: block 0 falls into the loop
    head 1, whose successors are the exit 3 and the body 2, which jumps
    back to 1; procedure 0 calls and spawns procedure 1, which calls
    itself. *)
Definition while_cfg : Blocks.BlockList :=
  let r := SegRef.SegReference_new 0 SegRef.Main 0 0 in
  let blk p s := Blocks.mkBlock r 1 p s [] [] in
  Blocks.mkBlockList
    [blk [] [1]; blk [0; 2] [3; 2]; blk [1] [1]; blk [1] []]
    (0, 4) (0, 4) []
    [Blocks.mkProcEntry 1 0 (Some 3)
       [Blocks.mkXRef 0 1] [] [Blocks.mkXRef 0 1] [];
     Blocks.mkProcEntry 6 3 None
       [Blocks.mkXRef 3 1] [Blocks.mkXRef 0 0; Blocks.mkXRef 3 1]
       [] [Blocks.mkXRef 0 0]].

End DFS.

(* ===================================================================== *)
(** ** Statement graph and while structuring *)
(* ===================================================================== *)

Module Stmt.

(** [StatementNode::Type] *)
Inductive NodeType : Type := Block | While | If | IfElse | Break.

(** Address of a statement node in the store. *)
Abbreviation NodeId := nat (only parsing).

(** The members that the classes derived from [StatementNode] add. *)
Inductive Payload : Type :=
  | PBlock (block_id : BlockId) (block_from block_until : Z)
           (goto_break goto_continue : bool)          (* StatementBlock *)
  | PBreak                                            (* StatementBreak *)
  | PWhile (loop_head loop_tail : option NodeId).     (* StatementWhile *)

(** [StatementNode] with the members of its derived class.  [pred] holds
    [weak_ptr]s and [succ] holds [shared_ptr]s; both are addresses here. *)
Record StatementNode : Type := mkNode {
  pred    : list NodeId;
  succ    : list NodeId;
  payload : Payload
}.

(** The [type] member is fixed by the constructor of the derived class. *)
Definition type (n : StatementNode) : NodeType :=
  match payload n with
  | PBlock _ _ _ _ _ => Block
  | PBreak => Break
  | PWhile _ _ => While
  end.

(** The constructors. *)
Definition StatementBlock_new (block_id : BlockId) : StatementNode :=
  mkNode [] [] (PBlock block_id 0 0 false false).
Definition StatementBreak_new : StatementNode := mkNode [] [] PBreak.
Definition StatementWhile_new : StatementNode := mkNode [] [] (PWhile None None).

(** The store of statement nodes: the node at address [i] is [h !! i].
    [std::make_shared] places the new node at the next free address.
    Nodes are never reclaimed in the model, so [weak_ptr::lock] always
    yields the node.  Dereferencing an address outside the store, or a
    node of another class than the static type asks for, has no
    counterpart in the source and is [Undefined]. *)
Abbreviation heap := (list StatementNode) (only parsing).

Definition make_shared (h : heap) (n : StatementNode) : NodeId * heap :=
  (List.length h, h ++ [n]).

Definition deref (h : heap) (i : NodeId) : Res StatementNode :=
  match h !! i with
  | Some n => Done n
  | None => Undefined
  end.

Definition update (h : heap) (i : NodeId) (f : StatementNode -> option StatementNode)
  : Res heap :=
  match h !! i with
  | Some n => match f n with
              | Some n' => Done (<[i := n']> h)
              | None => Undefined
              end
  | None => Undefined
  end.

Definition set_pred (f : list NodeId -> list NodeId) (n : StatementNode)
  : option StatementNode :=
  Some (mkNode (f (pred n)) (succ n) (payload n)).

Definition set_succ (f : list NodeId -> list NodeId) (n : StatementNode)
  : option StatementNode :=
  Some (mkNode (pred n) (f (succ n)) (payload n)).

(** [v.emplace_back(x)] *)
Definition emplace_back (x : NodeId) (v : list NodeId) : list NodeId := v ++ [x].

(** [StatementNode::add_successor] *)
Definition add_successor (h : heap) (this succ_node : NodeId) : Res heap :=
  do h <- update h this (set_succ (emplace_back succ_node));
  update h succ_node (set_pred (emplace_back this)).

(** [v.erase(std::find(v.begin(), v.end(), x))]: erasing [end()] is
    undefined behaviour. *)
Fixpoint erase_first (x : NodeId) (v : list NodeId) : option (list NodeId) :=
  match v with
  | [] => None
  | y :: rest => if decide (y = x) then Some rest
                 else cons y <$> erase_first x rest
  end.

(** One iteration of the loop of [replace_successor], at position [i]. *)
Definition replace_successor_at (this old_node new_node : NodeId)
    (h : heap) (i : nat) : Res heap :=
  do t <- deref h this;
  match succ t !! i with
  | None => Undefined
  | Some x =>
      if decide (x = old_node) then
        do h <- update h this (set_succ (fun v => <[i := new_node]> v));
        do h <- update h new_node (set_pred (emplace_back this));
        do o <- deref h old_node;
        match erase_first this (pred o) with
        | None => Undefined
        | Some v => update h old_node (set_pred (fun _ => v))
        end
      else Done h
  end.

Fixpoint Res_foldl {A B : Type} (f : A -> B -> Res A) (a : A) (l : list B) : Res A :=
  match l with
  | [] => Done a
  | b :: rest => do a <- f a b; Res_foldl f a rest
  end.

(** [StatementNode::replace_successor]: the loop runs over the positions
    of [this->succ], whose size it does not change. *)
Definition replace_successor (h : heap) (this old_node new_node : NodeId)
  : Res heap :=
  do t <- deref h this;
  Res_foldl (replace_successor_at this old_node new_node) h
            (seq 0 (List.length (succ t))).

(** [std::replace(v.begin(), v.end(), old, new)] *)
Definition replace (old new : NodeId) (v : list NodeId) : list NodeId :=
  (fun y => if decide (y = old) then new else y) <$> v.

(** The loop of [unlink_preds]: [it] is at position [i] of [this->pred] and
    [n] elements remain up to [end()].  Erasing at [it] leaves [it] at the
    same position. *)
Fixpoint unlink_preds_from (n : nat) (h : heap) (this new_succ : NodeId)
    (except : option NodeId) (i : nat) : Res heap :=
  match n with
  | O => Done h
  | S n =>
      do t <- deref h this;
      match pred t !! i with
      | None => Undefined
      | Some pred_ptr =>
          if decide (Some pred_ptr = except) then
            unlink_preds_from n h this new_succ except (S i)
          else
            do h <- update h pred_ptr (set_succ (replace this new_succ));
            do h <- update h new_succ (set_pred (emplace_back pred_ptr));
            do h <- update h this (set_pred (delete i));
            unlink_preds_from n h this new_succ except i
      end
  end.

(** [StatementNode::unlink_preds].  With [new_succ == this] the loop would
    append to the vector it iterates, which invalidates the iterator. *)
Definition unlink_preds (h : heap) (this new_succ : NodeId)
    (except : option NodeId) : Res heap :=
  do t <- deref h this;
  if decide (new_succ = this) then Undefined
  else unlink_preds_from (List.length (pred t)) h this new_succ except 0.

Definition set_loop (head tail : NodeId) (n : StatementNode) : option StatementNode :=
  match payload n with
  | PWhile _ _ => Some (mkNode (pred n) (succ n) (PWhile (Some head) (Some tail)))
  | _ => None
  end.

(** [++block_until] on a [uint16_t] *)
Definition incr_block_until (n : StatementNode) : option StatementNode :=
  match payload n with
  | PBlock b from until gb gc =>
      Some (mkNode (pred n) (succ n) (PBlock b from ((until + 1) mod 2 ^ 16) gb gc))
  | _ => None
  end.

Definition block_until_of (n : StatementNode) : option Z :=
  match payload n with
  | PBlock _ _ until _ _ => Some until
  | _ => None
  end.

Definition block_id_of (n : StatementNode) : option BlockId :=
  match payload n with
  | PBlock b _ _ _ _ => Some b
  | _ => None
  end.

(** [StatementWhile::setup] *)
Definition setup (h : heap) (this stmt_loop_head stmt_loop_tail : NodeId)
  : Res heap :=
  do h <- update h this (set_loop stmt_loop_head stmt_loop_tail);
  do head <- deref h stmt_loop_head;
  if decide (List.length (succ head) = 2) then
    match succ head !! 0 with
    | None => Undefined
    | Some break_node =>
        do h <- unlink_preds h stmt_loop_head this (Some stmt_loop_tail);
        let '(new_break, h) := make_shared h StatementBreak_new in
        do h <- replace_successor h stmt_loop_head break_node new_break;
        do h <- add_successor h this break_node;
        update h stmt_loop_tail incr_block_until
    end
  else ExpectsFailed.

(** [StatementWhile::continue_node] *)
Definition continue_node (h : heap) (this : NodeId) : Res (option NodeId) :=
  do n <- deref h this;
  match payload n with
  | PWhile loop_head _ => Done loop_head
  | _ => Undefined
  end.

(** [StatementWhile::break_node] *)
Definition break_node (h : heap) (this : NodeId) : Res NodeId :=
  do n <- deref h this;
  if decide (List.length (succ n) = 1) then
    match succ n !! 0 with
    | Some b => Done b
    | None => Undefined
    end
  else ExpectsFailed.

(** *** Depth first on statements *)

(** The vector iterated by [depth_first_internal_] on statements; the
    [Expects(forward == true)] sits between the visitor call and the loop. *)
Definition stmt_adj (h : heap) (forward : bool) (node : NodeId) : Res (list NodeId) :=
  if forward then do n <- deref h node; Done (succ n)
  else ExpectsFailed.

(** [visited] is a [std::map], every key can be read. *)
Definition stmt_in_range (_ : NodeId) : bool := true.

Definition depth_first {St : Type} (h : heap) (start_node : NodeId)
    (forward : bool) (visitor : NodeId -> St -> bool * St) (s : St) : Res St :=
  DFS.depth_first stmt_in_range (stmt_adj h forward) visitor (List.length h)
                  start_node s.

(** *** [to_statements] *)

(** [std::map::emplace]: no effect when the key is present. *)
Definition map_emplace (k : BlockId) (v : NodeId) (m : gmap BlockId NodeId)
  : gmap BlockId NodeId :=
  match m !! k with
  | Some _ => m
  | None => <[k := v]> m
  end.

(** The loop over [this_block.succ]; [rec] is the recursive call. *)
Definition link_successors
    (rec : BlockId -> heap * gmap BlockId NodeId ->
           Res (NodeId * (heap * gmap BlockId NodeId)))
    (node : NodeId)
  : list BlockId -> heap * gmap BlockId NodeId -> Res (heap * gmap BlockId NodeId) :=
  fix loop (succs : list BlockId) (st : heap * gmap BlockId NodeId) :=
    match succs with
    | [] => Done st
    | succ :: rest =>
        match st.2 !! succ with
        | Some it_second =>
            do h <- add_successor st.1 node it_second;
            loop rest (h, st.2)
        | None =>
            do r <- rec succ st;
            do h <- add_successor r.2.1 node r.1;
            loop rest (h, r.2.2)
        end
    end.

(** [to_statements_internal]; the state is the store with [block2node]. *)
Fixpoint to_statements_internal (fuel : nat) (block_list : Blocks.BlockList)
    (block_id : BlockId) (st : heap * gmap BlockId NodeId)
  : Res (NodeId * (heap * gmap BlockId NodeId)) :=
  match fuel with
  | O => OutOfFuel
  | S fuel =>
      match Blocks.blocks block_list !! block_id with
      | None => Undefined
      | Some this_block =>
          let '(node, h) := make_shared st.1 (StatementBlock_new block_id) in
          let block2node := map_emplace block_id node st.2 in
          do st <- link_successors (to_statements_internal fuel block_list) node
                     (Blocks.succ this_block) (h, block2node);
          Done (node, st)
      end
  end.

(** [to_statements]: a fresh [block2node]; the statement nodes are created
    in the store [h] (empty when the graph of a procedure is first built). *)
Definition to_statements (block_list : Blocks.BlockList) (entry_point : BlockId)
    (h : heap) : Res (NodeId * heap) :=
  do r <- to_statements_internal (S (List.length (Blocks.blocks block_list)))
            block_list entry_point (h, ∅);
  Done (r.1, r.2.1).

(** *** [structure_dowhile] *)

(** [BlockList::Loop] *)
Record Loop : Type := mkLoop {
  head   : BlockId;
  tail   : BlockId;
  blocks : list BlockId
}.

(** The lambda passed to [depth_first]; its captured state is the pair
    ([stmt_loop_head], [stmt_loop_tail]). *)
Definition find_head_tail (h : heap) (loop : Loop) (node : NodeId)
    (s : option NodeId * option NodeId) : bool * (option NodeId * option NodeId) :=
  match block_id_of <$> h !! node with
  | Some (Some block_id) =>
      let stmt_loop_head := if decide (block_id = head loop) then Some node else s.1 in
      let stmt_loop_tail := if decide (block_id = tail loop) then Some node else s.2 in
      (negb (bool_decide (is_Some stmt_loop_head) && bool_decide (is_Some stmt_loop_tail)),
       (stmt_loop_head, stmt_loop_tail))
  | _ => (true, s)
  end.

(** The body of the loop of [structure_dowhile], on (store, [entry_node]). *)
Definition structure_loop (st : heap * NodeId) (loop : Loop) : Res (heap * NodeId) :=
  let '(h, entry_node) := st in
  do found <- depth_first h entry_node true (find_head_tail h loop) (None, None);
  match found with
  | (Some stmt_loop_head, Some stmt_loop_tail) =>
      let '(node_while, h) := make_shared h StatementWhile_new in
      do h <- setup h node_while stmt_loop_head stmt_loop_tail;
      if decide (entry_node = stmt_loop_head) then Done (h, node_while)
      else Done (h, entry_node)
  | _ => Done (h, entry_node)     (* continue *)
  end.

(** [structure_dowhile] *)
Definition structure_dowhile (h : heap) (entry_node : NodeId) (loops : list Loop)
  : Res (heap * NodeId) :=
  Res_foldl structure_loop (h, entry_node) loops.

(** *** Well-formed stores *)

(** Every address stored in a node is the address of a node. *)
Definition heap_closed (h : heap) : Prop :=
  forall i n, h !! i = Some n ->
    forall y, y ∈ succ n \/ y ∈ pred n -> y < List.length h.

Definition succ_of (h : heap) (i : NodeId) : list NodeId :=
  from_option succ [] (h !! i).
Definition pred_of (h : heap) (i : NodeId) : list NodeId :=
  from_option pred [] (h !! i).

(** *** Facts about the traversals *)

Lemma depth_first_forward_contract {St : Type} (h : heap) start
    (visitor : NodeId -> St -> bool * St) s :
  heap_closed h ->
  start < List.length h ->
  DFS.traversal_contract
    (fun St' v s => depth_first h start true v s) start visitor s.
Proof.
  intros Hwf Hstart. apply DFS.depth_first_traced; [| | exact Hstart].
  - reflexivity.
  - intros x Hx. unfold stmt_adj, deref.
    destruct (lookup_lt_is_Some_2 _ x Hx) as [n Hn]. rewrite Hn. simpl.
    eexists. split; [reflexivity |]. intros y Hy.
    apply (Hwf x n Hn). auto.
Qed.

Lemma depth_first_backward {St : Type} (h : heap) start
    (visitor : NodeId -> St -> bool * St) s :
  depth_first h start false visitor s
  = if (visitor start s).1 then ExpectsFailed else Done (visitor start s).2.
Proof.
  unfold depth_first, DFS.depth_first. simpl.
  destruct (visitor start s) as [continue s1]; simpl.
  destruct continue; reflexivity.
Qed.

(** C4: each depth-first traversal (block CFG, call graph, spawn graph,
    statement graph), for every start node, direction and visitor, calls
    the visitor at most once per node, makes no call after one that
    answered stop, and returns.  On statements the backward direction is
    cut by [Expects(forward == true)] after the first visitor call: the
    traversal returns if that call answered stop. *)
Theorem depth_first_contract :
  (forall (St : Type) block_list start forward
          (visitor : BlockId -> St -> bool * St) s,
      DFS.cfg_closed block_list ->
      start < List.length (Blocks.blocks block_list) ->
      DFS.traversal_contract
        (fun St' v s => DFS.depth_first_cfg block_list start forward v s)
        start visitor s)
  /\ (forall (St : Type) tag block_list start forward
             (visitor : ProcId -> St -> bool * St) s,
      DFS.xref_closed block_list ->
      start < List.length (Blocks.proc_entries block_list) ->
      DFS.traversal_contract
        (fun St' v s => DFS.depth_first_xref tag block_list start forward v s)
        start visitor s)
  /\ (forall (St : Type) (h : heap) start
             (visitor : NodeId -> St -> bool * St) s,
      heap_closed h ->
      start < List.length h ->
      DFS.traversal_contract
        (fun St' v s => depth_first h start true v s) start visitor s)
  /\ (forall (St : Type) (h : heap) start
             (visitor : NodeId -> St -> bool * St) s,
      depth_first h start false visitor s
      = if (visitor start s).1 then ExpectsFailed else Done (visitor start s).2).
Proof.
  split; [intros; apply DFS.depth_first_cfg_contract; assumption |].
  split; [intros; apply DFS.depth_first_xref_contract; assumption |].
  split; [intros; apply depth_first_forward_contract; assumption |].
  intros. apply depth_first_backward.
Qed.

(** *** Reading the store *)

Definition payload_of (h : heap) (i : NodeId) : option Payload :=
  payload <$> h !! i.

Lemma lookup_insert_node (h : heap) i n' j :
  i < List.length h ->
  <[i := n']> h !! j = if decide (j = i) then Some n' else h !! j.
Proof.
  intros Hi. case_decide as Hj.
  - subst j. apply list_lookup_insert_eq, Hi.
  - apply list_lookup_insert_ne. congruence.
Qed.

Lemma update_set_succ h i g :
  i < List.length h ->
  exists h',
    update h i (set_succ g) = Done h'
    /\ List.length h' = List.length h
    /\ (forall j, succ_of h' j = if decide (j = i) then g (succ_of h j) else succ_of h j)
    /\ (forall j, pred_of h' j = pred_of h j)
    /\ (forall j, payload_of h' j = payload_of h j).
Proof.
  intros Hi. unfold update.
  destruct (lookup_lt_is_Some_2 h i Hi) as [n Hn]. rewrite Hn. simpl.
  eexists. split; [reflexivity |]. split; [apply length_insert |].
  unfold succ_of, pred_of, payload_of.
  repeat split; intros j; rewrite lookup_insert_node by exact Hi;
    case_decide; subst; rewrite ?Hn; reflexivity.
Qed.

Lemma update_set_pred h i g :
  i < List.length h ->
  exists h',
    update h i (set_pred g) = Done h'
    /\ List.length h' = List.length h
    /\ (forall j, succ_of h' j = succ_of h j)
    /\ (forall j, pred_of h' j = if decide (j = i) then g (pred_of h j) else pred_of h j)
    /\ (forall j, payload_of h' j = payload_of h j).
Proof.
  intros Hi. unfold update.
  destruct (lookup_lt_is_Some_2 h i Hi) as [n Hn]. rewrite Hn. simpl.
  eexists. split; [reflexivity |]. split; [apply length_insert |].
  unfold succ_of, pred_of, payload_of.
  repeat split; intros j; rewrite lookup_insert_node by exact Hi;
    case_decide; subst; rewrite ?Hn; reflexivity.
Qed.

Lemma add_successor_spec h this sn :
  this < List.length h -> sn < List.length h ->
  exists h',
    add_successor h this sn = Done h'
    /\ List.length h' = List.length h
    /\ (forall j, succ_of h' j = succ_of h j ++ if decide (j = this) then [sn] else [])
    /\ (forall j, pred_of h' j = pred_of h j ++ if decide (j = sn) then [this] else [])
    /\ (forall j, payload_of h' j = payload_of h j).
Proof.
  intros Ht Hs. unfold add_successor.
  destruct (update_set_succ h this (emplace_back sn) Ht)
    as (h1 & -> & Hl1 & Hs1 & Hp1 & Hy1). simpl.
  destruct (update_set_pred h1 sn (emplace_back this))
    as (h2 & -> & Hl2 & Hs2 & Hp2 & Hy2); [lia |].
  exists h2. split; [reflexivity |]. split; [lia |].
  split; [| split]; intros j.
  - rewrite Hs2, Hs1. unfold emplace_back.
    case_decide; [reflexivity | symmetry; apply app_nil_r].
  - rewrite Hp2, Hp1. unfold emplace_back.
    case_decide; [reflexivity | symmetry; apply app_nil_r].
  - rewrite Hy2, Hy1. reflexivity.
Qed.

Lemma make_shared_spec (h : heap) n :
  forall j,
    (make_shared h n).2 !! j
    = if decide (j = List.length h) then Some n else h !! j.
Proof.
  intros j. unfold make_shared. simpl. case_decide as Hj.
  - subst j. rewrite lookup_app_r by lia. rewrite Nat.sub_diag. reflexivity.
  - destruct (decide (j < List.length h)) as [Hlt | Hge].
    + apply lookup_app_l. exact Hlt.
    + rewrite !lookup_ge_None_2; [reflexivity | lia |].
      rewrite length_app. simpl. lia.
Qed.

(** *** Symmetric stores: [y] is in [succ x] as often as [x] is in [pred y] *)

Definition heap_sym (h : heap) : Prop :=
  forall x y,
    count_occ Nat.eq_dec (succ_of h x) y = count_occ Nat.eq_dec (pred_of h y) x.

Definition heap_ok (h : heap) : Prop := heap_closed h /\ heap_sym h.

Lemma heap_closed_of (h : heap) :
  heap_closed h <->
  forall x y, y ∈ succ_of h x \/ y ∈ pred_of h x -> y < List.length h.
Proof.
  unfold heap_closed, succ_of, pred_of. split.
  - intros Hc x y. destruct (h !! x) as [n |] eqn:Hx; simpl.
    + apply (Hc x n Hx).
    + intros [H | H]; inversion H.
  - intros Hc i n Hi y Hy. apply (Hc i y). rewrite Hi. exact Hy.
Qed.

Lemma add_successor_ok h this sn h' :
  heap_ok h -> this < List.length h -> sn < List.length h ->
  add_successor h this sn = Done h' -> heap_ok h'.
Proof.
  intros [Hc Hs] Ht Hsn Hrun.
  destruct (add_successor_spec h this sn Ht Hsn) as (h2 & E & Hl & Hsu & Hpr & _).
  rewrite E in Hrun. injection Hrun as <-.
  rewrite heap_closed_of in Hc. split.
  - apply heap_closed_of. intros x y. rewrite Hsu, Hpr, Hl, !elem_of_app.
    intros [[H | H] | [H | H]]; try (apply (Hc x y); tauto);
      case_decide; try (inversion H; fail);
      apply list_elem_of_singleton in H; subst; assumption.
  - intros x y. rewrite Hsu, Hpr.
    rewrite !count_occ_app, (Hs x y). f_equal.
    repeat case_decide; subst; simpl;
      repeat (destruct (Nat.eq_dec _ _)); congruence.
Qed.

Lemma make_shared_ok (h : heap) p :
  heap_ok h -> heap_ok (make_shared h (mkNode [] [] p)).2.
Proof.
  intros [Hc Hs]. rewrite heap_closed_of in Hc.
  assert (Hsu : forall x, succ_of (make_shared h (mkNode [] [] p)).2 x = succ_of h x).
  { intros x. unfold succ_of. rewrite make_shared_spec. case_decide; [| reflexivity].
    subst. rewrite lookup_ge_None_2 by lia. reflexivity. }
  assert (Hpr : forall x, pred_of (make_shared h (mkNode [] [] p)).2 x = pred_of h x).
  { intros x. unfold pred_of. rewrite make_shared_spec. case_decide; [| reflexivity].
    subst. rewrite lookup_ge_None_2 by lia. reflexivity. }
  split.
  - apply heap_closed_of. intros x y. rewrite Hsu, Hpr. intros H.
    apply Hc in H. unfold make_shared. simpl. rewrite length_app. simpl. lia.
  - intros x y. rewrite Hsu, Hpr. apply Hs.
Qed.

(** *** Facts about [to_statements] *)

Section ToStatements.
Variable bl : Blocks.BlockList.
Hypothesis bl_closed : DFS.cfg_closed bl.

Let Nb := List.length (Blocks.blocks bl).

(** Reachability in the block CFG along [succ]. *)
Definition cfg_reach : BlockId -> BlockId -> Prop :=
  DFS.reach (DFS.cfg_adj bl true).

(** [imgs] are the nodes that [m] registers for the blocks [succs]. *)
Definition resolves (m : gmap BlockId NodeId) (succs : list BlockId)
    (imgs : list NodeId) : Prop :=
  Forall2 (fun c x => m !! c = Some x) succs imgs.

(** Node [x] is the freshly built [StatementBlock] of block [c], and its
    [succ] vector lists the nodes of the successors of [c], in order. *)
Definition mirrors (m : gmap BlockId NodeId) (h : heap) (x : NodeId)
    (c : BlockId) : Prop :=
  payload_of h x = Some (PBlock c 0 0 false false)
  /\ resolves m (Blocks.succ_of bl c) (succ_of h x).

Definition st_ok (h : heap) (m : gmap BlockId NodeId) : Prop :=
  forall c x, m !! c = Some x -> c < Nb /\ x < List.length h.

Record extends (roots : list BlockId) (h : heap) (m : gmap BlockId NodeId)
    (h' : heap) (m' : gmap BlockId NodeId) : Prop := {
  ext_length : List.length h <= List.length h';
  ext_map : m ⊆ m';
  ext_payload : forall x, x < List.length h -> payload_of h' x = payload_of h x;
  ext_new_key : forall c x, m' !! c = Some x -> m !! c = None ->
    List.length h <= x < List.length h' /\ c < Nb
    /\ (exists r, r ∈ roots /\ cfg_reach r c)
    /\ mirrors m' h' x c;
  ext_new_node : forall x, List.length h <= x < List.length h' ->
    exists c, m' !! c = Some x /\ m !! c = None;
  ext_ok : heap_ok h -> heap_ok h'
}.

Lemma resolves_weaken m m' succs imgs :
  m ⊆ m' -> resolves m succs imgs -> resolves m' succs imgs.
Proof.
  intros Hsub Hres. eapply Forall2_impl; [exact Hres |]. intros c x Hc.
  cbv beta in *. eapply lookup_weaken; [exact Hc | exact Hsub].
Qed.

Lemma st_ok_extends roots h m h' m' :
  st_ok h m -> extends roots h m h' m' -> st_ok h' m'.
Proof.
  intros Hok He c x Hc. destruct (m !! c) as [x0 |] eqn:Hm.
  - assert (x0 = x) as ->.
    { eapply lookup_weaken in Hm; [| apply (ext_map _ _ _ _ _ He)]. congruence. }
    destruct (Hok c x Hm). pose proof (ext_length _ _ _ _ _ He). lia.
  - destruct (ext_new_key _ _ _ _ _ He c x Hc Hm) as (? & ? & _). lia.
Qed.

Lemma st_ok_size h m b :
  st_ok h m -> b < Nb -> m !! b = None -> size m < Nb.
Proof.
  intros Hok Hb Hnone. rewrite <- size_dom.
  assert (Hsub : dom m ⊂ (set_seq 0 Nb : gset nat)).
  { split.
    - intros c Hc. apply elem_of_dom in Hc as [x Hx].
      apply elem_of_set_seq. destruct (Hok c x Hx). lia.
    - intros Hsup. assert (Hin : b ∈ dom m) by (apply Hsup, elem_of_set_seq; lia).
      apply elem_of_dom in Hin as [x Hx]. congruence. }
  apply subset_size in Hsub. rewrite size_set_seq in Hsub. exact Hsub.
Qed.

Lemma cfg_edge_reach b blk r c :
  Blocks.blocks bl !! b = Some blk -> r ∈ Blocks.succ blk ->
  cfg_reach r c -> cfg_reach b c.
Proof.
  intros Hb Hr Hrc. eapply rtc_l; [| exact Hrc].
  exists (Blocks.succ blk). split; [| exact Hr].
  unfold DFS.cfg_adj. rewrite Hb. reflexivity.
Qed.

(** What a recursive call with the given fuel achieves. *)
Definition call_spec
    (rec : BlockId -> heap * gmap BlockId NodeId ->
           Res (NodeId * (heap * gmap BlockId NodeId)))
    (fuel : nat) : Prop :=
  forall h m b,
    st_ok h m -> b < Nb -> m !! b = None -> Nb < fuel + size m ->
    exists h' m',
      rec b (h, m) = Done (List.length h, (h', m'))
      /\ m' !! b = Some (List.length h)
      /\ extends [b] h m h' m'
      /\ (forall x, x < List.length h -> succ_of h' x = succ_of h x).

Lemma link_successors_spec rec fuel node :
  call_spec rec fuel ->
  forall succs h m,
    st_ok h m -> node < List.length h ->
    (forall c, c ∈ succs -> c < Nb) -> Nb < fuel + size m ->
    exists h' m',
      link_successors rec node succs (h, m) = Done (h', m')
      /\ extends succs h m h' m'
      /\ (forall x, x < List.length h -> x <> node -> succ_of h' x = succ_of h x)
      /\ exists imgs, succ_of h' node = succ_of h node ++ imgs
                      /\ resolves m' succs imgs.
Proof.
  intros Hrec. induction succs as [| c rest IH]; intros h m Hok Hnode Hsuccs Hfuel.
  - exists h, m. split; [reflexivity |]. split.
    + split; try reflexivity; try tauto.
      * intros k x Hk Hnone. congruence.
      * intros x Hx. lia.
    + split; [reflexivity |]. exists []. rewrite app_nil_r.
      split; [reflexivity | constructor].
  - assert (Hrest : forall k, k ∈ rest -> k < Nb) by (intros; apply Hsuccs; right; assumption).
    cbn [link_successors]. cbn [fst snd].
    destruct (m !! c) as [x |] eqn:Hc.
    + (* the successor already has a node *)
      destruct (Hok c x Hc) as [_ Hx].
      destruct (add_successor_spec h node x Hnode Hx)
        as (h1 & Hadd & Hl1 & Hs1 & Hp1 & Hy1).
      rewrite Hadd. cbn [Res_bind].
      destruct (IH h1 m) as (h' & m' & Hrun & He & Hframe & imgs & Himgs & Hres);
        [intros k y Hk; rewrite Hl1; apply (Hok k y Hk) | lia | exact Hrest
        | exact Hfuel |].
      exists h', m'. split; [exact Hrun |]. split; [| split].
      * destruct He as [E1 E2 E3 E4 E5 E6]. split.
        -- lia.
        -- exact E2.
        -- intros y Hy. rewrite E3 by lia. apply Hy1.
        -- intros k y Hk Hnone. destruct (E4 k y Hk Hnone) as (? & ? & (r & Hr & Hrk) & ?).
           split; [lia |]. split; [assumption |]. split; [| assumption].
           exists r. split; [right; exact Hr | exact Hrk].
        -- intros y Hy. apply E5. lia.
        -- intros Hh. apply E6. apply (add_successor_ok h node x h1 Hh Hnode Hx Hadd).
      * intros y Hy Hne. rewrite Hframe by lia. rewrite Hs1.
        rewrite decide_False by exact Hne. apply app_nil_r.
      * exists (x :: imgs). split.
        -- rewrite Himgs, Hs1, decide_True by reflexivity.
           rewrite <- app_assoc. reflexivity.
        -- constructor; [| exact Hres].
           eapply lookup_weaken; [exact Hc | apply (ext_map _ _ _ _ _ He)].
    + (* the successor is new: recursive call, then link *)
      destruct (Hrec h m c Hok (Hsuccs c ltac:(left)) Hc Hfuel)
        as (h1 & m1 & Hcall & Hm1 & He1 & Hframe1).
      rewrite Hcall. cbn [Res_bind fst snd].
      assert (Hok1 : st_ok h1 m1) by (eapply st_ok_extends; eassumption).
      destruct (ext_new_key _ _ _ _ _ He1 c _ Hm1 Hc) as (Hn & _ & _ & Hmir).
      pose proof (ext_length _ _ _ _ _ He1) as Hlen1.
      destruct (add_successor_spec h1 node (List.length h))
        as (h2 & Hadd & Hl2 & Hs2 & Hp2 & Hy2); [lia | lia |].
      rewrite Hadd. cbn [Res_bind].
      destruct (IH h2 m1) as (h' & m' & Hrun & He & Hframe & imgs & Himgs & Hres);
        [intros k y Hk; rewrite Hl2; apply (Hok1 k y Hk) | lia | exact Hrest | |].
      { pose proof (map_subseteq_size _ _ (ext_map _ _ _ _ _ He1)). lia. }
      exists h', m'. split; [exact Hrun |]. split; [| split].
      * destruct He as [E1 E2 E3 E4 E5 E6].
        destruct He1 as [F1 F2 F3 F4 F5 F6]. split.
        -- lia.
        -- etransitivity; eassumption.
        -- intros y Hy. rewrite E3 by lia. rewrite Hy2. apply F3, Hy.
        -- intros k y Hk Hnone. destruct (m1 !! k) as [y1 |] eqn:Hk1.
           ++ assert (y1 = y) as ->.
              { eapply lookup_weaken in Hk1; [| exact E2]. congruence. }
              destruct (F4 k y Hk1 Hnone) as (Hy & Hkb & (r & Hr & Hrk) & Hpay & Hsucc).
              split; [lia |]. split; [exact Hkb |]. split.
              { exists r. apply list_elem_of_singleton in Hr as ->.
                split; [left | exact Hrk]. }
              split.
              ** rewrite E3 by lia. rewrite Hy2. exact Hpay.
              ** rewrite Hframe by lia. rewrite Hs2.
                 rewrite decide_False by lia. rewrite app_nil_r.
                 eapply resolves_weaken; eassumption.
           ++ destruct (E4 k y Hk Hk1) as (Hy & Hkb & (r & Hr & Hrk) & Hmir').
              split; [lia |]. split; [exact Hkb |]. split; [| exact Hmir'].
              exists r. split; [right; exact Hr | exact Hrk].
        -- intros y Hy. destruct (decide (y < List.length h1)) as [Hlt | Hge].
           ++ destruct (F5 y) as (k & Hk & Hnone); [lia |].
              exists k. split; [| exact Hnone].
              eapply lookup_weaken; eassumption.
           ++ destruct (E5 y) as (k & Hk & Hnone); [lia |].
              exists k. split; [exact Hk |].
              destruct (m !! k) eqn:Hmk; [| reflexivity].
              eapply lookup_weaken in Hmk; [| exact F2]. congruence.
        -- intros Hh. apply E6.
           apply (add_successor_ok h1 node (List.length h) h2 (F6 Hh)); [lia | lia | exact Hadd].
      * intros y Hy Hne. rewrite Hframe by lia. rewrite Hs2.
        rewrite decide_False by exact Hne. rewrite app_nil_r. apply Hframe1, Hy.
      * exists (List.length h :: imgs). split.
        -- rewrite Himgs, Hs2, decide_True by reflexivity.
           rewrite Hframe1 by exact Hnode. rewrite <- app_assoc. reflexivity.
        -- constructor; [| exact Hres].
           eapply lookup_weaken; [exact Hm1 | apply (ext_map _ _ _ _ _ He)].
Qed.

Lemma to_statements_internal_spec fuel :
  call_spec (to_statements_internal fuel bl) fuel.
Proof.
  induction fuel as [| fuel IH]; intros h m b Hok Hb Hnone Hfuel.
  - pose proof (st_ok_size h m b Hok Hb Hnone). simpl in Hfuel. lia.
  - cbn [to_statements_internal].
    destruct (lookup_lt_is_Some_2 _ b Hb) as [blk Hblk]. rewrite Hblk.
    cbn [fst snd make_shared].
    set (n := List.length h).
    set (h1 := h ++ [StatementBlock_new b]).
    assert (Hm1 : map_emplace b n m = <[b := n]> m)
      by (unfold map_emplace; rewrite Hnone; reflexivity).
    rewrite Hm1.
    assert (Hh1 : forall j, h1 !! j = if decide (j = n) then Some (StatementBlock_new b) else h !! j)
      by (intros j; apply (make_shared_spec h)).
    assert (Hl1 : List.length h1 = S n)
      by (unfold h1, n; rewrite length_app; simpl; lia).
    destruct (link_successors_spec (to_statements_internal fuel bl) fuel n IH
                (Blocks.succ blk) h1 (<[b := n]> m))
      as (h' & m' & Hrun & He & Hframe & imgs & Himgs & Hres).
    { intros k y Hk. apply lookup_insert_Some in Hk as [[<- <-] | [_ Hk]].
      - split; [exact Hb | lia].
      - destruct (Hok k y Hk). split; [assumption | lia]. }
    { lia. }
    { intros c Hc. apply (bl_closed b blk Hblk). left. exact Hc. }
    { rewrite map_size_insert_None by exact Hnone. lia. }
    rewrite Hrun. cbn [Res_bind].
    exists h', m'. split; [reflexivity |].
    destruct He as [E1 E2 E3 E4 E5 E6].
    assert (Hbn : m' !! b = Some n).
    { eapply lookup_weaken; [| exact E2]. apply lookup_insert_eq. }
    split; [exact Hbn |]. split; [| ].
    + split.
      * lia.
      * etransitivity; [apply insert_subseteq, Hnone | exact E2].
      * intros y Hy. rewrite E3 by lia. unfold payload_of. rewrite Hh1.
        rewrite decide_False by (fold n in Hy; lia). reflexivity.
      * intros k y Hk Hmk. destruct (decide (k = b)) as [-> | Hne].
        -- assert (y = n) as -> by congruence.
           split; [fold n; lia |]. split; [exact Hb |]. split.
           { exists b. split; [left | apply rtc_refl]. }
           split.
           ++ rewrite E3 by lia. unfold payload_of. rewrite Hh1.
              rewrite decide_True by reflexivity. reflexivity.
           ++ unfold Blocks.succ_of. rewrite Hblk. simpl.
              rewrite Himgs. unfold succ_of at 1. rewrite Hh1.
              rewrite decide_True by reflexivity. simpl. exact Hres.
        -- destruct (E4 k y Hk) as (Hy & Hkb & (r & Hr & Hrk) & Hmir).
           { rewrite lookup_insert_ne by congruence. exact Hmk. }
           split; [fold n; lia |]. split; [exact Hkb |]. split; [| exact Hmir].
           exists b. split; [left |]. eapply cfg_edge_reach; eassumption.
      * intros y Hy. fold n in Hy. destruct (decide (y = n)) as [-> | Hne].
        -- exists b. split; [exact Hbn | exact Hnone].
        -- destruct (E5 y) as (k & Hk & Hmk); [lia |].
           exists k. split; [exact Hk |].
           apply lookup_insert_None in Hmk. tauto.
      * intros Hh. apply E6. apply (make_shared_ok h _ Hh).
    + intros y Hy. fold n in Hy. rewrite Hframe by lia.
      unfold succ_of. rewrite Hh1. rewrite decide_False by lia. reflexivity.
Qed.
End ToStatements.

(** The block that a node stands for. *)
Definition node_block (h : heap) (x : NodeId) : option BlockId :=
  h !! x ≫= block_id_of.

Lemma payload_node_block h x c f u gb gc :
  payload_of h x = Some (PBlock c f u gb gc) -> node_block h x = Some c.
Proof.
  unfold payload_of, node_block, block_id_of.
  destruct (h !! x) as [n |]; simpl; [| discriminate].
  intros [= ->]. reflexivity.
Qed.

(** The owning edges of the statement graph, and what it means for them to
    form a DAG. *)
Definition succ_edge (h : heap) (x y : NodeId) : Prop := y ∈ succ_of h x.
Definition succ_dag (h : heap) : Prop := forall x, ~ tc (succ_edge h) x x.

Lemma to_statements_spec bl entry (h : heap) :
  DFS.cfg_closed bl ->
  entry < List.length (Blocks.blocks bl) ->
  exists h' m',
    to_statements bl entry h = Done (List.length h, h')
    /\ m' !! entry = Some (List.length h)
    /\ extends bl [entry] h ∅ h' m'
    /\ (forall x, x < List.length h -> succ_of h' x = succ_of h x).
Proof.
  intros Hbl Hentry. unfold to_statements.
  destruct (to_statements_internal_spec bl Hbl
              (S (List.length (Blocks.blocks bl))) h ∅ entry)
    as (h' & m' & Hrun & Hm & He & Hframe).
  - intros c x Hc. rewrite lookup_empty in Hc. discriminate.
  - exact Hentry.
  - apply lookup_empty.
  - rewrite map_size_empty. lia.
  - rewrite Hrun. simpl. exists h', m'. auto.
Qed.

Lemma extends_closed bl entry (h h' : heap) m' :
  extends bl [entry] h ∅ h' m' -> m' !! entry = Some (List.length h) ->
  forall c, cfg_reach bl entry c -> is_Some (m' !! c).
Proof.
  intros He Hentry c Hc.
  apply (rtc_ind_r (R := DFS.edge (DFS.cfg_adj bl true))
           (fun c => is_Some (m' !! c)) entry); [eauto | | exact Hc].
  intros a b _ (l & Hl & Hb) [x Hx].
  destruct (ext_new_key _ _ _ _ _ _ He a x Hx (lookup_empty _)) as (_ & _ & _ & _ & Hres).
  unfold DFS.cfg_adj in Hl. unfold Blocks.succ_of in Hres.
  destruct (Blocks.blocks bl !! a) as [blk |]; [| discriminate].
  injection Hl as <-. simpl in Hres.
  apply list_elem_of_lookup in Hb as [i Hi].
  destruct (Forall2_lookup_l _ _ _ _ _ Hres Hi) as (y & _ & Hy). eauto.
Qed.

(** C8: for every block list whose edge lists hold block ids (cyclic or
    not) and every entry block, [to_statements] returns; every node it
    creates is the [StatementBlock] of a block reachable from the entry,
    and every reachable block has exactly one node among those created.
    The entry's node is the one returned. *)
Theorem to_statements_one_node_per_block bl entry (h : heap) :
  DFS.cfg_closed bl ->
  entry < List.length (Blocks.blocks bl) ->
  exists entry_node h',
    to_statements bl entry h = Done (entry_node, h')
    /\ List.length h <= entry_node < List.length h'
    /\ node_block h' entry_node = Some entry
    /\ (forall x, List.length h <= x < List.length h' ->
          exists c, payload_of h' x = Some (PBlock c 0 0 false false)
                    /\ cfg_reach bl entry c)
    /\ (forall c, cfg_reach bl entry c ->
          exists x, (List.length h <= x < List.length h'
                     /\ node_block h' x = Some c)
                    /\ forall y, List.length h <= y < List.length h' ->
                         node_block h' y = Some c -> y = x).
Proof.
  intros Hbl Hentry.
  destruct (to_statements_spec bl entry h Hbl Hentry)
    as (h' & m' & Hrun & Hm & He & _).
  assert (Hkey : forall c x, m' !! c = Some x ->
            List.length h <= x < List.length h'
            /\ payload_of h' x = Some (PBlock c 0 0 false false)
            /\ cfg_reach bl entry c).
  { intros c x Hc.
    destruct (ext_new_key _ _ _ _ _ _ He c x Hc (lookup_empty _))
      as (Hx & _ & (r & Hr & Hrc) & Hpay & _).
    apply list_elem_of_singleton in Hr as ->. auto. }
  assert (Hnode : forall x c, List.length h <= x < List.length h' ->
            node_block h' x = Some c -> m' !! c = Some x).
  { intros x c Hx Hb. destruct (ext_new_node _ _ _ _ _ _ He x Hx) as (k & Hk & _).
    destruct (Hkey k x Hk) as (_ & Hpay & _).
    apply payload_node_block in Hpay. congruence. }
  exists (List.length h), h'. split; [exact Hrun |].
  destruct (Hkey entry _ Hm) as (Hn & Hpay & _).
  split; [exact Hn |]. split; [eapply payload_node_block; exact Hpay |].
  split.
  - intros x Hx. destruct (ext_new_node _ _ _ _ _ _ He x Hx) as (k & Hk & _).
    destruct (Hkey k x Hk) as (_ & Hp & Hr). eauto.
  - intros c Hc. destruct (extends_closed bl entry h h' m' He Hm c Hc) as [x Hx].
    destruct (Hkey c x Hx) as (Hr & Hp & _).
    exists x. split; [split; [exact Hr | eapply payload_node_block; exact Hp] |].
    intros y Hy Hb. apply Hnode in Hb; [congruence | exact Hy].
Qed.

(** C1 (as the code has it): [to_statements] returns a statement graph that
    mirrors the part of the CFG reachable from the entry, edge for edge:
    with [node_of] the node built for each reachable block, the [succ]
    vector of a node lists the nodes of the successors of its block, in
    order, so that every CFG edge between reachable blocks, back-edges
    included, is a [succ] edge of the statement graph and is recorded in
    the [pred] vector of its target as well.  Depth-first over [succ] from
    the entry node returns all the same and calls no node twice, because
    of its [visited] map. *)
Theorem to_statements_mirrors_cfg bl entry :
  DFS.cfg_closed bl ->
  entry < List.length (Blocks.blocks bl) ->
  exists entry_node h' (node_of : gmap BlockId NodeId),
    to_statements bl entry [] = Done (entry_node, h')
    /\ node_of !! entry = Some entry_node
    /\ (forall c, cfg_reach bl entry c <-> is_Some (node_of !! c))
    /\ (forall c x, node_of !! c = Some x ->
          node_block h' x = Some c
          /\ resolves node_of (Blocks.succ_of bl c) (succ_of h' x))
    /\ (forall a b x, cfg_reach bl entry a -> b ∈ Blocks.succ_of bl a ->
          node_of !! a = Some x ->
          exists y, node_of !! b = Some y
                    /\ y ∈ succ_of h' x /\ x ∈ pred_of h' y)
    /\ heap_ok h'
    /\ (forall (St : Type) (visitor : NodeId -> St -> bool * St) s,
          DFS.traversal_contract
            (fun St' v s => depth_first h' entry_node true v s)
            entry_node visitor s).
Proof.
  intros Hbl Hentry.
  destruct (to_statements_spec bl entry [] Hbl Hentry)
    as (h' & m' & Hrun & Hm & He & _).
  assert (Hok : heap_ok h').
  { apply (ext_ok _ _ _ _ _ _ He). split.
    - intros i n Hi. inversion Hi.
    - intros x y. reflexivity. }
  assert (Hkey : forall c x, m' !! c = Some x ->
            x < List.length h' /\ cfg_reach bl entry c /\ mirrors bl m' h' x c).
  { intros c x Hc.
    destruct (ext_new_key _ _ _ _ _ _ He c x Hc (lookup_empty _))
      as (Hx & _ & (r & Hr & Hrc) & Hmir).
    apply list_elem_of_singleton in Hr as ->. split; [lia | auto]. }
  exists 0, h', m'. split; [exact Hrun |]. split; [exact Hm |].
  split; [| split; [| split; [| split; [exact Hok |]]]].
  - intros c. split; [apply (extends_closed bl entry [] h' m' He Hm) |].
    intros [x Hx]. apply (Hkey c x Hx).
  - intros c x Hc. destruct (Hkey c x Hc) as (_ & _ & Hpay & Hres).
    split; [eapply payload_node_block; exact Hpay | exact Hres].
  - intros a b x Ha Hb Hx. destruct (Hkey a x Hx) as (_ & _ & _ & Hres).
    apply list_elem_of_lookup in Hb as [i Hi].
    destruct (Forall2_lookup_l _ _ _ _ _ Hres Hi) as (y & Hy & Hby).
    exists y. split; [exact Hby |].
    assert (Hin : y ∈ succ_of h' x) by (eapply list_elem_of_lookup_2; exact Hy).
    split; [exact Hin |].
    destruct Hok as [_ Hsym]. specialize (Hsym x y).
    apply list_elem_of_In, (count_occ_In Nat.eq_dec). rewrite <- Hsym.
    apply (count_occ_In Nat.eq_dec), list_elem_of_In. exact Hin.
  - intros St visitor s. apply depth_first_forward_contract.
    + apply Hok.
    + destruct (Hkey entry 0 Hm). assumption.
Qed.

(** *** The contracts of [setup] and [break_node] *)

(** The outcome is not a violated [Expects]. *)
Definition expects_hold {A : Type} (r : Res A) : Prop := r <> ExpectsFailed.

Lemma expects_hold_bind {A B : Type} (r : Res A) (k : A -> Res B) :
  expects_hold r -> (forall a, r = Done a -> expects_hold (k a)) ->
  expects_hold (do a <- r; k a).
Proof. destruct r; simpl; unfold expects_hold; intros; auto; congruence. Qed.

Lemma deref_expects h i : expects_hold (deref h i).
Proof. unfold deref, expects_hold. destruct (h !! i); congruence. Qed.

Lemma update_expects h i f : expects_hold (update h i f).
Proof.
  unfold update, expects_hold. destruct (h !! i) as [n |]; [| congruence].
  destruct (f n); congruence.
Qed.

Lemma add_successor_expects h a b : expects_hold (add_successor h a b).
Proof.
  unfold add_successor. apply expects_hold_bind; [apply update_expects |].
  intros; apply update_expects.
Qed.

Lemma Res_foldl_expects {A B : Type} (f : A -> B -> Res A) l :
  (forall a b, expects_hold (f a b)) -> forall a, expects_hold (Res_foldl f a l).
Proof.
  intros Hf. induction l as [| b l IH]; intros a; simpl; [unfold expects_hold; congruence |].
  apply expects_hold_bind; [apply Hf | intros; apply IH].
Qed.

Lemma replace_successor_expects h this o n :
  expects_hold (replace_successor h this o n).
Proof.
  unfold replace_successor. apply expects_hold_bind; [apply deref_expects |].
  intros t _. apply Res_foldl_expects. intros g i. unfold replace_successor_at.
  apply expects_hold_bind; [apply deref_expects |]. intros t' _.
  destruct (succ t' !! i) as [x |]; [| unfold expects_hold; congruence].
  case_decide; [| unfold expects_hold; congruence].
  apply expects_hold_bind; [apply update_expects |]. intros g1 _.
  apply expects_hold_bind; [apply update_expects |]. intros g2 _.
  apply expects_hold_bind; [apply deref_expects |]. intros o' _.
  destruct (erase_first this (pred o')); [apply update_expects |].
  unfold expects_hold; congruence.
Qed.

Lemma unlink_preds_from_expects n : forall h this ns except i,
  expects_hold (unlink_preds_from n h this ns except i).
Proof.
  induction n as [| n IH]; intros h this ns except i; simpl;
    [unfold expects_hold; congruence |].
  apply expects_hold_bind; [apply deref_expects |]. intros t _.
  destruct (pred t !! i) as [p |]; [| unfold expects_hold; congruence].
  case_decide; [apply IH |].
  apply expects_hold_bind; [apply update_expects |]. intros g1 _.
  apply expects_hold_bind; [apply update_expects |]. intros g2 _.
  apply expects_hold_bind; [apply update_expects |]. intros g3 _.
  apply IH.
Qed.

Lemma unlink_preds_expects h this ns except :
  expects_hold (unlink_preds h this ns except).
Proof.
  unfold unlink_preds. apply expects_hold_bind; [apply deref_expects |].
  intros t _. case_decide; [unfold expects_hold; congruence |].
  apply unlink_preds_from_expects.
Qed.

Lemma update_set_loop h i a b hd tl :
  payload_of h i = Some (PWhile a b) ->
  exists h',
    update h i (set_loop hd tl) = Done h'
    /\ List.length h' = List.length h
    /\ (forall j, succ_of h' j = succ_of h j)
    /\ (forall j, pred_of h' j = pred_of h j)
    /\ (forall j, payload_of h' j
                  = if decide (j = i) then Some (PWhile (Some hd) (Some tl))
                    else payload_of h j).
Proof.
  unfold payload_of, update. intros Hp.
  destruct (h !! i) as [n |] eqn:Hn; [| discriminate]. simpl in Hp.
  injection Hp as Hp. unfold set_loop. rewrite Hp.
  assert (Hi : i < List.length h) by (eapply lookup_lt_Some; exact Hn).
  eexists. split; [reflexivity |]. split; [apply length_insert |].
  unfold succ_of, pred_of.
  repeat split; intros j; rewrite lookup_insert_node by exact Hi;
    case_decide; subst; rewrite ?Hn; reflexivity.
Qed.

(** C9: [setup] requires a loop head with exactly two successors and
    [break_node] a while node with exactly one: with any other count the
    [Expects] fails, so that such a head is rejected and not structured;
    with the required count the [Expects] holds, in [setup] to the end of
    the call, and [break_node] returns the one successor. *)
Theorem setup_break_node_contracts (h : heap) (this head tail : NodeId) a b :
  payload_of h this = Some (PWhile a b) ->
  head < List.length h ->
  (List.length (succ_of h head) <> 2 ->
     setup h this head tail = ExpectsFailed)
  /\ (List.length (succ_of h head) = 2 ->
        expects_hold (setup h this head tail))
  /\ (List.length (succ_of h this) <> 1 -> break_node h this = ExpectsFailed)
  /\ (List.length (succ_of h this) = 1 ->
        exists n, break_node h this = Done n /\ succ_of h this = [n]).
Proof.
  intros Hw Hhead.
  destruct (update_set_loop h this a b head tail Hw)
    as (h0 & Hupd & Hl0 & Hs0 & _).
  assert (Hderef : exists n, deref h0 head = Done n /\ succ n = succ_of h head).
  { unfold deref. rewrite <- Hs0. unfold succ_of.
    destruct (lookup_lt_is_Some_2 h0 head) as [n ->]; [lia | eauto]. }
  destruct Hderef as (n & Hn & Hsn).
  assert (Hthis : exists w, h !! this = Some w).
  { unfold payload_of in Hw. destruct (h !! this); [eauto | discriminate]. }
  destruct Hthis as [w Hwn].
  split; [| split; [| split]].
  - intros Hne. unfold setup. rewrite Hupd. simpl. rewrite Hn. simpl.
    rewrite Hsn. rewrite decide_False by exact Hne. reflexivity.
  - intros Heq. unfold setup. rewrite Hupd. simpl. rewrite Hn. simpl.
    rewrite Hsn. rewrite decide_True by exact Heq.
    destruct (succ_of h head !! 0) as [e |]; [| unfold expects_hold; congruence].
    apply expects_hold_bind; [apply unlink_preds_expects |]. intros h1 _.
    unfold make_shared.
    apply expects_hold_bind; [apply replace_successor_expects |]. intros h2 _.
    apply expects_hold_bind; [apply add_successor_expects |]. intros h3 _.
    apply update_expects.
  - intros Hne. unfold break_node, deref. rewrite Hwn. simpl.
    unfold succ_of in Hne. rewrite Hwn in Hne. simpl in Hne.
    rewrite decide_False by exact Hne. reflexivity.
  - intros Heq. unfold break_node, deref. rewrite Hwn. simpl.
    unfold succ_of in Heq |- *. rewrite Hwn in Heq |- *. simpl in Heq |- *.
    rewrite decide_True by exact Heq.
    destruct (succ w) as [| x [| y l]]; simpl in Heq; try discriminate.
    exists x. split; reflexivity.
Qed.

(** *** The steps of [setup] on the edge lists *)

Lemma deref_Done (h : heap) i :
  i < List.length h ->
  exists n, deref h i = Done n /\ h !! i = Some n.
Proof.
  intros Hi. unfold deref.
  destruct (lookup_lt_is_Some_2 h i Hi) as [n ->]. eauto.
Qed.

Lemma erase_first_In x v :
  x ∈ v ->
  exists v', erase_first x v = Some v'
    /\ (forall y, count_occ Nat.eq_dec v y
                  = count_occ Nat.eq_dec v' y + if decide (y = x) then 1 else 0)
    /\ (forall y, y ∈ v' -> y ∈ v).
Proof.
  induction v as [| a v IH]; intros Hin; [inversion Hin |].
  simpl. destruct (decide (a = x)) as [-> | Hne].
  - exists v. split; [reflexivity |]. split.
    + intros y. simpl. destruct (Nat.eq_dec x y), (decide (y = x)); try congruence; lia.
    + intros y Hy. right. exact Hy.
  - apply elem_of_cons in Hin as [-> | Hin]; [congruence |].
    destruct (IH Hin) as (v' & -> & Hcount & Hsub).
    exists (a :: v'). split; [reflexivity |]. split.
    + intros y. simpl. rewrite (Hcount y).
      destruct (Nat.eq_dec a y); lia.
    + intros y Hy. apply elem_of_cons in Hy as [-> | Hy]; [left | right; auto].
Qed.

Lemma replace_idem (a b : NodeId) v :
  b <> a -> replace a b (replace a b v) = replace a b v.
Proof.
  intros Hne. unfold replace. rewrite <- list_fmap_compose.
  apply list_fmap_ext. intros _ y _. simpl.
  destruct (decide (y = a)) as [-> | Hy].
  - rewrite decide_False by exact Hne. reflexivity.
  - rewrite decide_False by exact Hy. reflexivity.
Qed.

Lemma replace_lookup (a b : NodeId) v i :
  v !! i = Some a -> replace a b v !! i = Some b.
Proof.
  intros Hi. unfold replace. rewrite list_lookup_fmap, Hi. simpl.
  rewrite decide_True by reflexivity. reflexivity.
Qed.

(** One position of [replace_successor]. *)
Lemma replace_successor_at_skip g this old new i y :
  this < List.length g ->
  succ_of g this !! i = Some y -> y <> old ->
  replace_successor_at this old new g i = Done g.
Proof.
  intros Ht Hi Hne. unfold replace_successor_at.
  destruct (deref_Done g this Ht) as (t & -> & Hgt). simpl.
  unfold succ_of in Hi. rewrite Hgt in Hi. simpl in Hi. rewrite Hi.
  rewrite decide_False by exact Hne. reflexivity.
Qed.

Lemma replace_successor_at_hit g this old new i v :
  this < List.length g -> new < List.length g -> old < List.length g ->
  new <> old ->
  succ_of g this !! i = Some old ->
  erase_first this (pred_of g old) = Some v ->
  exists g',
    replace_successor_at this old new g i = Done g'
    /\ List.length g' = List.length g
    /\ (forall z, succ_of g' z
                  = if decide (z = this) then <[i := new]> (succ_of g this)
                    else succ_of g z)
    /\ (forall z, pred_of g' z
                  = if decide (z = old) then v
                    else if decide (z = new) then pred_of g new ++ [this]
                    else pred_of g z)
    /\ (forall z, payload_of g' z = payload_of g z).
Proof.
  intros Ht Hn Ho Hne Hi Hv. unfold replace_successor_at.
  destruct (deref_Done g this Ht) as (t & -> & Hgt). simpl.
  unfold succ_of in Hi. rewrite Hgt in Hi. simpl in Hi. rewrite Hi.
  rewrite decide_True by reflexivity.
  destruct (update_set_succ g this (fun v => <[i := new]> v) Ht)
    as (g1 & -> & Hl1 & Hs1 & Hp1 & Hy1). simpl.
  destruct (update_set_pred g1 new (emplace_back this))
    as (g2 & -> & Hl2 & Hs2 & Hp2 & Hy2); [lia |]. simpl.
  destruct (deref_Done g2 old) as (o & -> & Hgo); [lia |]. simpl.
  assert (Hpo : pred o = pred_of g old).
  { transitivity (pred_of g2 old); [unfold pred_of; rewrite Hgo; reflexivity |].
    rewrite Hp2, decide_False by congruence. apply Hp1. }
  rewrite Hpo, Hv.
  destruct (update_set_pred g2 old (fun _ => v))
    as (g3 & -> & Hl3 & Hs3 & Hp3 & Hy3); [lia |].
  exists g3. split; [reflexivity |]. split; [lia |].
  split; [| split]; intros z.
  - rewrite Hs3, Hs2, Hs1. case_decide; subst; reflexivity.
  - rewrite Hp3, Hp2, Hp1. unfold emplace_back.
    repeat case_decide; subst; reflexivity.
  - rewrite Hy3, Hy2, Hy1. reflexivity.
Qed.

(** The loop of [unlink_preds], from position [length K] of [this->pred],
    which is [K ++ R]. *)
Lemma unlink_preds_from_spec n : forall g this ns except K R,
  this < List.length g -> ns < List.length g -> ns <> this ->
  pred_of g this = K ++ R -> List.length R = n ->
  (forall p, p ∈ R -> p < List.length g) ->
  exists g',
    unlink_preds_from n g this ns except (List.length K) = Done g'
    /\ List.length g' = List.length g
    /\ (forall z, payload_of g' z = payload_of g z)
    /\ (forall z, pred_of g' z
                  = if decide (z = this)
                    then K ++ filter (fun p => Some p = except) R
                    else if decide (z = ns)
                    then pred_of g ns ++ filter (fun p => Some p <> except) R
                    else pred_of g z)
    /\ (forall z, succ_of g' z
                  = if decide (z ∈ filter (fun p => Some p <> except) R)
                    then replace this ns (succ_of g z)
                    else succ_of g z).
Proof.
  induction n as [| n IH]; intros g this ns except K R Ht Hns Hne HP Hlen HR.
  - destruct R; [| discriminate]. exists g. cbn [unlink_preds_from].
    split; [reflexivity |]. split; [reflexivity |]. split; [reflexivity |].
    rewrite !filter_nil. split; intros z.
    + rewrite !app_nil_r. rewrite app_nil_r in HP.
      repeat case_decide; subst; auto.
    + rewrite decide_False; [reflexivity |]. intros H; inversion H.
  - destruct R as [| p R']; [discriminate |]. injection Hlen as Hlen.
    cbn [unlink_preds_from].
    destruct (deref_Done g this Ht) as (t & -> & Hgt). simpl.
    assert (Hpt : pred t = K ++ p :: R')
      by (rewrite <- HP; unfold pred_of; rewrite Hgt; reflexivity).
    rewrite Hpt, list_lookup_middle by reflexivity.
    assert (HR' : forall q, q ∈ R' -> q < List.length g)
      by (intros; apply HR; right; assumption).
    destruct (decide (Some p = except)) as [Hex | Hex].
    + destruct (IH g this ns except (K ++ [p]) R')
        as (g' & Hrun & Hl & Hy & Hpr & Hsu); try assumption.
      { rewrite <- app_assoc. exact HP. }
      rewrite length_app in Hrun. simpl in Hrun.
      rewrite Nat.add_1_r in Hrun.
      exists g'. split; [exact Hrun |]. split; [exact Hl |]. split; [exact Hy |].
      split; intros z.
      * rewrite Hpr. rewrite filter_cons_True by exact Hex.
        rewrite (filter_cons_False (fun p => Some p <> except)) by tauto.
        rewrite <- app_assoc. reflexivity.
      * rewrite Hsu. rewrite (filter_cons_False (fun p => Some p <> except)) by tauto.
        reflexivity.
    + assert (Hp : p < List.length g) by (apply HR; left).
      destruct (update_set_succ g p (replace this ns) Hp)
        as (g1 & -> & Hl1 & Hs1 & Hp1 & Hy1). simpl.
      destruct (update_set_pred g1 ns (emplace_back p))
        as (g2 & -> & Hl2 & Hs2 & Hp2 & Hy2); [lia |]. simpl.
      destruct (update_set_pred g2 this (delete (List.length K)))
        as (g3 & -> & Hl3 & Hs3 & Hp3 & Hy3); [lia |]. simpl.
      destruct (IH g3 this ns except K R')
        as (g' & Hrun & Hl & Hy & Hpr & Hsu); try assumption; try lia.
      { rewrite Hp3, decide_True by reflexivity.
        rewrite Hp2, decide_False by congruence. rewrite Hp1, HP.
        apply delete_middle. }
      { intros q Hq. specialize (HR' q Hq). lia. }
      exists g'. split; [exact Hrun |]. split; [lia |].
      split; [intros z; rewrite Hy, Hy3, Hy2, Hy1; reflexivity |].
      split; intros z.
      * rewrite Hpr. rewrite (filter_cons_False (fun p => Some p = except)) by exact Hex.
        rewrite (filter_cons_True (fun p => Some p <> except)) by exact Hex.
        destruct (decide (z = this)) as [-> | Hz]; [reflexivity |].
        destruct (decide (z = ns)) as [-> | Hz'].
        -- rewrite Hp3, (decide_False (P := ns = this)) by exact Hne.
           rewrite Hp2, Hp1. unfold emplace_back.
           rewrite decide_True by reflexivity. rewrite <- app_assoc. reflexivity.
        -- rewrite Hp3, (decide_False (P := z = this)) by exact Hz.
           rewrite Hp2, Hp1. rewrite decide_False by exact Hz'. reflexivity.
      * rewrite Hsu, Hs3, Hs2, Hs1.
        rewrite (filter_cons_True (fun p => Some p <> except)) by exact Hex.
        destruct (decide (z = p)) as [-> | Hz].
        -- rewrite (decide_True (P := p ∈ p :: _)) by left.
           case_decide; [apply replace_idem; exact Hne | reflexivity].
        -- destruct (decide (z ∈ filter (fun p => Some p <> except) R')) as [Hin | Hin].
           ++ rewrite decide_True by (right; exact Hin). reflexivity.
           ++ rewrite decide_False; [reflexivity |].
              intros Hin'. apply elem_of_cons in Hin' as [-> | Hin']; tauto.
Qed.

Lemma unlink_preds_spec g this ns except :
  this < List.length g -> ns < List.length g -> ns <> this ->
  (forall p, p ∈ pred_of g this -> p < List.length g) ->
  exists g',
    unlink_preds g this ns except = Done g'
    /\ List.length g' = List.length g
    /\ (forall z, payload_of g' z = payload_of g z)
    /\ (forall z, pred_of g' z
                  = if decide (z = this)
                    then filter (fun p => Some p = except) (pred_of g this)
                    else if decide (z = ns)
                    then pred_of g ns
                         ++ filter (fun p => Some p <> except) (pred_of g this)
                    else pred_of g z)
    /\ (forall z, succ_of g' z
                  = if decide (z ∈ filter (fun p => Some p <> except) (pred_of g this))
                    then replace this ns (succ_of g z)
                    else succ_of g z).
Proof.
  intros Ht Hns Hne HR. unfold unlink_preds.
  destruct (deref_Done g this Ht) as (t & -> & Hgt). simpl.
  rewrite decide_False by exact Hne.
  assert (Hpt : pred t = pred_of g this) by (unfold pred_of; rewrite Hgt; reflexivity).
  rewrite Hpt.
  apply (unlink_preds_from_spec _ g this ns except [] (pred_of g this));
    auto.
Qed.

Lemma update_incr_block_until h i b f u gb gc :
  payload_of h i = Some (PBlock b f u gb gc) ->
  exists h',
    update h i incr_block_until = Done h'
    /\ List.length h' = List.length h
    /\ (forall j, succ_of h' j = succ_of h j)
    /\ (forall j, pred_of h' j = pred_of h j)
    /\ (forall j, payload_of h' j
                  = if decide (j = i)
                    then Some (PBlock b f ((u + 1) mod 2 ^ 16) gb gc)
                    else payload_of h j).
Proof.
  unfold payload_of, update. intros Hp.
  destruct (h !! i) as [n |] eqn:Hn; [| discriminate]. simpl in Hp.
  injection Hp as Hp. unfold incr_block_until. rewrite Hp.
  assert (Hi : i < List.length h) by (eapply lookup_lt_Some; exact Hn).
  eexists. split; [reflexivity |]. split; [apply length_insert |].
  unfold succ_of, pred_of.
  repeat split; intros j; rewrite lookup_insert_node by exact Hi;
    case_decide; subst; rewrite ?Hn; reflexivity.
Qed.

Lemma count_occ_filter (P : NodeId -> Prop) `{!forall p, Decision (P p)} v y :
  count_occ Nat.eq_dec (filter P v) y
  = if decide (P y) then count_occ Nat.eq_dec v y else 0.
Proof.
  induction v as [| a v IH].
  - simpl. case_decide; reflexivity.
  - rewrite filter_cons. destruct (decide (P a)) as [Ha | Ha]; simpl;
      destruct (Nat.eq_dec a y) as [-> | Hne]; rewrite IH;
      case_decide; try reflexivity; tauto.
Qed.

Lemma count_occ_pos_In (v : list NodeId) y :
  0 < count_occ Nat.eq_dec v y -> y ∈ v.
Proof. intros H. apply list_elem_of_In, (count_occ_In Nat.eq_dec). lia. Qed.



Lemma make_shared_projections (h : heap) n :
  let h' := (make_shared h n).2 in
  List.length h' = S (List.length h)
  /\ (forall z, z <> List.length h -> succ_of h' z = succ_of h z)
  /\ (forall z, z <> List.length h -> pred_of h' z = pred_of h z)
  /\ (forall z, z <> List.length h -> payload_of h' z = payload_of h z)
  /\ succ_of h' (List.length h) = succ n
  /\ pred_of h' (List.length h) = pred n
  /\ payload_of h' (List.length h) = Some (payload n).
Proof.
  intros h'. unfold succ_of, pred_of, payload_of. subst h'.
  split; [unfold make_shared; simpl; rewrite length_app; simpl; lia |].
  repeat split; try (intros z Hz); rewrite make_shared_spec;
    first [rewrite decide_False by exact Hz | rewrite decide_True by reflexivity];
    reflexivity.
Qed.


(** *** Facts about [structure_dowhile] *)

(** Reachability in the statement graph along [succ]. *)
Definition stmt_reach (h : heap) : NodeId -> NodeId -> Prop :=
  DFS.reach (stmt_adj h true).







(** *** Executable well-formedness, and a running example *)

Definition heap_closedb (h : heap) : bool :=
  forallb (fun n => forallb (fun y => bool_decide (y < List.length h))
                            (succ n ++ pred n)) h.

Definition heap_symb (h : heap) : bool :=
  forallb (fun x =>
             forallb (fun y =>
                        count_occ Nat.eq_dec (succ_of h x) y
                        =? count_occ Nat.eq_dec (pred_of h y) x)
                     (seq 0 (List.length h)))
          (seq 0 (List.length h)).

Lemma heap_closedb_ok h : heap_closedb h = true -> heap_closed h.
Proof.
  unfold heap_closedb. rewrite forallb_forall. intros Hall i n Hn y Hy.
  specialize (Hall n (proj1 (list_elem_of_In _ _) (list_elem_of_lookup_2 _ _ _ Hn))).
  rewrite forallb_forall in Hall.
  apply (bool_decide_eq_true_1 _), Hall, list_elem_of_In, elem_of_app. exact Hy.
Qed.

Lemma heap_okb_ok h : heap_closedb h && heap_symb h = true -> heap_ok h.
Proof.
  intros Hb. apply andb_true_iff in Hb as [Hc Hs].
  apply heap_closedb_ok in Hc. split; [exact Hc |].
  pose proof Hc as Hc'. rewrite heap_closed_of in Hc'.
  assert (Hout : forall z, List.length h <= z -> succ_of h z = [] /\ pred_of h z = []).
  { intros z Hz. unfold succ_of, pred_of. rewrite lookup_ge_None_2 by exact Hz. auto. }
  assert (Hzero : forall (v : list nat) z, (forall y, y ∈ v -> y < List.length h) ->
                    List.length h <= z -> count_occ Nat.eq_dec v z = 0).
  { intros v z Hv Hz. apply count_occ_not_In. intros Hin.
    apply list_elem_of_In, Hv in Hin. lia. }
  intros x y.
  destruct (decide (x < List.length h)) as [Hx | Hx];
    destruct (decide (y < List.length h)) as [Hy | Hy].
  - unfold heap_symb in Hs. rewrite forallb_forall in Hs.
    specialize (Hs x). rewrite forallb_forall in Hs.
    apply Nat.eqb_eq, Hs; apply in_seq; lia.
  - destruct (Hout y) as [_ ->]; [lia |]. simpl.
    apply Hzero; [| lia]. intros z Hz. apply (Hc' x). auto.
  - destruct (Hout x) as [-> _]; [lia |]. simpl. symmetry.
    apply Hzero; [| lia]. intros z Hz. apply (Hc' y). auto.
  - destruct (Hout x) as [-> _]; [lia |]. destruct (Hout y) as [_ ->]; [lia |].
    reflexivity.
Qed.

(** The statement graph of [DFS.while_cfg] from block 0: node 1 is the
    loop head, node 2 the exit, node 3 the loop body. *)
Definition while_graph : heap :=
  [ mkNode [] [1] (PBlock 0 0 0 false false);
    mkNode [3; 0] [2; 3] (PBlock 1 0 0 false false);
    mkNode [1] [] (PBlock 3 0 0 false false);
    mkNode [1] [1] (PBlock 2 0 0 false false) ].

Lemma to_statements_while_cfg :
  to_statements DFS.while_cfg 0 [] = Done (0, while_graph).
Proof. reflexivity. Qed.

(** *** The theorems at the running example *)

Lemma depth_first_contract_witness :
  DFS.traversal_contract
    (fun St' v s => DFS.depth_first_cfg DFS.while_cfg 0 true v s)
    0 (fun n (s : nat) => (negb (n =? 3), s + n)) 0
  /\ DFS.traversal_contract
       (fun St' v s => DFS.depth_first_xref DFS.tag_call_graph DFS.while_cfg 1 false v s)
       1 (fun n (s : nat) => (true, s + n)) 0
  /\ DFS.traversal_contract
       (fun St' v s => depth_first while_graph 0 true v s)
       0 (fun n (s : nat) => (true, s + n)) 0.
Proof.
  destruct depth_first_contract as (Hcfg & Hxref & Hstmt & _).
  split; [| split].
  - apply Hcfg; [apply DFS.cfg_closedb_ok; reflexivity | simpl; lia].
  - apply Hxref; [apply DFS.xref_closedb_ok; reflexivity | simpl; lia].
  - apply Hstmt; [apply heap_closedb_ok; reflexivity | simpl; lia].
Defined.

Lemma to_statements_one_node_per_block_witness :
  exists entry_node h',
    to_statements DFS.while_cfg 0 [] = Done (entry_node, h')
    /\ node_block h' entry_node = Some 0.
Proof.
  destruct (to_statements_one_node_per_block DFS.while_cfg 0 [])
    as (entry_node & h' & Hrun & _ & Hentry & _).
  - apply DFS.cfg_closedb_ok. reflexivity.
  - simpl. lia.
  - exists entry_node, h'. split; [exact Hrun | exact Hentry].
Defined.

Lemma to_statements_mirrors_cfg_witness :
  exists entry_node h' (node_of : gmap BlockId NodeId),
    to_statements DFS.while_cfg 0 [] = Done (entry_node, h')
    /\ node_of !! 0 = Some entry_node
    /\ heap_ok h'.
Proof.
  destruct (to_statements_mirrors_cfg DFS.while_cfg 0)
    as (entry_node & h' & node_of & Hrun & Hentry & _ & _ & _ & Hok & _).
  - apply DFS.cfg_closedb_ok. reflexivity.
  - simpl. lia.
  - exists entry_node, h', node_of. auto.
Defined.

(** C1, as stated, fails on the running example: block 2 jumps back to the
    loop head 1, and the node of block 2 has the node of block 1 in its
    [succ] vector, which closes a cycle of owning edges. *)
Lemma to_statements_back_edge_is_succ_edge :
  DFS.cfg_closed DFS.while_cfg
  /\ to_statements DFS.while_cfg 0 [] = Done (0, while_graph)
  /\ 1 ∈ Blocks.succ_of DFS.while_cfg 2
  /\ node_block while_graph 3 = Some 2
  /\ node_block while_graph 1 = Some 1
  /\ 1 ∈ succ_of while_graph 3
  /\ ~ succ_dag while_graph.
Proof.
  split; [apply DFS.cfg_closedb_ok; reflexivity |].
  split; [reflexivity |].
  split; [left |]. split; [reflexivity |]. split; [reflexivity |].
  split; [left |].
  intros Hdag. apply (Hdag 1).
  apply tc_l with (y := 3).
  - unfold succ_edge. simpl. right. left.
  - apply tc_once. unfold succ_edge. simpl. left.
Qed.



Lemma setup_break_node_contracts_witness :
  setup (while_graph ++ [StatementWhile_new]) 4 0 3 = ExpectsFailed
  /\ expects_hold (setup (while_graph ++ [StatementWhile_new]) 4 1 3).
Proof.
  destruct (setup_break_node_contracts (while_graph ++ [StatementWhile_new])
              4 0 3 None None) as (Hrej & _).
  - reflexivity.
  - simpl. lia.
  - destruct (setup_break_node_contracts (while_graph ++ [StatementWhile_new])
                4 1 3 None None) as (_ & Hacc & _).
    + reflexivity.
    + simpl. lia.
    + split; [apply Hrej; simpl; lia | apply Hacc; reflexivity].
Defined.




(** [structure_dowhile] on the running example, for the loop of head block
    1 and tail block 2: the entry (node 0) is not the head and stays. *)
Example structure_dowhile_while_graph :
  structure_dowhile while_graph 0 [mkLoop 1 2 []]
  = Done ([ mkNode [] [4] (PBlock 0 0 0 false false);
            mkNode [3] [5; 3] (PBlock 1 0 0 false false);
            mkNode [4] [] (PBlock 3 0 0 false false);
            mkNode [1] [1] (PBlock 2 0 1 false false);
            mkNode [0] [2] (PWhile (Some 1) (Some 3));
            mkNode [1] [] PBreak ], 0).
Proof. reflexivity. Qed.

(** A single-block loop at the entry: the entry becomes the while node;
    the second loop names a block without a node and is skipped. *)
Example structure_dowhile_entry_loop :
  structure_dowhile
    [ mkNode [0] [1; 0] (PBlock 0 0 0 false false);
      mkNode [0] [] (PBlock 1 0 0 false false) ] 0
    [mkLoop 0 0 []; mkLoop 5 5 []]
  = Done ([ mkNode [0] [3; 0] (PBlock 0 0 1 false false);
            mkNode [2] [] (PBlock 1 0 0 false false);
            mkNode [] [1] (PWhile (Some 0) (Some 0));
            mkNode [0] [] PBreak ], 2).
Proof. reflexivity. Qed.

End Stmt.


(* ===================================================================== *)
(** ** Fetching little-endian values from bytecode *)
(* ===================================================================== *)

Module Fetcher.

Local Open Scope Z_scope.

(** The value of a byte, as a [uint8_t]. *)
Definition byte_val (c : ascii) : Z := Z.of_N (N_of_ascii c).

(** [BinaryFetcher]: [bytecode] points to a buffer, modelled by the bytes
    it holds, and [size] is the number of bytes the fetcher may read.
    Reading [bytecode[i]] past the buffer is undefined behaviour. *)
Record BinaryFetcher : Type := mkFetcher {
  bytecode : list ascii;
  size     : Z            (* size_t *)
}.

(** [size_t] arithmetic wraps at [2 ^ size_bits]; the width depends on the
    target and is left open. *)
Section SizeT.
Variable size_bits : Z.

Definition size_wrap (x : Z) : Z := x mod 2 ^ size_bits.

(** [this->bytecode[i]], [i] computed as a [size_t]. *)
Definition byte_at (bf : BinaryFetcher) (i : Z) : Res Z :=
  match bytecode bf !! Z.to_nat (size_wrap i) with
  | Some c => Done (byte_val c)
  | None => Undefined
  end.

(** [fetch_u8] *)
Definition fetch_u8 (bf : BinaryFetcher) (offset : Z) : Res (option Z) :=
  if size_wrap (offset + 1) <=? size bf then
    do b <- byte_at bf offset; Done (Some b)
  else Done None.

(** [fetch_u16]: the operands of [|] are promoted to [int]; the result is
    narrowed to [uint16_t]. *)
Definition fetch_u16 (bf : BinaryFetcher) (offset : Z) : Res (option Z) :=
  if size_wrap (offset + 2) <=? size bf then
    do b0 <- byte_at bf (offset + 0);
    do b1 <- byte_at bf (offset + 1);
    Done (Some (Z.lor (Z.shiftl b0 0) (Z.shiftl b1 8) mod 2 ^ 16))
  else Done None.

(** [fetch_u32]: shifts and [|] on [uint32_t]. *)
Definition fetch_u32 (bf : BinaryFetcher) (offset : Z) : Res (option Z) :=
  if size_wrap (offset + 4) <=? size bf then
    do b0 <- byte_at bf (offset + 0);
    do b1 <- byte_at bf (offset + 1);
    do b2 <- byte_at bf (offset + 2);
    do b3 <- byte_at bf (offset + 3);
    Done (Some (Z.lor (Z.lor (Z.lor (Z.shiftl b0 0 mod 2 ^ 32)
                                    (Z.shiftl b1 8 mod 2 ^ 32))
                             (Z.shiftl b2 16 mod 2 ^ 32))
                      (Z.shiftl b3 24 mod 2 ^ 32)))
  else Done None.

(** [reinterpret_cast] of a [w]-bit unsigned value to the signed type of
    the same width (two's complement). *)
Definition to_signed (w : Z) (u : Z) : Z :=
  if u <? 2 ^ (w - 1) then u else u - 2 ^ w.

(** [fetch_i8], [fetch_i16], [fetch_i32] *)
Definition fetch_i8 (bf : BinaryFetcher) (offset : Z) : Res (option Z) :=
  do opt <- fetch_u8 bf offset;
  match opt with
  | Some u => Done (Some (to_signed 8 u))
  | None => Done None
  end.

Definition fetch_i16 (bf : BinaryFetcher) (offset : Z) : Res (option Z) :=
  do opt <- fetch_u16 bf offset;
  match opt with
  | Some u => Done (Some (to_signed 16 u))
  | None => Done None
  end.

Definition fetch_i32 (bf : BinaryFetcher) (offset : Z) : Res (option Z) :=
  do opt <- fetch_u32 bf offset;
  match opt with
  | Some u => Done (Some (to_signed 32 u))
  | None => Done None
  end.




(** *** Facts *)

(** The fetcher may read [size] bytes and the buffer holds them. *)
Definition fetcher_ok (bf : BinaryFetcher) : Prop :=
  0 <= size bf <= Z.of_nat (List.length (bytecode bf)).

(** The byte at position [offset + k] of the buffer. *)
Definition byte_of (bf : BinaryFetcher) (offset : Z) (k : nat) : Z :=
  byte_val (nth (Z.to_nat offset + k) (bytecode bf) Ascii.zero).

Lemma byte_val_range c : 0 <= byte_val c < 256.
Proof.
  unfold byte_val. pose proof (N_ascii_bounded c). lia.
Qed.

Lemma lor_shiftl_add a b n :
  0 <= n -> 0 <= a < 2 ^ n -> 0 <= b ->
  Z.lor a (Z.shiftl b n) = a + b * 2 ^ n.
Proof.
  intros Hn Ha Hb.
  assert (Hland : Z.land a (Z.shiftl b n) = 0).
  { apply Z.bits_inj'. intros i Hi. rewrite Z.land_spec, Z.bits_0.
    destruct (Z.lt_ge_cases i n) as [Hlt | Hge].
    - rewrite Z.shiftl_spec_low by exact Hlt. apply andb_false_r.
    - rewrite <- (Z.mod_small a (2 ^ n)) by exact Ha.
      rewrite Z.mod_pow2_bits_high by lia. reflexivity. }
  rewrite <- Z.lxor_lor by exact Hland.
  rewrite <- Z.add_nocarry_lxor by exact Hland.
  rewrite Z.shiftl_mul_pow2 by exact Hn. reflexivity.
Qed.

Lemma size_wrap_small x : 0 <= x < 2 ^ size_bits -> size_wrap x = x.
Proof. intros Hx. unfold size_wrap. apply Z.mod_small, Hx. Qed.

Lemma byte_at_ok bf offset (k : Z) :
  fetcher_ok bf -> 0 <= offset -> 0 <= k ->
  offset + k < size bf -> offset + k < 2 ^ size_bits ->
  byte_at bf (offset + k) = Done (byte_of bf offset (Z.to_nat k)).
Proof.
  intros [_ Hok] Ho Hk Hsz Hw. unfold byte_at, byte_of.
  rewrite size_wrap_small by lia.
  replace (Z.to_nat (offset + k)) with (Z.to_nat offset + Z.to_nat k)%nat by lia.
  destruct (bytecode bf !! (Z.to_nat offset + Z.to_nat k)%nat) as [c |] eqn:Hc.
  - rewrite (nth_lookup_Some _ _ _ _ Hc). reflexivity.
  - apply lookup_ge_None_1 in Hc. lia.
Qed.

Section Unsigned.
Variable bf : BinaryFetcher.
Variable offset : Z.
Hypothesis Hok : fetcher_ok bf.
Hypothesis Ho : 0 <= offset.

Let b := byte_of bf offset.

Lemma fetch_u8_eq :
  offset + 1 < 2 ^ size_bits ->
  fetch_u8 bf offset
  = (if offset + 1 <=? size bf then Done (Some (b 0%nat)) else Done None).
Proof.
  intros Hw. unfold fetch_u8. rewrite size_wrap_small by lia.
  destruct (Z.leb_spec (offset + 1) (size bf)) as [Hle | Hgt]; [| reflexivity].
  pose proof (byte_at_ok bf offset 0 Hok Ho ltac:(lia) ltac:(lia) ltac:(lia)) as H0.
  rewrite Z.add_0_r in H0. rewrite H0. reflexivity.
Qed.

Lemma fetch_u16_eq :
  offset + 2 < 2 ^ size_bits ->
  fetch_u16 bf offset
  = (if offset + 2 <=? size bf
     then Done (Some (b 0%nat + 2 ^ 8 * b 1%nat)) else Done None).
Proof.
  intros Hw. unfold fetch_u16. rewrite size_wrap_small by lia.
  destruct (Z.leb_spec (offset + 2) (size bf)) as [Hle | Hgt]; [| reflexivity].
  rewrite (byte_at_ok bf offset 0), (byte_at_ok bf offset 1) by (assumption || lia).
  simpl Res_bind. fold b.
  pose proof (byte_val_range (nth (Z.to_nat offset + 0) (bytecode bf) Ascii.zero)) as H0.
  pose proof (byte_val_range (nth (Z.to_nat offset + 1) (bytecode bf) Ascii.zero)) as H1.
  change (0 <= b 0%nat < 256) in H0. change (0 <= b 1%nat < 256) in H1.
  change (Z.to_nat 0) with 0%nat. change (Z.to_nat 1) with 1%nat.
  rewrite Z.shiftl_0_r, lor_shiftl_add by lia.
  rewrite Z.mod_small by lia. do 2 f_equal. lia.
Qed.

Lemma fetch_u32_eq :
  offset + 4 < 2 ^ size_bits ->
  fetch_u32 bf offset
  = (if offset + 4 <=? size bf
     then Done (Some (b 0%nat + 2 ^ 8 * b 1%nat + 2 ^ 16 * b 2%nat
                      + 2 ^ 24 * b 3%nat))
     else Done None).
Proof.
  intros Hw. unfold fetch_u32. rewrite size_wrap_small by lia.
  destruct (Z.leb_spec (offset + 4) (size bf)) as [Hle | Hgt]; [| reflexivity].
  rewrite (byte_at_ok bf offset 0), (byte_at_ok bf offset 1),
    (byte_at_ok bf offset 2), (byte_at_ok bf offset 3) by (assumption || lia).
  simpl Res_bind. fold b.
  pose proof (byte_val_range (nth (Z.to_nat offset + 0) (bytecode bf) Ascii.zero)) as H0.
  pose proof (byte_val_range (nth (Z.to_nat offset + 1) (bytecode bf) Ascii.zero)) as H1.
  pose proof (byte_val_range (nth (Z.to_nat offset + 2) (bytecode bf) Ascii.zero)) as H2.
  pose proof (byte_val_range (nth (Z.to_nat offset + 3) (bytecode bf) Ascii.zero)) as H3.
  change (0 <= b 0%nat < 256) in H0. change (0 <= b 1%nat < 256) in H1.
  change (0 <= b 2%nat < 256) in H2. change (0 <= b 3%nat < 256) in H3.
  change (Z.to_nat 0) with 0%nat. change (Z.to_nat 1) with 1%nat.
  change (Z.to_nat 2) with 2%nat. change (Z.to_nat 3) with 3%nat.
  rewrite Z.shiftl_0_r, !Z.shiftl_mul_pow2 by lia.
  rewrite !Z.mod_small by lia.
  rewrite <- !Z.shiftl_mul_pow2 by lia.
  rewrite (lor_shiftl_add (b 0%nat) (b 1%nat) 8) by lia.
  rewrite (lor_shiftl_add _ (b 2%nat) 16) by lia.
  rewrite (lor_shiftl_add _ (b 3%nat) 24) by lia.
  do 2 f_equal. lia.
Qed.

End Unsigned.

Lemma byte_of_shift bf offset (d : Z) (k : nat) :
  0 <= offset -> 0 <= d ->
  byte_of bf (offset + d) k = byte_of bf offset (Z.to_nat d + k).
Proof.
  intros Ho Hd. unfold byte_of. do 2 f_equal. lia.
Qed.

(** X1: bounds and byte order of the unsigned fetchers.  For a fetcher
    whose buffer holds [size] bytes and an offset whose additions do not
    wrap, [fetch_u8], [fetch_u16] and [fetch_u32] return nothing when the
    value would end past [size], and otherwise the little-endian value of
    the 1, 2 or 4 bytes at [offset], which fits the result type. *)
Theorem fetch_unsigned_little_endian (bf : BinaryFetcher) (offset : Z) :
  fetcher_ok bf ->
  0 <= offset -> offset + 4 < 2 ^ size_bits ->
  let b := byte_of bf offset in
  fetch_u8 bf offset
    = (if offset + 1 <=? size bf then Done (Some (b 0%nat)) else Done None)
  /\ fetch_u16 bf offset
     = (if offset + 2 <=? size bf
        then Done (Some (b 0%nat + 2 ^ 8 * b 1%nat)) else Done None)
  /\ fetch_u32 bf offset
     = (if offset + 4 <=? size bf
        then Done (Some (b 0%nat + 2 ^ 8 * b 1%nat + 2 ^ 16 * b 2%nat
                         + 2 ^ 24 * b 3%nat))
        else Done None)
  /\ 0 <= b 0%nat < 2 ^ 8
  /\ 0 <= b 0%nat + 2 ^ 8 * b 1%nat < 2 ^ 16
  /\ 0 <= b 0%nat + 2 ^ 8 * b 1%nat + 2 ^ 16 * b 2%nat + 2 ^ 24 * b 3%nat < 2 ^ 32.
Proof.
  intros Hok Ho Hw b.
  assert (Hb : forall k, 0 <= b k < 256) by (intros k; apply byte_val_range).
  pose proof (Hb 0%nat) as H0. pose proof (Hb 1%nat) as H1.
  pose proof (Hb 2%nat) as H2. pose proof (Hb 3%nat) as H3.
  split; [| split; [| split; [| split; [| split]]]]; try lia.
  - apply fetch_u8_eq; [assumption | assumption | lia].
  - apply fetch_u16_eq; [assumption | assumption | lia].
  - apply fetch_u32_eq; [assumption | assumption | lia].
Qed.

(** X2: a 32-bit fetch is made of two 16-bit fetches.  When four bytes
    can be read at [offset], [fetch_u16] succeeds at [offset] and at
    [offset + 2], and [fetch_u32] at [offset] returns the first value plus
    [2 ^ 16] times the second (the low half comes first). *)
Theorem fetch_u32_of_fetch_u16 (bf : BinaryFetcher) (offset : Z) :
  fetcher_ok bf ->
  0 <= offset -> offset + 4 < 2 ^ size_bits -> offset + 4 <= size bf ->
  exists lo hi,
    fetch_u16 bf offset = Done (Some lo)
    /\ fetch_u16 bf (offset + 2) = Done (Some hi)
    /\ fetch_u32 bf offset = Done (Some (lo + 2 ^ 16 * hi))
    /\ 0 <= lo < 2 ^ 16 /\ 0 <= hi < 2 ^ 16.
Proof.
  intros Hok Ho Hw Hsz.
  pose proof (byte_val_range (nth (Z.to_nat offset + 0) (bytecode bf) Ascii.zero)) as H0.
  pose proof (byte_val_range (nth (Z.to_nat offset + 1) (bytecode bf) Ascii.zero)) as H1.
  pose proof (byte_val_range (nth (Z.to_nat offset + 2) (bytecode bf) Ascii.zero)) as H2.
  pose proof (byte_val_range (nth (Z.to_nat offset + 3) (bytecode bf) Ascii.zero)) as H3.
  fold (byte_of bf offset 0) in H0. fold (byte_of bf offset 1) in H1.
  fold (byte_of bf offset 2) in H2. fold (byte_of bf offset 3) in H3.
  exists (byte_of bf offset 0 + 2 ^ 8 * byte_of bf offset 1),
         (byte_of bf offset 2 + 2 ^ 8 * byte_of bf offset 3).
  split; [| split; [| split; [| split]]]; try lia.
  - rewrite fetch_u16_eq by (assumption || lia).
    destruct (Z.leb_spec (offset + 2) (size bf)); [reflexivity | lia].
  - rewrite fetch_u16_eq by (assumption || lia).
    rewrite !byte_of_shift by lia.
    destruct (Z.leb_spec (offset + 2 + 2) (size bf)); [reflexivity | lia].
  - rewrite fetch_u32_eq by (assumption || lia).
    destruct (Z.leb_spec (offset + 4) (size bf)); [| lia].
    do 2 f_equal. lia.
Qed.

(** The signed result [ri] is the two's-complement reading on [w] bits of
    the unsigned result [ru]: both are nothing, or both are values, the
    signed one in the range of the type, congruent to the unsigned one
    modulo [2 ^ w], and equal to it when the sign bit is clear. *)
Definition twos_complement_of (w : Z) (ri ru : Res (option Z)) : Prop :=
  match ri, ru with
  | Done (Some v), Done (Some u) =>
      - 2 ^ (w - 1) <= v < 2 ^ (w - 1)
      /\ v mod 2 ^ w = u
      /\ (u < 2 ^ (w - 1) -> v = u)
      /\ (2 ^ (w - 1) <= u -> v = u - 2 ^ w)
  | Done None, Done None => True
  | _, _ => False
  end.

Lemma to_signed_spec w u :
  0 < w -> 0 <= u < 2 ^ w ->
  - 2 ^ (w - 1) <= to_signed w u < 2 ^ (w - 1)
  /\ to_signed w u mod 2 ^ w = u
  /\ (u < 2 ^ (w - 1) -> to_signed w u = u)
  /\ (2 ^ (w - 1) <= u -> to_signed w u = u - 2 ^ w).
Proof.
  intros Hw Hu. unfold to_signed.
  assert (Hp : 2 ^ w = 2 * 2 ^ (w - 1)).
  { rewrite <- Z.pow_succ_r by lia. f_equal. lia. }
  destruct (Z.ltb_spec u (2 ^ (w - 1))) as [Hlt | Hge].
  - split; [lia |]. split; [apply Z.mod_small; lia |]. split; [reflexivity | lia].
  - split; [lia |]. split; [| split; [lia | reflexivity]].
    replace (u - 2 ^ w) with (u + (-1) * 2 ^ w) by lia.
    rewrite Z.mod_add by lia. apply Z.mod_small. lia.
Qed.

(** X3: the signed fetchers read two's complement.  [fetch_i8],
    [fetch_i16] and [fetch_i32] return nothing exactly when the unsigned
    fetcher of the same width does, and otherwise the value of the signed
    type with the same bit pattern. *)
Theorem fetch_signed_twos_complement (bf : BinaryFetcher) (offset : Z) :
  fetcher_ok bf ->
  0 <= offset -> offset + 4 < 2 ^ size_bits ->
  twos_complement_of 8 (fetch_i8 bf offset) (fetch_u8 bf offset)
  /\ twos_complement_of 16 (fetch_i16 bf offset) (fetch_u16 bf offset)
  /\ twos_complement_of 32 (fetch_i32 bf offset) (fetch_u32 bf offset).
Proof.
  intros Hok Ho Hw.
  pose proof (byte_val_range (nth (Z.to_nat offset + 0) (bytecode bf) Ascii.zero)) as H0.
  pose proof (byte_val_range (nth (Z.to_nat offset + 1) (bytecode bf) Ascii.zero)) as H1.
  pose proof (byte_val_range (nth (Z.to_nat offset + 2) (bytecode bf) Ascii.zero)) as H2.
  pose proof (byte_val_range (nth (Z.to_nat offset + 3) (bytecode bf) Ascii.zero)) as H3.
  fold (byte_of bf offset 0) in H0. fold (byte_of bf offset 1) in H1.
  fold (byte_of bf offset 2) in H2. fold (byte_of bf offset 3) in H3.
  split; [| split].
  - unfold fetch_i8. rewrite fetch_u8_eq by (assumption || lia).
    destruct (offset + 1 <=? size bf); simpl; [| exact I].
    apply to_signed_spec; lia.
  - unfold fetch_i16. rewrite fetch_u16_eq by (assumption || lia).
    destruct (offset + 2 <=? size bf); simpl; [| exact I].
    apply to_signed_spec; lia.
  - unfold fetch_i32. rewrite fetch_u32_eq by (assumption || lia).
    destruct (offset + 4 <=? size bf); simpl; [| exact I].
    apply to_signed_spec; lia.
Qed.

(** X4: the bounds check of the fetchers is made after the [size_t]
    addition has wrapped.  At the offset whose addition gives exactly
    [2 ^ size_bits] the sum is zero, so [fetch_u8], [fetch_u16] and
    [fetch_u32] pass their check for every fetcher and read
    [bytecode[offset]], which lies past any buffer that ends below that
    offset. *)
Theorem fetch_wrapped_check (bf : BinaryFetcher) :
  2 <= size_bits -> fetcher_ok bf ->
  Z.of_nat (List.length (bytecode bf)) <= 2 ^ size_bits - 4 ->
  fetch_u8 bf (2 ^ size_bits - 1) = Undefined
  /\ fetch_u16 bf (2 ^ size_bits - 2) = Undefined
  /\ fetch_u32 bf (2 ^ size_bits - 4) = Undefined.
Proof.
  intros Hbits [Hs _] Hlen.
  assert (Hp : 4 <= 2 ^ size_bits).
  { change 4 with (2 ^ 2). apply Z.pow_le_mono_r; lia. }
  assert (Hwrap : forall n, 0 < n <= 4 -> size_wrap (2 ^ size_bits - n + n) = 0).
  { intros n Hn. replace (2 ^ size_bits - n + n) with (2 ^ size_bits) by lia.
    unfold size_wrap. apply Z.mod_same. lia. }
  assert (Hread : forall i, 2 ^ size_bits - 4 <= i < 2 ^ size_bits ->
                            byte_at bf i = Undefined).
  { intros i Hi. unfold byte_at. rewrite size_wrap_small by lia.
    rewrite (lookup_ge_None_2 (bytecode bf)) by lia. reflexivity. }
  split; [| split].
  - unfold fetch_u8. rewrite Hwrap by lia.
    destruct (Z.leb_spec 0 (size bf)) as [_ | Hneg]; [| lia].
    rewrite Hread by lia. reflexivity.
  - unfold fetch_u16. rewrite Hwrap by lia.
    destruct (Z.leb_spec 0 (size bf)) as [_ | Hneg]; [| lia].
    rewrite Hread by lia. reflexivity.
  - unfold fetch_u32. rewrite Hwrap by lia.
    destruct (Z.leb_spec 0 (size bf)) as [_ | Hneg]; [| lia].
    rewrite Hread by lia. reflexivity.
Qed.










End SizeT.

(** A fetcher over eight bytes, for the examples below. *)
Definition demo : BinaryFetcher :=
  mkFetcher (List.map ascii_of_nat [120; 86; 52; 146; 65; 66; 0; 67]%nat) 8.


Lemma fetch_unsigned_little_endian_witness :
  fetcher_ok demo /\ 0 <= 0 /\ 0 + 4 < 2 ^ 64
  /\ fetch_u32 64 demo 0 = Done (Some 2452903544).
Proof.
  split; [unfold fetcher_ok; simpl; lia |]. split; [lia |]. split; [reflexivity |].
  destruct (fetch_unsigned_little_endian 64 demo 0) as (_ & _ & H & _);
    [unfold fetcher_ok; simpl; lia | lia | reflexivity |].
  exact H.
Defined.

Lemma fetch_u32_of_fetch_u16_witness :
  fetcher_ok demo /\ 0 + 4 <= size demo
  /\ exists lo hi,
       fetch_u16 64 demo 0 = Done (Some lo)
       /\ fetch_u16 64 demo (0 + 2) = Done (Some hi)
       /\ fetch_u32 64 demo 0 = Done (Some (lo + 2 ^ 16 * hi))
       /\ 0 <= lo < 2 ^ 16 /\ 0 <= hi < 2 ^ 16.
Proof.
  split; [unfold fetcher_ok; simpl; lia |]. split; [simpl; lia |].
  apply (fetch_u32_of_fetch_u16 64 demo 0);
    [unfold fetcher_ok; simpl; lia | lia | reflexivity | simpl; lia].
Defined.

Lemma fetch_signed_twos_complement_witness :
  fetcher_ok demo
  /\ twos_complement_of 8 (fetch_i8 64 demo 3) (fetch_u8 64 demo 3)
  /\ twos_complement_of 16 (fetch_i16 64 demo 3) (fetch_u16 64 demo 3)
  /\ twos_complement_of 32 (fetch_i32 64 demo 3) (fetch_u32 64 demo 3).
Proof.
  split; [unfold fetcher_ok; simpl; lia |].
  apply (fetch_signed_twos_complement 64 demo 3);
    [unfold fetcher_ok; simpl; lia | lia | reflexivity].
Defined.

Lemma fetch_wrapped_check_witness :
  2 <= 64 /\ fetcher_ok demo
  /\ fetch_u8 64 demo (2 ^ 64 - 1) = Undefined
  /\ fetch_u16 64 demo (2 ^ 64 - 2) = Undefined
  /\ fetch_u32 64 demo (2 ^ 64 - 4) = Undefined.
Proof.
  split; [lia |]. split; [unfold fetcher_ok; simpl; lia |].
  apply (fetch_wrapped_check 64 demo);
    [lia | unfold fetcher_ok; simpl; lia | vm_compute; discriminate].
Defined.


End Fetcher.

(* ===================================================================== *)
(** ** Immediate 32-bit values of decompiled arguments *)
(* ===================================================================== *)

Module Imm.

Import Disasm.
Local Open Scope Z_scope.

(** The overloads of [get_imm32], one per alternative.  An integer is
    converted to [int32_t] by [static_cast], which keeps its value; a
    [float] is read through a reference to [int32_t], which gives the
    signed value of its 32-bit pattern. *)
Definition get_imm32_EOAL : option Z := None.
Definition get_imm32_Var (_ : DecompiledVar) : option Z := None.
Definition get_imm32_VarArray (_ : DecompiledVarArray) : option Z := None.
Definition get_imm32_String (_ : DecompiledString) : option Z := None.
Definition get_imm32_int8 (i8 : Z) : option Z := Some i8.
Definition get_imm32_int16 (i16 : Z) : option Z := Some i16.
Definition get_imm32_int32 (i32 : Z) : option Z := Some i32.
Definition get_imm32_float (flt : Z) : option Z :=
  Some (Fetcher.to_signed 32 (flt mod 2 ^ 32)).

(** [get_imm32(const ArgVariant2&)] *)
Definition get_imm32 (varg : ArgVariant2) : option Z :=
  match varg with
  | ArgEOAL => get_imm32_EOAL
  | ArgInt8 i => get_imm32_int8 i
  | ArgInt16 i => get_imm32_int16 i
  | ArgInt32 i => get_imm32_int32 i
  | ArgFloat f => get_imm32_float f
  | ArgVar v => get_imm32_Var v
  | ArgVarArray a => get_imm32_VarArray a
  | ArgString s => get_imm32_String s
  end.

(** The overloads of the x86 code generator take the generator as a
    second argument, which none of them uses.  [CodeGeneratorIA32] is
    declared outside the translated sources; any type stands for it. *)
Section Codegen.
Context {CodeGeneratorIA32 : Type}.

Definition codegen_get_imm32_EOAL (codegen : CodeGeneratorIA32) : option Z := None.
Definition codegen_get_imm32_Var (_ : DecompiledVar) (codegen : CodeGeneratorIA32)
  : option Z := None.
Definition codegen_get_imm32_VarArray (_ : DecompiledVarArray)
  (codegen : CodeGeneratorIA32) : option Z := None.
Definition codegen_get_imm32_String (_ : DecompiledString)
  (codegen : CodeGeneratorIA32) : option Z := None.
Definition codegen_get_imm32_int8 (i8 : Z) (codegen : CodeGeneratorIA32)
  : option Z := Some i8.
Definition codegen_get_imm32_int16 (i16 : Z) (codegen : CodeGeneratorIA32)
  : option Z := Some i16.
Definition codegen_get_imm32_int32 (i32 : Z) (codegen : CodeGeneratorIA32)
  : option Z := Some i32.
Definition codegen_get_imm32_float (flt : Z) (codegen : CodeGeneratorIA32)
  : option Z := Some (Fetcher.to_signed 32 (flt mod 2 ^ 32)).

Definition codegen_get_imm32 (varg : ArgVariant2) (codegen : CodeGeneratorIA32)
  : option Z :=
  match varg with
  | ArgEOAL => codegen_get_imm32_EOAL codegen
  | ArgInt8 i => codegen_get_imm32_int8 i codegen
  | ArgInt16 i => codegen_get_imm32_int16 i codegen
  | ArgInt32 i => codegen_get_imm32_int32 i codegen
  | ArgFloat f => codegen_get_imm32_float f codegen
  | ArgVar v => codegen_get_imm32_Var v codegen
  | ArgVarArray a => codegen_get_imm32_VarArray a codegen
  | ArgString s => codegen_get_imm32_String s codegen
  end.

End Codegen.

(** The value held fits the type of its alternative. *)
Definition well_typed (varg : ArgVariant2) : Prop :=
  match varg with
  | ArgInt8 i => - 2 ^ 7 <= i < 2 ^ 7
  | ArgInt16 i => - 2 ^ 15 <= i < 2 ^ 15
  | ArgInt32 i => - 2 ^ 31 <= i < 2 ^ 31
  | _ => True
  end.

(** X6: the immediate of an argument.  [get_imm32] yields a value exactly
    for the three integer alternatives and the float, [get_immstr] exactly
    for a string, so no argument has both and EOAL, variables and variable
    arrays have neither.  The integer comes back unchanged, the float as
    the signed reading of its bit pattern; the result is always in the
    range of [int32_t]; and the overloads of the x86 code generator return
    the same value whatever the generator. *)
Theorem get_imm32_spec {CodeGeneratorIA32 : Type}
    (varg : ArgVariant2) (codegen : CodeGeneratorIA32) :
  well_typed varg ->
  (get_imm32 varg = None \/ get_immstr varg = None)
  /\ match varg with
     | ArgInt8 i | ArgInt16 i | ArgInt32 i => get_imm32 varg = Some i
     | ArgFloat f =>
         exists v, get_imm32 varg = Some v /\ v mod 2 ^ 32 = f mod 2 ^ 32
     | ArgEOAL | ArgVar _ | ArgVarArray _ =>
         get_imm32 varg = None /\ get_immstr varg = None
     | ArgString _ => get_imm32 varg = None /\ is_Some (get_immstr varg)
     end
  /\ (forall v, get_imm32 varg = Some v -> - 2 ^ 31 <= v < 2 ^ 31)
  /\ codegen_get_imm32 varg codegen = get_imm32 varg.
Proof.
  intros Hty.
  assert (Hf : forall f, - 2 ^ 31 <= Fetcher.to_signed 32 (f mod 2 ^ 32) < 2 ^ 31
                         /\ Fetcher.to_signed 32 (f mod 2 ^ 32) mod 2 ^ 32 = f mod 2 ^ 32).
  { intros f. pose proof (Z.mod_pos_bound f (2 ^ 32) ltac:(lia)) as Hm.
    destruct (Fetcher.to_signed_spec 32 (f mod 2 ^ 32) ltac:(lia) Hm) as (H1 & H2 & _).
    split; [exact H1 | exact H2]. }
  destruct varg as [| i | i | i | f | v | a | s]; simpl in Hty |- *.
  - split; [left; reflexivity |]. split; [split; reflexivity |].
    split; [discriminate | reflexivity].
  - split; [right; reflexivity |]. split; [reflexivity |].
    split; [| reflexivity]. intros v [= <-]. lia.
  - split; [right; reflexivity |]. split; [reflexivity |].
    split; [| reflexivity]. intros v [= <-]. lia.
  - split; [right; reflexivity |]. split; [reflexivity |].
    split; [| reflexivity]. intros v [= <-]. lia.
  - split; [right; reflexivity |].
    split; [eexists; split; [reflexivity | apply Hf] |].
    split; [| reflexivity]. intros v [= <-]. apply Hf.
  - split; [left; reflexivity |]. split; [split; reflexivity |].
    split; [discriminate | reflexivity].
  - split; [left; reflexivity |]. split; [split; reflexivity |].
    split; [discriminate | reflexivity].
  - split; [left; reflexivity |]. split; [split; [reflexivity | eexists; reflexivity] |].
    split; [discriminate | reflexivity].
Qed.

Lemma get_imm32_spec_witness :
  well_typed (ArgInt8 (-3))
  /\ get_imm32 (ArgInt8 (-3)) = Some (-3)
  /\ codegen_get_imm32 (ArgInt8 (-3)) tt = Some (-3).
Proof.
  assert (Hty : well_typed (ArgInt8 (-3))) by (simpl; lia).
  split; [exact Hty |].
  destruct (get_imm32_spec (ArgInt8 (-3)) tt Hty) as (_ & H1 & _ & H2).
  split; [exact H1 | rewrite H2; exact H1].
Defined.

End Imm.

(* ===================================================================== *)
(** ** Procedure types *)
(* ===================================================================== *)

Module ProcType.
Local Open Scope Z_scope.

(** The enumerators of [ProcType], an enumeration over [uint8_t]. *)
Definition None : Z := 0x00.
Definition Main : Z := 0x01.
Definition Gosub : Z := 0x02.
Definition Script : Z := 0x04.
Definition Subscript : Z := 0x08.
Definition Mission : Z := 0x10.

(** The enumerators that name a kind of procedure. *)
Definition kinds : list Z := [Main; Gosub; Script; Subscript; Mission].

(** [operator|] and [operator&]: both operands widened to [uint32_t], the
    result narrowed to the underlying [uint8_t]. *)
Definition bitor (a b : Z) : Z := Z.lor (a mod 2 ^ 32) (b mod 2 ^ 32) mod 2 ^ 8.
Definition bitand (a b : Z) : Z := Z.land (a mod 2 ^ 32) (b mod 2 ^ 32) mod 2 ^ 8.

(** [(t & kind) != ProcType::None], the test the enumeration is made for. *)
Definition has (t kind : Z) : bool := negb (bitand t kind =? None).

(** A value of the type. *)
Definition valid (t : Z) : Prop := 0 <= t < 2 ^ 8.

Lemma small_land_ones x n : 0 <= n -> 0 <= x < 2 ^ n -> Z.land x (Z.ones n) = x.
Proof. intros Hn Hx. rewrite Z.land_ones by exact Hn. apply Z.mod_small, Hx. Qed.

Lemma land_ones_small x n : 0 <= n -> Z.land x (Z.ones n) = x -> 0 <= x < 2 ^ n.
Proof.
  intros Hn Hx. rewrite Z.land_ones in Hx by exact Hn. rewrite <- Hx.
  apply Z.mod_pos_bound. apply Z.pow_pos_nonneg; lia.
Qed.

Lemma lor_bound a b n :
  0 <= n -> 0 <= a < 2 ^ n -> 0 <= b < 2 ^ n -> 0 <= Z.lor a b < 2 ^ n.
Proof.
  intros Hn Ha Hb. apply land_ones_small; [exact Hn |].
  rewrite Z.land_lor_distr_l, !small_land_ones by assumption. reflexivity.
Qed.

Lemma land_bound a b n :
  0 <= n -> 0 <= a < 2 ^ n -> 0 <= Z.land a b < 2 ^ n.
Proof.
  intros Hn Ha. apply land_ones_small; [exact Hn |].
  rewrite <- Z.land_assoc, (Z.land_comm b), Z.land_assoc.
  rewrite small_land_ones by assumption. reflexivity.
Qed.

Lemma bitor_eq a b : valid a -> valid b -> bitor a b = Z.lor a b /\ valid (bitor a b).
Proof.
  unfold valid, bitor. intros Ha Hb.
  rewrite (Z.mod_small a), (Z.mod_small b) by lia.
  pose proof (lor_bound a b 8 ltac:(lia) Ha Hb) as H.
  rewrite Z.mod_small by exact H. split; [reflexivity | exact H].
Qed.

Lemma bitand_eq a b : valid a -> valid b -> bitand a b = Z.land a b /\ valid (bitand a b).
Proof.
  unfold valid, bitand. intros Ha Hb.
  rewrite (Z.mod_small a), (Z.mod_small b) by lia.
  pose proof (land_bound a b 8 ltac:(lia) Ha) as H.
  rewrite Z.mod_small by exact H. split; [reflexivity | exact H].
Qed.

(** Every kind is one bit. *)
Lemma kinds_bit kind :
  In kind kinds -> exists k, 0 <= k < 5 /\ kind = 2 ^ k.
Proof.
  unfold kinds. simpl.
  intros [<- | [<- | [<- | [<- | [<- | []]]]]];
    [exists 0 | exists 1 | exists 2 | exists 3 | exists 4]; split; (lia || reflexivity).
Qed.

Lemma has_testbit t k :
  valid t -> 0 <= k < 5 -> has t (2 ^ k) = Z.testbit t k.
Proof.
  intros Ht Hk. unfold has.
  assert (Hv : valid (2 ^ k)).
  { unfold valid. split; [apply Z.pow_nonneg; lia |].
    apply Z.pow_lt_mono_r; lia. }
  rewrite (proj1 (bitand_eq t (2 ^ k) Ht Hv)). unfold None.
  assert (E : Z.land t (2 ^ k) = if Z.testbit t k then 2 ^ k else 0).
  { apply Z.bits_inj'. intros i Hi. rewrite Z.land_spec, Z.pow2_bits_eqb by lia.
    destruct (Z.eqb_spec k i) as [-> | Hne].
    - destruct (Z.testbit t i) eqn:Eb; simpl.
      + rewrite Z.pow2_bits_true by lia. reflexivity.
      + rewrite Z.bits_0. reflexivity.
    - rewrite andb_false_r. destruct (Z.testbit t k).
      + rewrite Z.pow2_bits_false by lia. reflexivity.
      + rewrite Z.bits_0. reflexivity. }
  rewrite E. destruct (Z.testbit t k); [| reflexivity].
  assert (0 < 2 ^ k) by (apply Z.pow_pos_nonneg; lia).
  destruct (Z.eqb_spec (2 ^ k) 0); [lia | reflexivity].
Qed.

(** X7: [ProcType] values behave as sets of procedure kinds.  On values of
    the type, [operator|] and [operator&] lose nothing when their result is
    narrowed to [uint8_t]; a kind is in [a | b] exactly when it is in [a]
    or in [b], and in [a & b] exactly when it is in both; the kinds are
    pairwise disjoint, and [None] holds no kind. *)
Theorem ProcType_flags (a b : Z) :
  valid a -> valid b ->
  valid (bitor a b) /\ valid (bitand a b)
  /\ bitor a b = Z.lor a b /\ bitand a b = Z.land a b
  /\ bitand (bitor a b) b = b
  /\ (forall kind, In kind kinds ->
        has (bitor a b) kind = has a kind || has b kind
        /\ has (bitand a b) kind = has a kind && has b kind
        /\ has None kind = false)
  /\ (forall k1 k2, In k1 kinds -> In k2 kinds ->
        has k1 k2 = true <-> k1 = k2).
Proof.
  intros Ha Hb.
  destruct (bitor_eq a b Ha Hb) as [Eor Vor], (bitand_eq a b Ha Hb) as [Eand Vand].
  split; [exact Vor |]. split; [exact Vand |].
  split; [exact Eor |]. split; [exact Eand |]. split; [| split].
  - rewrite (proj1 (bitand_eq (bitor a b) b Vor Hb)), Eor.
    apply Z.bits_inj'. intros i Hi. rewrite Z.land_spec, Z.lor_spec.
    destruct (Z.testbit a i), (Z.testbit b i); reflexivity.
  - intros kind Hk. destruct (kinds_bit kind Hk) as (k & Hk5 & ->).
    rewrite !has_testbit by (assumption || (unfold valid, None; lia)).
    rewrite Eor, Eand, Z.lor_spec, Z.land_spec.
    split; [reflexivity |]. split; [reflexivity |]. apply Z.bits_0.
  - intros k1 k2 H1 H2.
    destruct (kinds_bit k1 H1) as (i & Hi & ->), (kinds_bit k2 H2) as (j & Hj & ->).
    assert (Hv : valid (2 ^ i)).
    { unfold valid. split; [apply Z.pow_nonneg; lia |].
      apply Z.pow_lt_mono_r; lia. }
    rewrite has_testbit by assumption.
    rewrite Z.pow2_bits_eqb by lia. rewrite Z.eqb_eq. split; [intros ->; reflexivity |].
    intros E. apply Z.pow_inj_r in E; lia.
Qed.

Lemma ProcType_flags_witness :
  valid (bitor Gosub Script) /\ valid Mission
  /\ has (bitor (bitor Gosub Script) Mission) Script = true
  /\ has (bitand (bitor Gosub Script) Mission) Script = false.
Proof.
  assert (V1 : valid (bitor Gosub Script)) by (change (bitor Gosub Script) with 6; unfold valid; lia).
  assert (V2 : valid Mission) by (unfold valid, Mission; lia).
  split; [exact V1 |]. split; [exact V2 |].
  destruct (ProcType_flags (bitor Gosub Script) Mission V1 V2) as (_ & _ & _ & _ & _ & H & _).
  destruct (H Script) as (H1 & H2 & _); [simpl; tauto |].
  split; [rewrite H1; reflexivity | rewrite H2; reflexivity].
Defined.

End ProcType.

(* ===================================================================== *)
(** ** Lookup of a procedure by its entry block *)
(* ===================================================================== *)

Module Procs.

Import Blocks.

(** The loop of [find_proc_by_entry] over the entries from index [i] on. *)
Fixpoint find_entry_from (i : ProcId) (entries : list ProcEntry) (id : BlockId)
  : option ProcId :=
  match entries with
  | [] => None
  | entry :: rest =>
      if decide (proc_block entry = id) then Some i
      else find_entry_from (S i) rest id
  end.

(** [BlockList::find_proc_by_entry]; the [ProcEntry&] returned is an
    element of [proc_entries], given by its index. *)
Definition find_proc_by_entry (bl : BlockList) (id : BlockId) : option ProcId :=
  find_entry_from 0 (proc_entries bl) id.

Lemma find_entry_from_Some entries id : forall i p,
  find_entry_from i entries id = Some p ->
  exists k e, p = i + k /\ entries !! k = Some e /\ proc_block e = id
    /\ forall j e', j < k -> entries !! j = Some e' -> proc_block e' <> id.
Proof.
  induction entries as [| entry rest IH]; intros i p H; simpl in H; [discriminate |].
  destruct (decide (proc_block entry = id)) as [E | E].
  - injection H as <-. exists 0, entry. split; [lia |]. split; [reflexivity |].
    split; [exact E |]. intros j e' Hj. lia.
  - destruct (IH _ _ H) as (k & e & -> & Hk & He & Hmin).
    exists (S k), e. split; [lia |]. split; [exact Hk |]. split; [exact He |].
    intros [| j] e' Hj Hl; simpl in Hl.
    + injection Hl as <-. exact E.
    + apply (Hmin j e'); [lia | exact Hl].
Qed.

Lemma find_entry_from_None entries id : forall i,
  find_entry_from i entries id = None ->
  forall j e, entries !! j = Some e -> proc_block e <> id.
Proof.
  induction entries as [| entry rest IH]; intros i H j e Hl; simpl in H;
    [inversion Hl |].
  destruct (decide (proc_block entry = id)) as [E | E]; [discriminate |].
  destruct j as [| j]; simpl in Hl.
  - injection Hl as <-. exact E.
  - apply (IH _ H j e Hl).
Qed.

(** X8: [find_proc_by_entry] returns the first procedure entry whose
    entry block is [id], which is an element of [proc_entries] (so
    [proc_id] accepts it), and nothing exactly when no procedure starts at
    [id]. *)
Theorem find_proc_by_entry_spec (bl : BlockList) (id : BlockId) :
  match find_proc_by_entry bl id with
  | Some p =>
      (exists e, proc_entries bl !! p = Some e /\ proc_block e = id)
      /\ (forall q e, q < p -> proc_entries bl !! q = Some e -> proc_block e <> id)
      /\ proc_id bl p = Done p
  | None => forall q e, proc_entries bl !! q = Some e -> proc_block e <> id
  end.
Proof.
  unfold find_proc_by_entry.
  destruct (find_entry_from 0 (proc_entries bl) id) as [p |] eqn:H.
  - destruct (find_entry_from_Some _ _ _ _ H) as (k & e & -> & Hk & He & Hmin).
    simpl. split; [eauto |]. split; [exact Hmin |].
    unfold proc_id. rewrite Hk. reflexivity.
  - apply (find_entry_from_None _ _ _ H).
Qed.

Lemma fmap_alter_same {A B : Type} (g : A -> B) (h : A -> A) (l : list A) :
  (forall x, g (h x) = g x) -> forall i, g <$> alter h i l = g <$> l.
Proof.
  intros Hg. induction l as [| x l IH]; intros [| i]; simpl; try reflexivity.
  - rewrite Hg. reflexivity.
  - f_equal. apply IH.
Qed.

Lemma find_entry_from_fmap l1 : forall l2 i id,
  proc_block <$> l1 = proc_block <$> l2 ->
  find_entry_from i l1 id = find_entry_from i l2 id.
Proof.
  induction l1 as [| x l1 IH]; intros [| y l2] i id H; simpl in H;
    try discriminate; [reflexivity |].
  injection H as Hx Hl. simpl. rewrite Hx.
  destruct (decide (proc_block y = id)); [reflexivity | apply IH, Hl].
Qed.

Lemma xlink_proc_block bl op :
  xlink_in_range bl op ->
  exists bl', xlink bl op = Done bl'
    /\ List.length (proc_entries bl') = List.length (proc_entries bl)
    /\ proc_block <$> proc_entries bl' = proc_block <$> proc_entries bl
    /\ proc_type <$> proc_entries bl' = proc_type <$> proc_entries bl
    /\ exit_block <$> proc_entries bl' = exit_block <$> proc_entries bl.
Proof.
  destruct op as [f p q | f p q]; intros Hr; simpl.
  - rewrite (link_call_Done _ _ _ _ Hr). eexists. split; [reflexivity |]. simpl.
    rewrite !length_alter. split; [reflexivity |].
    rewrite !(fmap_alter_same proc_block), !(fmap_alter_same proc_type),
      !(fmap_alter_same exit_block) by reflexivity.
    auto.
  - rewrite (link_script_spawn_Done _ _ _ _ Hr). eexists. split; [reflexivity |]. simpl.
    rewrite !length_alter. split; [reflexivity |].
    rewrite !(fmap_alter_same proc_block), !(fmap_alter_same proc_type),
      !(fmap_alter_same exit_block) by reflexivity.
    auto.
Qed.

(** X9: linking leaves procedure lookup alone.  After any sequence of
    [link_call] and [link_script_spawn] operations on procedures of the
    list, every procedure has the type, entry block and exit block it had,
    and [find_proc_by_entry] answers as before. *)
Theorem xlink_keeps_find_proc_by_entry (bl : BlockList) (ops : list XLink) :
  Forall (xlink_in_range bl) ops ->
  exists bl',
    xlink_seq bl ops = Done bl'
    /\ proc_block <$> proc_entries bl' = proc_block <$> proc_entries bl
    /\ proc_type <$> proc_entries bl' = proc_type <$> proc_entries bl
    /\ exit_block <$> proc_entries bl' = exit_block <$> proc_entries bl
    /\ forall id, find_proc_by_entry bl' id = find_proc_by_entry bl id.
Proof.
  revert bl. induction ops as [| op rest IH]; intros bl Hr.
  - exists bl. simpl. auto.
  - apply Forall_cons in Hr as [Hop Hrest].
    destruct (xlink_proc_block bl op Hop) as (bl1 & Hrun1 & Hl1 & Hb1 & Ht1 & He1).
    destruct (IH bl1) as (bl' & Hrun & Hb & Ht & He & Hf).
    { eapply Forall_impl; [exact Hrest |]. intros [f p q | f p q]; simpl;
        rewrite Hl1; tauto. }
    exists bl'. simpl. rewrite Hrun1. simpl.
    split; [exact Hrun |]. split; [congruence |]. split; [congruence |].
    split; [congruence |]. intros id. rewrite Hf. unfold find_proc_by_entry.
    apply find_entry_from_fmap, Hb1.
Qed.

Lemma xlink_keeps_find_proc_by_entry_witness :
  exists bl',
    xlink_seq DFS.while_cfg [LinkCall 2 1 0; LinkSpawn 1 0 1] = Done bl'
    /\ find_proc_by_entry bl' 3 = Some 1
    /\ find_proc_by_entry bl' 2 = None.
Proof.
  destruct (xlink_keeps_find_proc_by_entry DFS.while_cfg
              [LinkCall 2 1 0; LinkSpawn 1 0 1])
    as (bl' & Hrun & _ & _ & _ & Hf).
  - repeat constructor; simpl; lia.
  - exists bl'. split; [exact Hrun |]. rewrite !Hf. split; reflexivity.
Defined.

End Procs.

(* ===================================================================== *)
(** ** Segment references built by the constructor *)
(* ===================================================================== *)

Module SegRefNew.

Import SegRef.
Local Open Scope Z_scope.

(** X10: references built by the constructor.  The segment index and the
    data index are narrowed to 16 and 32 bits, so they are kept when they
    fit and two references whose indices differ by a multiple of [2 ^ 16]
    and of [2 ^ 32] compare equal; [reserved] plays no part in [==]; and a
    reference to an exit node is greater than every reference of another
    kind, whatever the indices. *)
Theorem SegReference_new_order
    (junk1 junk2 : Z) (st1 st2 : SegType) (si1 si2 di1 di2 : Z) :
  let a := SegReference_new junk1 st1 si1 di1 in
  let b := SegReference_new junk2 st2 si2 di2 in
  (0 <= segindex a < 2 ^ 16 /\ 0 <= data_index a < 2 ^ 32)
  /\ (0 <= si1 < 2 ^ 16 -> segindex a = si1)
  /\ (0 <= di1 < 2 ^ 32 -> data_index a = di1)
  /\ eqb a (SegReference_new junk2 st1 (si1 + 2 ^ 16) (di1 + 2 ^ 32)) = true
  /\ (st1 <> ExitNode -> st2 = ExitNode -> ltb a b = true /\ ltb b a = false)
  /\ (st1 = st2 -> ltb a b = true ->
      si1 mod 2 ^ 16 < si2 mod 2 ^ 16
      \/ (si1 mod 2 ^ 16 = si2 mod 2 ^ 16 /\ di1 mod 2 ^ 32 < di2 mod 2 ^ 32)).
Proof.
  intros a b. unfold a, b, SegReference_new; simpl.
  split; [split; apply Z.mod_pos_bound; lia |].
  split; [intros H; apply Z.mod_small, H |].
  split; [intros H; apply Z.mod_small, H |].
  split.
  - apply eqb_spec. unfold spec_eq; simpl. split; [reflexivity |].
    split; symmetry.
    + replace (si1 + 2 ^ 16) with (si1 + 1 * 2 ^ 16) by lia. apply Z.mod_add. lia.
    + replace (di1 + 2 ^ 32) with (di1 + 1 * 2 ^ 32) by lia. apply Z.mod_add. lia.
  - split.
    + intros Hne ->. split.
      * apply ltb_spec. left. simpl. destruct st1; simpl; tauto.
      * apply not_true_is_false. rewrite ltb_spec, spec_lt_key. simpl.
        destruct st1; simpl; try lia. congruence.
    + intros -> H. apply ltb_spec in H. apply spec_lt_key in H. simpl in H. lia.
Qed.

End SegRefNew.

(* ===================================================================== *)
(** ** Linking keeps the block list traversable *)
(* ===================================================================== *)

Module Links.

Import Blocks.

Lemma elem_of_targets_from a b (edges : list (BlockId * BlockId)) :
  b ∈ targets_from a edges <-> (a, b) ∈ edges.
Proof.
  unfold targets_from. rewrite list_elem_of_fmap. split.
  - intros ([x y] & -> & H). apply list_elem_of_filter in H as [Hx H].
    simpl in *. subst. exact H.
  - intros H. exists (a, b). split; [reflexivity |].
    apply list_elem_of_filter. split; [reflexivity | exact H].
Qed.

Lemma elem_of_sources_to a b (edges : list (BlockId * BlockId)) :
  a ∈ sources_to b edges <-> (a, b) ∈ edges.
Proof.
  unfold sources_to. rewrite list_elem_of_fmap. split.
  - intros ([x y] & -> & H). apply list_elem_of_filter in H as [Hx H].
    simpl in *. subst. exact H.
  - intros H. exists (a, b). split; [reflexivity |].
    apply list_elem_of_filter. split; [reflexivity | exact H].
Qed.

Lemma cfg_closed_of bl :
  DFS.cfg_closed bl <->
  forall c y, y ∈ succ_of bl c \/ y ∈ pred_of bl c -> y < List.length (blocks bl).
Proof.
  unfold DFS.cfg_closed, succ_of, pred_of. split.
  - intros H c y Hy. destruct (blocks bl !! c) as [b |] eqn:Hb; simpl in Hy.
    + apply (H c b Hb y Hy).
    + destruct Hy as [Hy | Hy]; inversion Hy.
  - intros H i b Hb y Hy. apply (H i). rewrite Hb. exact Hy.
Qed.

(** X11: [link_blocks] is defined exactly on ids of blocks of the list
    (elsewhere it indexes [blocks] out of range), and a sequence of links
    between blocks keeps every stored id the id of a block, which is what
    the traversals of the control-flow graph rely on. *)
Theorem link_blocks_keeps_closed
    (bl : BlockList) (edges : list (BlockId * BlockId)) :
  (forall a b, ~ edge_in_range bl (a, b) -> link_blocks bl a b = Undefined)
  /\ (Forall (edge_in_range bl) edges ->
      DFS.cfg_closed bl ->
      exists bl',
        link_blocks_seq bl edges = Done bl'
        /\ DFS.cfg_closed bl'
        /\ List.length (blocks bl') = List.length (blocks bl)).
Proof.
  split.
  - intros a b Hr. unfold edge_in_range in Hr; simpl in Hr. unfold link_blocks.
    destruct (blocks bl !! a) as [x |] eqn:Ha; [| reflexivity].
    apply lookup_lt_Some in Ha.
    destruct (alter (succ_emplace_back b) a (blocks bl) !! b) as [y |] eqn:Hb;
      [| reflexivity].
    apply lookup_lt_Some in Hb. rewrite length_alter in Hb. lia.
  - intros Hr Hc.
    destruct (link_blocks_seq_spec edges bl Hr) as (bl' & Hrun & Hl & _ & Hs & Hp).
    exists bl'. split; [exact Hrun |]. split; [| exact Hl].
    apply cfg_closed_of. intros c y. rewrite Hs, Hp, Hl, !elem_of_app.
    rewrite elem_of_targets_from, elem_of_sources_to.
    rewrite Forall_forall in Hr.
    intros [[H | H] | [H | H]].
    + apply (proj1 (cfg_closed_of bl) Hc c). auto.
    + apply (Hr _ H).
    + apply (proj1 (cfg_closed_of bl) Hc c). auto.
    + apply (Hr _ H).
Qed.

Lemma link_blocks_keeps_closed_witness :
  exists bl',
    link_blocks_seq three_blocks [(0, 1); (1, 2); (2, 1)] = Done bl'
    /\ DFS.cfg_closed bl'
    /\ List.length (blocks bl') = 3.
Proof.
  destruct (link_blocks_keeps_closed three_blocks [(0, 1); (1, 2); (2, 1)])
    as [_ H].
  apply H.
  - repeat constructor; simpl; lia.
  - apply DFS.cfg_closedb_ok. reflexivity.
Defined.

Lemma xref_closed_of bl :
  DFS.xref_closed bl <->
  forall c x,
    x ∈ calls_into_of bl c \/ x ∈ called_from_of bl c
    \/ x ∈ spawns_script_of bl c \/ x ∈ spawned_from_of bl c ->
    xref_proc x < List.length (proc_entries bl).
Proof.
  unfold DFS.xref_closed, calls_into_of, called_from_of, spawns_script_of,
    spawned_from_of. split.
  - intros H c x Hx. destruct (proc_entries bl !! c) as [p |] eqn:Hp; simpl in Hx.
    + destruct Hx as [Hx | [Hx | [Hx | Hx]]].
      * apply (H c p Hp DFS.tag_call_graph true x Hx).
      * apply (H c p Hp DFS.tag_call_graph false x Hx).
      * apply (H c p Hp DFS.tag_spawn_graph true x Hx).
      * apply (H c p Hp DFS.tag_spawn_graph false x Hx).
    + destruct Hx as [Hx | [Hx | [Hx | Hx]]]; inversion Hx.
  - intros H i p Hp tag forward x Hx. apply (H i). rewrite Hp. simpl.
    destruct tag, forward; simpl in Hx; auto.
Qed.

Lemma xlink_entries_in_range bl ops c x :
  Forall (xlink_in_range bl) ops ->
  x ∈ calls_by c ops \/ x ∈ callers_of c ops
  \/ x ∈ spawns_by c ops \/ x ∈ spawners_of c ops ->
  xref_proc x < List.length (proc_entries bl).
Proof.
  intros Hr Hx. rewrite Forall_forall in Hr. destruct x as [f q].
  unfold calls_by, callers_of, spawns_by, spawners_of in Hx.
  rewrite !list_elem_of_omap in Hx.
  destruct Hx as [Hx | [Hx | [Hx | Hx]]]; destruct Hx as (op & Hop & E);
    specialize (Hr op Hop); destruct op as [g p' q' | g p' q']; simpl in *;
    try discriminate; case_decide; try discriminate;
    injection E as <- <-; lia.
Qed.

(** X12: [link_call] and [link_script_spawn] are defined on procedures of
    the list, and a sequence of them keeps every cross-reference naming a
    procedure of the list, which is what the traversals of the call graph
    and of the spawn graph rely on. *)
Theorem xlink_keeps_closed (bl : BlockList) (ops : list XLink) :
  Forall (xlink_in_range bl) ops ->
  DFS.xref_closed bl ->
  exists bl',
    xlink_seq bl ops = Done bl'
    /\ DFS.xref_closed bl'
    /\ List.length (proc_entries bl') = List.length (proc_entries bl)
    /\ blocks bl' = blocks bl.
Proof.
  intros Hr Hc.
  destruct (xlink_seq_spec ops bl Hr) as (bl' & Hrun & Hb & Hl & He).
  exists bl'. split; [exact Hrun |]. split; [| split; [exact Hl | exact Hb]].
  apply xref_closed_of. intros c x. destruct (He c) as (-> & -> & -> & ->).
  rewrite Hl, !elem_of_app. intros Hx.
  assert (Hold : forall y,
             y ∈ calls_into_of bl c \/ y ∈ called_from_of bl c
             \/ y ∈ spawns_script_of bl c \/ y ∈ spawned_from_of bl c ->
             xref_proc y < List.length (proc_entries bl))
    by (intros y; apply (proj1 (xref_closed_of bl) Hc c)).
  assert (Hnew := xlink_entries_in_range bl ops c x Hr).
  destruct Hx as [[H | H] | [[H | H] | [[H | H] | [H | H]]]]; auto.
Qed.

Lemma xlink_keeps_closed_witness :
  exists bl',
    xlink_seq DFS.while_cfg [LinkCall 2 1 0; LinkSpawn 1 1 1] = Done bl'
    /\ DFS.xref_closed bl'
    /\ List.length (proc_entries bl') = 2
    /\ blocks bl' = blocks DFS.while_cfg.
Proof.
  apply (xlink_keeps_closed DFS.while_cfg [LinkCall 2 1 0; LinkSpawn 1 1 1]).
  - repeat constructor; simpl; lia.
  - apply DFS.xref_closedb_ok. reflexivity.
Defined.

End Links.

(* ===================================================================== *)
(** ** What the traversals of the block list visit *)
(* ===================================================================== *)

Module Traversals.

Import Blocks.

(** A run that stopped has logged a call that answered [false]. *)
Lemma visits_traced_stop {St : Type} (visitor : nat -> St -> bool * St)
    sl path sl' :
  DFS.visits (DFS.traced visitor) sl path false sl' ->
  exists x, (x, false) ∈ sl'.2.
Proof.
  intros H. remember false as flag eqn:Ef. revert Ef.
  induction H as [sl | sl x sl' Hv | sl x sl1 rest f sl' Hv Hrest IH]; intros Ef.
  - discriminate.
  - unfold DFS.traced in Hv. exists x.
    destruct (visitor x sl.1) as [ans s1] eqn:Hx. simpl in Hv.
    injection Hv as -> <-. simpl. apply elem_of_app. right. left.
  - apply IH, Ef.
Qed.

(** Every logged answer is an answer of the visitor. *)
Lemma visits_traced_answers {St : Type} (visitor : nat -> St -> bool * St)
    sl path flag sl' :
  DFS.visits (DFS.traced visitor) sl path flag sl' ->
  forall x a, (x, a) ∈ sl'.2 ->
    (x, a) ∈ sl.2 \/ exists s0, (visitor x s0).1 = a.
Proof.
  induction 1 as [sl | sl x sl' Hv | sl x sl1 rest f sl' Hv Hrest IH];
    intros y a Hy.
  - auto.
  - unfold DFS.traced in Hv. injection Hv as _ <-. simpl in Hy.
    apply elem_of_app in Hy as [Hy | Hy]; [auto |].
    apply list_elem_of_singleton in Hy. injection Hy as -> ->. eauto.
  - destruct (IH y a Hy) as [Hin | Hex]; [| auto].
    unfold DFS.traced in Hv. injection Hv as _ <-. simpl in Hin.
    apply elem_of_app in Hin as [Hin | Hin]; [auto |].
    apply list_elem_of_singleton in Hin. injection Hin as -> ->. eauto.
Qed.

(** The calls of a traversal from [start] are made on nodes reachable from
    [start], and on all of them when no call asked to stop. *)
Definition visits_reachable (adj : nat -> Res (list nat)) (start : nat)
    (calls : list (nat * bool)) : Prop :=
  (forall x, x ∈ calls.*1 -> DFS.reach adj start x)
  /\ ((forall x, (x, false) ∉ calls) ->
      forall x, x ∈ calls.*1 <-> DFS.reach adj start x).

Lemma depth_first_reachable {St : Type} in_range adj size
    (visitor : nat -> St -> bool * St) start s :
  (forall x, x < size -> in_range x = true) ->
  (forall x, x < size -> exists l, adj x = Done l /\ forall y, y ∈ l -> y < size) ->
  start < size ->
  exists s' calls,
    DFS.depth_first in_range adj (DFS.traced visitor) size start (s, [])
    = Done (s', calls)
    /\ visits_reachable adj start calls
    /\ (forall x a, (x, a) ∈ calls -> exists s0, (visitor x s0).1 = a).
Proof.
  intros Hr Hadj Hstart.
  destruct (DFS.depth_first_visits in_range adj (DFS.traced visitor) size Hr Hadj
              start (s, []) Hstart)
    as (path & flag & [s' calls] & Hrun & Hvis & _ & _ & Hsound & Hcomplete).
  exists s', calls. split; [exact Hrun |].
  pose proof Hvis as Hvis'.
  apply DFS.visits_traced in Hvis' as (_ & new & Hnew & Hpath & _).
  simpl in Hnew. subst new. subst path.
  split; [split |].
  - exact Hsound.
  - intros Hnostop x. split; [apply Hsound |].
    apply Hcomplete. destruct flag; [reflexivity |].
    destruct (visits_traced_stop _ _ _ _ Hvis) as [y Hy]. destruct (Hnostop y Hy).
  - intros x a Hx.
    destruct (visits_traced_answers _ _ _ _ _ Hvis x a Hx) as [Hin | Hex];
      [inversion Hin | exact Hex].
Qed.

Lemma depth_first_cfg_reach_aux {St : Type}
    (block_list : BlockList) (start : BlockId) (forward : bool)
    (visitor : BlockId -> St -> bool * St) (s : St) :
  DFS.cfg_closed block_list ->
  start < List.length (blocks block_list) ->
  exists s' calls,
    DFS.depth_first_cfg block_list start forward (DFS.traced visitor) (s, [])
    = Done (s', calls)
    /\ visits_reachable (DFS.cfg_adj block_list forward) start calls
    /\ (forall x a, (x, a) ∈ calls -> exists s0, (visitor x s0).1 = a).
Proof.
  intros Hwf Hstart. apply depth_first_reachable; [| | exact Hstart].
  - intros x Hx. unfold DFS.cfg_in_range. apply bool_decide_eq_true_2, Hx.
  - intros x Hx. unfold DFS.cfg_adj.
    destruct (lookup_lt_is_Some_2 _ x Hx) as [b Hb]. rewrite Hb.
    eexists. split; [reflexivity |]. intros y Hy.
    apply (Hwf x b Hb). destruct forward; auto.
Qed.

(** X13: a traversal of the control-flow graph visits what is reachable.
    On a block list whose edge lists hold block ids, [depth_first] from a
    block of the list returns, calls the visitor only on blocks reachable
    from the start along [succ] (forward) or [pred] (backward) edges, and,
    when no call asks to stop, on every such block. *)
Theorem depth_first_cfg_reachable {St : Type}
    (block_list : BlockList) (start : BlockId) (forward : bool)
    (visitor : BlockId -> St -> bool * St) (s : St) :
  DFS.cfg_closed block_list ->
  start < List.length (blocks block_list) ->
  exists s' calls,
    DFS.depth_first_cfg block_list start forward (DFS.traced visitor) (s, [])
    = Done (s', calls)
    /\ visits_reachable (DFS.cfg_adj block_list forward) start calls.
Proof.
  intros Hwf Hstart.
  destruct (depth_first_cfg_reach_aux block_list start forward visitor s Hwf Hstart)
    as (s' & calls & Hrun & Hreach & _).
  exists s', calls. split; [exact Hrun | exact Hreach].
Qed.

(** X14: a traversal of the call graph or of the spawn graph visits what
    is reachable.  On a block list whose cross-references name procedures
    of the list, [depth_first] from a procedure of the list returns, calls
    the visitor only on procedures reachable from the start along the
    selected cross-references, and, when no call asks to stop, on every
    such procedure. *)
Theorem depth_first_xref_reachable {St : Type}
    (tag : DFS.Tag) (block_list : BlockList) (start : ProcId) (forward : bool)
    (visitor : ProcId -> St -> bool * St) (s : St) :
  DFS.xref_closed block_list ->
  start < List.length (proc_entries block_list) ->
  exists s' calls,
    DFS.depth_first_xref tag block_list start forward (DFS.traced visitor) (s, [])
    = Done (s', calls)
    /\ visits_reachable (DFS.xref_adj block_list tag forward) start calls.
Proof.
  intros Hwf Hstart.
  cut (exists s' calls,
         DFS.depth_first_xref tag block_list start forward (DFS.traced visitor) (s, [])
         = Done (s', calls)
         /\ visits_reachable (DFS.xref_adj block_list tag forward) start calls
         /\ (forall x a, (x, a) ∈ calls -> exists s0, (visitor x s0).1 = a)).
  { intros (s' & calls & Hrun & Hreach & _). eauto. }
  apply depth_first_reachable; [| | exact Hstart].
  - intros x Hx. unfold DFS.xref_in_range. apply bool_decide_eq_true_2, Hx.
  - intros x Hx. unfold DFS.xref_adj.
    destruct (lookup_lt_is_Some_2 _ x Hx) as [p Hp]. rewrite Hp.
    eexists. split; [reflexivity |]. intros y Hy.
    apply list_elem_of_fmap in Hy as (xr & -> & Hxr).
    apply (Hwf x p Hp tag forward xr Hxr).
Qed.

(** A visitor that counts its calls and never stops. *)
Definition count_all (n : nat) (k : nat) : bool * nat := (true, S k).

Lemma depth_first_cfg_reachable_witness :
  exists s' calls,
    DFS.depth_first_cfg DFS.while_cfg 2 true (DFS.traced count_all) (0, [])
    = Done (s', calls)
    /\ visits_reachable (DFS.cfg_adj DFS.while_cfg true) 2 calls.
Proof.
  apply (depth_first_cfg_reachable DFS.while_cfg 2 true count_all 0).
  - apply DFS.cfg_closedb_ok. reflexivity.
  - simpl. lia.
Defined.

Lemma depth_first_xref_reachable_witness :
  exists s' calls,
    DFS.depth_first_xref DFS.tag_call_graph DFS.while_cfg 1 false
      (DFS.traced count_all) (0, [])
    = Done (s', calls)
    /\ visits_reachable (DFS.xref_adj DFS.while_cfg DFS.tag_call_graph false) 1 calls.
Proof.
  apply (depth_first_xref_reachable DFS.tag_call_graph DFS.while_cfg 1 false
           count_all 0).
  - apply DFS.xref_closedb_ok. reflexivity.
  - simpl. lia.
Defined.

(** A path of links. *)
Definition linked (edges : list (BlockId * BlockId)) (a b : BlockId) : Prop :=
  (a, b) ∈ edges.

Lemma rtc_flip {A : Type} (R : relation A) x y : rtc R x y <-> rtc (flip R) y x.
Proof.
  split.
  - induction 1 as [| x y z Hxy _ IH]; [apply rtc_refl |].
    eapply rtc_r; [exact IH | exact Hxy].
  - induction 1 as [| y' x' z Hxy _ IH]; [apply rtc_refl |].
    eapply rtc_r; [exact IH | exact Hxy].
Qed.

Lemma rtc_iff {A : Type} (R S : relation A) :
  (forall x y, R x y <-> S x y) -> forall x y, rtc R x y <-> rtc S x y.
Proof.
  intros H x y. split; apply rtc_subrel; intros ? ?; apply H.
Qed.

Section AfterLinks.
Variable bl bl' : BlockList.
Variable edges : list (BlockId * BlockId).
Hypothesis Hfresh : Forall (fun b => pred b = [] /\ succ b = []) (blocks bl).
Hypothesis Hrange : Forall (edge_in_range bl) edges.
Hypothesis Hrun : link_blocks_seq bl edges = Done bl'.

Lemma fresh_lists c : succ_of bl c = [] /\ pred_of bl c = [].
Proof.
  unfold succ_of, pred_of. rewrite Forall_lookup in Hfresh.
  destruct (blocks bl !! c) as [b |] eqn:Hb; simpl; [| auto].
  destruct (Hfresh c b Hb) as [-> ->]. auto.
Qed.

Lemma linked_lists c :
  List.length (blocks bl') = List.length (blocks bl)
  /\ succ_of bl' c = targets_from c edges
  /\ pred_of bl' c = sources_to c edges.
Proof.
  destruct (link_blocks_seq_spec edges bl Hrange) as (bl2 & Hrun2 & Hl & _ & Hs & Hp).
  assert (bl2 = bl') as -> by congruence.
  destruct (fresh_lists c) as [Es Ep].
  rewrite Hs, Hp, Es, Ep. auto.
Qed.

Lemma in_range_of_edge a b : (a, b) ∈ edges ->
  a < List.length (blocks bl') /\ b < List.length (blocks bl').
Proof.
  intros H. pose proof Hrange as Hr. rewrite Forall_forall in Hr.
  destruct (linked_lists 0) as (-> & _). apply (Hr _ H).
Qed.

Lemma edge_forward a b :
  DFS.edge (DFS.cfg_adj bl' true) a b <-> linked edges a b.
Proof.
  unfold DFS.edge, DFS.cfg_adj, linked.
  destruct (linked_lists a) as (_ & Hs & _). unfold succ_of in Hs. split.
  - intros (l & Hl & Hb). destruct (blocks bl' !! a) as [x |]; [| discriminate].
    injection Hl as <-. simpl in Hs. rewrite Hs in Hb.
    apply Links.elem_of_targets_from, Hb.
  - intros H. destruct (in_range_of_edge a b H) as [Ha _].
    destruct (lookup_lt_is_Some_2 _ a Ha) as [x Hx]. rewrite Hx in Hs |- *.
    eexists. split; [reflexivity |]. simpl in Hs. rewrite Hs.
    apply Links.elem_of_targets_from, H.
Qed.

Lemma edge_backward a b :
  DFS.edge (DFS.cfg_adj bl' false) b a <-> linked edges a b.
Proof.
  unfold DFS.edge, DFS.cfg_adj, linked.
  destruct (linked_lists b) as (_ & _ & Hp). unfold pred_of in Hp. split.
  - intros (l & Hl & Hb). destruct (blocks bl' !! b) as [x |]; [| discriminate].
    injection Hl as <-. simpl in Hp. rewrite Hp in Hb.
    apply Links.elem_of_sources_to, Hb.
  - intros H. destruct (in_range_of_edge a b H) as [_ Hb].
    destruct (lookup_lt_is_Some_2 _ b Hb) as [x Hx]. rewrite Hx in Hp |- *.
    eexists. split; [reflexivity |]. simpl in Hp. rewrite Hp.
    apply Links.elem_of_sources_to, H.
Qed.

Lemma linked_closed : DFS.cfg_closed bl'.
Proof.
  apply Links.cfg_closed_of. intros c y.
  destruct (linked_lists c) as (_ & -> & ->).
  rewrite Links.elem_of_targets_from, Links.elem_of_sources_to.
  intros [H | H]; apply in_range_of_edge in H; tauto.
Qed.

End AfterLinks.

(** X15: linking, then traversing.  When freshly constructed blocks are
    linked by a sequence of [link_blocks] calls, a forward [depth_first]
    from a block that never stops calls the visitor exactly on the blocks
    that a path of links leads to from the start, and a backward one
    exactly on the blocks from which a path of links leads to the start. *)
Theorem depth_first_after_link_blocks {St : Type}
    (bl : BlockList) (edges : list (BlockId * BlockId)) (start : BlockId)
    (visitor : BlockId -> St -> bool * St) (s : St) :
  Forall (fun b => pred b = [] /\ succ b = []) (blocks bl) ->
  Forall (edge_in_range bl) edges ->
  start < List.length (blocks bl) ->
  (forall x s0, (visitor x s0).1 = true) ->
  exists bl' sf callsf sb callsb,
    link_blocks_seq bl edges = Done bl'
    /\ DFS.depth_first_cfg bl' start true (DFS.traced visitor) (s, [])
       = Done (sf, callsf)
    /\ DFS.depth_first_cfg bl' start false (DFS.traced visitor) (s, [])
       = Done (sb, callsb)
    /\ (forall x, x ∈ callsf.*1 <-> rtc (linked edges) start x)
    /\ (forall x, x ∈ callsb.*1 <-> rtc (linked edges) x start).
Proof.
  intros Hfresh Hrange Hstart Hgo.
  destruct (link_blocks_seq_spec edges bl Hrange) as (bl' & Hrun & Hl & _).
  pose proof (linked_closed bl bl' edges Hfresh Hrange Hrun) as Hclosed.
  assert (Hstart' : start < List.length (blocks bl')) by (rewrite Hl; exact Hstart).
  destruct (depth_first_cfg_reach_aux bl' start true visitor s Hclosed Hstart')
    as (sf & callsf & Hf & [Hsf Hcf] & Haf).
  destruct (depth_first_cfg_reach_aux bl' start false visitor s Hclosed Hstart')
    as (sb & callsb & Hb & [Hsb Hcb] & Hab).
  exists bl', sf, callsf, sb, callsb.
  split; [exact Hrun |]. split; [exact Hf |]. split; [exact Hb |].
  assert (Hnf : forall x, (x, false) ∉ callsf).
  { intros x Hx. destruct (Haf x false Hx) as [s0 Hs0].
    rewrite Hgo in Hs0. discriminate. }
  assert (Hnb : forall x, (x, false) ∉ callsb).
  { intros x Hx. destruct (Hab x false Hx) as [s0 Hs0].
    rewrite Hgo in Hs0. discriminate. }
  split; intros x.
  - rewrite (Hcf Hnf x). unfold DFS.reach.
    apply rtc_iff. intros a b. apply (edge_forward bl bl' edges Hfresh Hrange Hrun).
  - rewrite (Hcb Hnb x). unfold DFS.reach.
    rewrite (rtc_flip (linked edges)).
    apply rtc_iff. intros a b. apply (edge_backward bl bl' edges Hfresh Hrange Hrun).
Qed.

Lemma depth_first_after_link_blocks_witness :
  exists bl' sf callsf sb callsb,
    link_blocks_seq three_blocks [(1, 2); (2, 1); (0, 1)] = Done bl'
    /\ DFS.depth_first_cfg bl' 1 true (DFS.traced count_all) (0, [])
       = Done (sf, callsf)
    /\ DFS.depth_first_cfg bl' 1 false (DFS.traced count_all) (0, [])
       = Done (sb, callsb)
    /\ (forall x, x ∈ callsf.*1 <-> rtc (linked [(1, 2); (2, 1); (0, 1)]) 1 x)
    /\ (forall x, x ∈ callsb.*1 <-> rtc (linked [(1, 2); (2, 1); (0, 1)]) x 1).
Proof.
  apply (depth_first_after_link_blocks three_blocks [(1, 2); (2, 1); (0, 1)] 1
           count_all 0).
  - repeat constructor.
  - repeat constructor; simpl; lia.
  - simpl. lia.
  - reflexivity.
Defined.

End Traversals.

(* ===================================================================== *)
(** ** More on statement nodes: edges kept in step *)
(* ===================================================================== *)

Module StmtEdges.

Import Stmt.

(** The loop of [remove_predecessor]: [it] is at position [i] of
    [this->pred] and [n] elements remain up to [end()].  Erasing the
    result of a [std::find] that found nothing is undefined behaviour. *)
Fixpoint remove_predecessor_from (n : nat) (h : list StatementNode)
    (this node : nat) (i : nat) : Res (list StatementNode) :=
  match n with
  | O => Done h
  | S n =>
      do t <- deref h this;
      match pred t !! i with
      | None => Undefined
      | Some it_ptr =>
          if decide (it_ptr = node) then
            do p <- deref h it_ptr;
            match erase_first this (succ p) with
            | None => Undefined
            | Some v =>
                do h <- update h it_ptr (set_succ (fun _ => v));
                do h <- update h this (set_pred (delete i));
                remove_predecessor_from n h this node i
            end
          else remove_predecessor_from n h this node (S i)
      end
  end.

(** [StatementNode::remove_predecessor] *)
Definition remove_predecessor (h : list StatementNode) (this node : nat)
  : Res (list StatementNode) :=
  do t <- deref h this;
  remove_predecessor_from (List.length (pred t)) h this node 0.

(** *** Facts *)

(** A store is determined by what can be read from it. *)
Lemma heap_ext (h h' : list StatementNode) :
  List.length h = List.length h' ->
  (forall j, succ_of h j = succ_of h' j) ->
  (forall j, pred_of h j = pred_of h' j) ->
  (forall j, payload_of h j = payload_of h' j) ->
  h = h'.
Proof.
  intros Hl Hs Hp Hy. apply list_eq. intros j.
  specialize (Hs j). specialize (Hp j). specialize (Hy j).
  unfold succ_of, pred_of, payload_of in *.
  destruct (h !! j) as [n |] eqn:E, (h' !! j) as [n' |] eqn:E'; simpl in *.
  - destruct n, n'; simpl in *. congruence.
  - apply lookup_lt_Some in E. apply lookup_ge_None_1 in E'. lia.
  - apply lookup_lt_Some in E'. apply lookup_ge_None_1 in E. lia.
  - reflexivity.
Qed.

Lemma erase_first_filter x v v' :
  erase_first x v = Some v' ->
  filter (fun y => y <> x) v' = filter (fun y => y <> x) v.
Proof.
  revert v'. induction v as [| a v IH]; intros v' H; simpl in H; [discriminate |].
  destruct (decide (a = x)) as [-> | Hne].
  - injection H as <-. rewrite filter_cons_False by tauto. reflexivity.
  - destruct (erase_first x v) as [w |]; [| discriminate]. simpl in H.
    injection H as <-. rewrite !filter_cons_True by exact Hne.
    f_equal. apply IH. reflexivity.
Qed.

Lemma filter_absent (x : nat) v :
  count_occ Nat.eq_dec v x = 0 -> filter (fun y => y <> x) v = v.
Proof.
  induction v as [| a v IH]; [reflexivity |]. simpl.
  destruct (Nat.eq_dec a x) as [-> | Hne]; [discriminate |]. intros H.
  rewrite filter_cons_True by exact Hne. f_equal. apply IH, H.
Qed.

Lemma count_occ_0_not_in (v : list nat) x :
  x ∉ v -> count_occ Nat.eq_dec v x = 0.
Proof.
  intros H. apply (count_occ_not_In Nat.eq_dec). rewrite <- list_elem_of_In. exact H.
Qed.

Lemma remove_predecessor_from_spec n : forall g this node K R,
  this < List.length g ->
  pred_of g this = K ++ R -> List.length R = n ->
  (forall p, p ∈ R -> p < List.length g) ->
  count_occ Nat.eq_dec R node <= count_occ Nat.eq_dec (succ_of g node) this ->
  exists g',
    remove_predecessor_from n g this node (List.length K) = Done g'
    /\ List.length g' = List.length g
    /\ (forall z, payload_of g' z = payload_of g z)
    /\ (forall z, pred_of g' z
                  = if decide (z = this)
                    then K ++ filter (fun p => p <> node) R
                    else pred_of g z)
    /\ (forall z, z <> node -> succ_of g' z = succ_of g z)
    /\ (forall y, count_occ Nat.eq_dec (succ_of g' node) y
                  = count_occ Nat.eq_dec (succ_of g node) y
                    - if decide (y = this) then count_occ Nat.eq_dec R node else 0)
    /\ filter (fun y => y <> this) (succ_of g' node)
       = filter (fun y => y <> this) (succ_of g node).
Proof.
  induction n as [| n IH]; intros g this node K R Ht HP Hlen HR Hcount.
  - destruct R; [| discriminate]. exists g. cbn [remove_predecessor_from].
    split; [reflexivity |]. split; [reflexivity |]. split; [reflexivity |].
    rewrite filter_nil. split; [| split; [| split]].
    + intros z. case_decide; subst; auto.
    + reflexivity.
    + intros y. simpl. case_decide; lia.
    + reflexivity.
  - destruct R as [| p R']; [discriminate |]. injection Hlen as Hlen.
    cbn [remove_predecessor_from].
    destruct (deref_Done g this Ht) as (t & -> & Hgt). cbn [Res_bind].
    assert (Hpt : pred t = K ++ p :: R')
      by (rewrite <- HP; unfold pred_of; rewrite Hgt; reflexivity).
    rewrite Hpt, list_lookup_middle by reflexivity.
    assert (HR' : forall q, q ∈ R' -> q < List.length g)
      by (intros; apply HR; right; assumption).
    destruct (decide (p = node)) as [-> | Hne].
    + assert (Hnode : node < List.length g) by (apply HR; left).
      destruct (deref_Done g node Hnode) as (pn & -> & Hgn). cbn [Res_bind].
      assert (Hsn : succ pn = succ_of g node)
        by (unfold succ_of; rewrite Hgn; reflexivity).
      simpl in Hcount. destruct (Nat.eq_dec node node) as [_ | ?]; [| congruence].
      destruct (erase_first_In this (succ_of g node)) as (v & Hv & Hcv & _).
      { apply count_occ_pos_In. lia. }
      rewrite Hsn, Hv.
      destruct (update_set_succ g node (fun _ => v) Hnode)
        as (g1 & -> & Hl1 & Hs1 & Hp1 & Hy1). cbn [Res_bind].
      destruct (update_set_pred g1 this (delete (List.length K)))
        as (g2 & -> & Hl2 & Hs2 & Hp2 & Hy2); [lia |]. cbn [Res_bind].
      assert (Hsucc2 : succ_of g2 node = v).
      { rewrite Hs2, Hs1, decide_True by reflexivity. reflexivity. }
      destruct (IH g2 this node K R')
        as (g' & Hrun & Hl & Hy & Hpr & Hsu & Hc & Hf); try assumption; try lia.
      { rewrite Hp2, decide_True by reflexivity. rewrite Hp1, HP.
        apply delete_middle. }
      { intros q Hq. specialize (HR' q Hq). lia. }
      { rewrite Hsucc2. specialize (Hcv this).
        rewrite decide_True in Hcv by reflexivity. lia. }
      exists g'. split; [exact Hrun |]. split; [lia |].
      split; [intros z; rewrite Hy, Hy2, Hy1; reflexivity |].
      split; [| split; [| split]].
      * intros z. rewrite Hpr. rewrite filter_cons_False by tauto.
        case_decide; [reflexivity |].
        rewrite Hp2, decide_False by assumption. apply Hp1.
      * intros z Hz. rewrite Hsu by exact Hz. rewrite Hs2, Hs1.
        rewrite decide_False by exact Hz. reflexivity.
      * intros y. rewrite Hc, Hsucc2. specialize (Hcv y).
        simpl. destruct (Nat.eq_dec node node) as [_ | ?]; [| congruence].
        repeat case_decide; lia.
      * rewrite Hf, Hsucc2. apply erase_first_filter, Hv.
    + destruct (IH g this node (K ++ [p]) R')
        as (g' & Hrun & Hl & Hy & Hpr & Hsu & Hc & Hf); try assumption.
      { rewrite <- app_assoc. exact HP. }
      { simpl in Hcount. destruct (Nat.eq_dec p node); [congruence | exact Hcount]. }
      rewrite length_app in Hrun. simpl in Hrun. rewrite Nat.add_1_r in Hrun.
      exists g'. split; [exact Hrun |]. split; [exact Hl |]. split; [exact Hy |].
      split; [| split; [exact Hsu | split; [| exact Hf]]].
      * intros z. rewrite Hpr. rewrite filter_cons_True by exact Hne.
        rewrite <- app_assoc. reflexivity.
      * intros y. rewrite Hc. simpl.
        destruct (Nat.eq_dec p node); [congruence | reflexivity].
Qed.

Lemma remove_predecessor_projections h this node :
  heap_ok h -> this < List.length h ->
  exists h',
    remove_predecessor h this node = Done h'
    /\ List.length h' = List.length h
    /\ (forall z, payload_of h' z = payload_of h z)
    /\ (forall z, pred_of h' z
                  = if decide (z = this)
                    then filter (fun p => p <> node) (pred_of h this)
                    else pred_of h z)
    /\ (forall z, succ_of h' z
                  = if decide (z = node)
                    then filter (fun y => y <> this) (succ_of h node)
                    else succ_of h z).
Proof.
  intros [Hc Hs] Ht. rewrite heap_closed_of in Hc. unfold remove_predecessor.
  destruct (deref_Done h this Ht) as (t & -> & Hgt). cbn [Res_bind].
  assert (Hpt : pred t = pred_of h this) by (unfold pred_of; rewrite Hgt; reflexivity).
  rewrite Hpt.
  destruct (remove_predecessor_from_spec (List.length (pred_of h this)) h this node
              [] (pred_of h this))
    as (h' & Hrun & Hl & Hy & Hpr & Hsu & Hcn & Hf); auto.
  { intros p Hp. apply (Hc this). auto. }
  { rewrite (Hs node this). lia. }
  exists h'. split; [exact Hrun |]. split; [exact Hl |]. split; [exact Hy |].
  split; [exact Hpr |]. intros z. case_decide as Hz; [subst z | apply Hsu, Hz].
  rewrite <- Hf. symmetry. apply filter_absent.
  rewrite Hcn, decide_True by reflexivity. rewrite (Hs node this). lia.
Qed.

(** X16: [remove_predecessor(node)] on a store whose [pred] and [succ]
    lists agree returns, removes every entry for [node] from [this->pred]
    and every entry for [this] from [node->succ], changes no other list and
    no payload, and leaves the lists in agreement. *)
Theorem remove_predecessor_spec (h : list StatementNode) (this node : nat) :
  heap_ok h -> this < List.length h ->
  exists h',
    remove_predecessor h this node = Done h'
    /\ List.length h' = List.length h
    /\ (forall z, payload_of h' z = payload_of h z)
    /\ (forall z, pred_of h' z
                  = if decide (z = this)
                    then filter (fun p => p <> node) (pred_of h this)
                    else pred_of h z)
    /\ (forall z, succ_of h' z
                  = if decide (z = node)
                    then filter (fun y => y <> this) (succ_of h node)
                    else succ_of h z)
    /\ heap_ok h'.
Proof.
  intros Hok Ht.
  destruct (remove_predecessor_projections h this node Hok Ht)
    as (h' & Hrun & Hl & Hy & Hpr & Hsu).
  exists h'. split; [exact Hrun |]. split; [exact Hl |]. split; [exact Hy |].
  split; [exact Hpr |]. split; [exact Hsu |].
  destruct Hok as [Hc Hs]. rewrite heap_closed_of in Hc. split.
  - apply heap_closed_of. intros x y. rewrite Hsu, Hpr, Hl.
    intros [H | H]; repeat case_decide; subst;
      try (apply list_elem_of_filter in H as [_ H]);
      first [apply (Hc _ y); auto; fail | eapply Hc; eauto].
  - intros x y. rewrite Hsu, Hpr.
    destruct (decide (x = node)) as [-> | Hx], (decide (y = this)) as [-> | Hy'];
      rewrite ?count_occ_filter.
    + rewrite !decide_False by tauto. reflexivity.
    + rewrite decide_True by exact Hy'. apply Hs.
    + rewrite decide_True by exact Hx. apply Hs.
    + apply Hs.
Qed.

(** X17: [remove_predecessor] undoes [add_successor].  When [a] is not yet
    a predecessor of [b], adding [b] as a successor of [a] and then
    removing the predecessor [a] from [b] gives back the store. *)
Theorem add_successor_remove_predecessor (h : list StatementNode) (a b : nat) :
  heap_ok h -> a < List.length h -> b < List.length h ->
  a ∉ pred_of h b ->
  exists h1,
    add_successor h a b = Done h1
    /\ a ∈ pred_of h1 b /\ b ∈ succ_of h1 a
    /\ remove_predecessor h1 b a = Done h.
Proof.
  intros Hok Ha Hb Hnew.
  destruct (add_successor_spec h a b Ha Hb) as (h1 & Hrun & Hl1 & Hs1 & Hp1 & Hy1).
  assert (Hok1 : heap_ok h1) by (apply (add_successor_ok h a b h1 Hok Ha Hb Hrun)).
  exists h1. split; [exact Hrun |].
  split; [rewrite Hp1, decide_True by reflexivity; apply elem_of_app; right; left |].
  split; [rewrite Hs1, decide_True by reflexivity; apply elem_of_app; right; left |].
  destruct (remove_predecessor_projections h1 b a Hok1)
    as (h2 & Hrun2 & Hl2 & Hy2 & Hp2 & Hs2); [lia |].
  rewrite Hrun2. f_equal.
  assert (Hnew' : b ∉ succ_of h a).
  { intros Hin. apply Hnew. destruct Hok as [_ Hs].
    apply list_elem_of_In, (count_occ_In Nat.eq_dec). rewrite <- (Hs a b).
    apply (count_occ_In Nat.eq_dec), list_elem_of_In. exact Hin. }
  apply heap_ext.
  - lia.
  - intros j. rewrite Hs2. case_decide as Hj.
    + subst j. rewrite Hs1, decide_True by reflexivity.
      rewrite filter_app, filter_cons_False, filter_nil, app_nil_r by tauto.
      apply filter_absent, count_occ_0_not_in, Hnew'.
    + rewrite Hs1, decide_False by exact Hj. apply app_nil_r.
  - intros j. rewrite Hp2. case_decide as Hj.
    + subst j. rewrite Hp1, decide_True by reflexivity.
      rewrite filter_app, filter_cons_False, filter_nil, app_nil_r by tauto.
      apply filter_absent, count_occ_0_not_in, Hnew.
    + rewrite Hp1, decide_False by exact Hj. apply app_nil_r.
  - intros j. rewrite Hy2, Hy1. reflexivity.
Qed.

Lemma count_occ_replace (a b : nat) v y :
  a <> b ->
  count_occ Nat.eq_dec (replace a b v) y
  = if decide (y = a) then 0
    else if decide (y = b)
         then count_occ Nat.eq_dec v a + count_occ Nat.eq_dec v b
         else count_occ Nat.eq_dec v y.
Proof.
  intros Hab. unfold replace. induction v as [| c v IH].
  - simpl. repeat case_decide; reflexivity.
  - rewrite fmap_cons. simpl. rewrite IH.
    destruct (decide (c = a)) as [-> | Hca].
    + destruct (Nat.eq_dec b y), (Nat.eq_dec a y), (Nat.eq_dec a a), (Nat.eq_dec a b);
        repeat case_decide; subst; try congruence; lia.
    + destruct (Nat.eq_dec c y), (Nat.eq_dec c a), (Nat.eq_dec c b);
        repeat case_decide; subst; try congruence; lia.
Qed.

Lemma elem_of_replace (a b : nat) v y :
  y ∈ replace a b v -> y ∈ v \/ y = b.
Proof.
  unfold replace. rewrite list_elem_of_fmap. intros (c & -> & Hc).
  case_decide; subst; auto.
Qed.

Lemma replace_absent (a b : nat) v : a ∉ v -> replace a b v = v.
Proof.
  intros Ha. unfold replace. induction v as [| c v IH]; [reflexivity |].
  rewrite fmap_cons. rewrite decide_False by (intros ->; apply Ha; left).
  f_equal. apply IH. intros H. apply Ha. right. exact H.
Qed.

(** Stores that read the same on their edge lists are well formed
    together. *)
Lemma heap_ok_same (h h' : list StatementNode) :
  List.length h' = List.length h ->
  (forall z, succ_of h' z = succ_of h z) ->
  (forall z, pred_of h' z = pred_of h z) ->
  heap_ok h -> heap_ok h'.
Proof.
  intros Hl Hs Hp [Hc Hsym]. rewrite heap_closed_of in Hc. split.
  - apply heap_closed_of. intros x y. rewrite Hs, Hp, Hl. apply Hc.
  - intros x y. rewrite Hs, Hp. apply Hsym.
Qed.

Lemma unlink_preds_ok g this ns except :
  heap_ok g -> this < List.length g -> ns < List.length g -> ns <> this ->
  exists g',
    unlink_preds g this ns except = Done g'
    /\ List.length g' = List.length g
    /\ (forall z, payload_of g' z = payload_of g z)
    /\ (forall z, pred_of g' z
                  = if decide (z = this)
                    then filter (fun p => Some p = except) (pred_of g this)
                    else if decide (z = ns)
                    then pred_of g ns
                         ++ filter (fun p => Some p <> except) (pred_of g this)
                    else pred_of g z)
    /\ (forall z, succ_of g' z
                  = if decide (z ∈ filter (fun p => Some p <> except) (pred_of g this))
                    then replace this ns (succ_of g z)
                    else succ_of g z)
    /\ heap_ok g'.
Proof.
  intros [Hc Hsym] Ht Hns Hne. rewrite heap_closed_of in Hc.
  destruct (unlink_preds_spec g this ns except Ht Hns Hne)
    as (g' & Hrun & Hl & Hy & Hp & Hs).
  { intros p Hp. apply (Hc this). auto. }
  exists g'. split; [exact Hrun |]. split; [exact Hl |]. split; [exact Hy |].
  split; [exact Hp |]. split; [exact Hs |].
  set (P := pred_of g this) in *.
  set (out := filter (fun p => Some p <> except) P) in *.
  assert (Hout : forall p, p ∈ out <-> p ∈ P /\ Some p <> except)
    by (intros p; unfold out; rewrite list_elem_of_filter; tauto).
  split.
  - apply heap_closed_of. intros x y. rewrite Hs, Hp, Hl.
    intros [H | H].
    + case_decide; [| apply (Hc x); auto].
      apply elem_of_replace in H as [H | ->]; [apply (Hc x); auto | exact Hns].
    + repeat case_decide; subst.
      * apply list_elem_of_filter in H as [_ H]. apply (Hc this). auto.
      * apply elem_of_app in H as [H | H]; [apply (Hc ns); auto |].
        apply Hout in H as [H _]. apply (Hc this). auto.
      * apply (Hc x). auto.
  - intros x y. rewrite Hs, Hp.
    assert (Hcount_out : count_occ Nat.eq_dec out x
                         = if decide (x ∈ out) then count_occ Nat.eq_dec P x else 0).
    { unfold out at 1. rewrite count_occ_filter.
      destruct (decide (x ∈ out)) as [Hin | Hin].
      - apply Hout in Hin as [_ Hin]. rewrite decide_True by exact Hin. reflexivity.
      - case_decide as Hex; [| reflexivity].
        apply count_occ_0_not_in. intros HinP. apply Hin, Hout. auto. }
    assert (Hcount_keep : count_occ Nat.eq_dec
                            (filter (fun p => Some p = except) P) x
                          = if decide (x ∈ out) then 0 else count_occ Nat.eq_dec P x).
    { rewrite count_occ_filter.
      destruct (decide (x ∈ out)) as [Hin | Hin].
      - apply Hout in Hin as [_ Hin]. rewrite decide_False by exact Hin. reflexivity.
      - case_decide as Hex; [reflexivity |]. symmetry.
        apply count_occ_0_not_in. intros HinP. apply Hin, Hout. auto. }
    destruct (decide (y = this)) as [-> | Hy1].
    + rewrite Hcount_keep. destruct (decide (x ∈ out)).
      * rewrite count_occ_replace by congruence.
        rewrite decide_True by reflexivity. reflexivity.
      * apply Hsym.
    + destruct (decide (y = ns)) as [-> | Hy2].
      * rewrite count_occ_app, Hcount_out. destruct (decide (x ∈ out)).
        -- rewrite count_occ_replace by congruence.
           rewrite decide_False by exact Hy1. rewrite decide_True by reflexivity.
           rewrite (Hsym x this), (Hsym x ns). fold P. lia.
        -- rewrite (Hsym x ns). lia.
      * destruct (decide (x ∈ out)); [| apply Hsym].
        rewrite count_occ_replace by congruence.
        rewrite !decide_False by assumption. apply Hsym.
Qed.

(** X18: [unlink_preds(new_succ, except)] on a store whose [pred] and
    [succ] lists agree returns and leaves them in agreement.  The
    predecessors of [this] other than [except] are moved, in order, to the
    end of [new_succ->pred], each has its [succ] entries for [this]
    redirected to [new_succ], and [this->pred] keeps only the entries for
    [except]: none at all with the default [except = nullptr]. *)
Theorem unlink_preds_keeps_edges
    (h : list StatementNode) (this new_succ : nat) (except : option nat) :
  heap_ok h -> this < List.length h -> new_succ < List.length h ->
  new_succ <> this ->
  exists h',
    unlink_preds h this new_succ except = Done h'
    /\ heap_ok h'
    /\ List.length h' = List.length h
    /\ (forall z, payload_of h' z = payload_of h z)
    /\ pred_of h' this = filter (fun p => Some p = except) (pred_of h this)
    /\ (except = None -> pred_of h' this = [])
    /\ pred_of h' new_succ
       = pred_of h new_succ ++ filter (fun p => Some p <> except) (pred_of h this)
    /\ (forall p, p ∈ pred_of h this -> Some p <> except ->
          succ_of h' p = replace this new_succ (succ_of h p)
          /\ (this ∉ succ_of h' p) /\ new_succ ∈ succ_of h' p)
    /\ (forall z, z <> this -> z <> new_succ -> pred_of h' z = pred_of h z).
Proof.
  intros Hok Ht Hns Hne.
  destruct (unlink_preds_ok h this new_succ except Hok Ht Hns Hne)
    as (h' & Hrun & Hl & Hy & Hp & Hs & Hok').
  exists h'. split; [exact Hrun |]. split; [exact Hok' |]. split; [exact Hl |].
  split; [exact Hy |].
  split; [rewrite Hp, decide_True by reflexivity; reflexivity |].
  split; [| split; [| split]].
  - intros ->. rewrite Hp, decide_True by reflexivity.
    generalize (pred_of h this). intros l. clear.
    induction l as [| p l IH]; [reflexivity |].
    rewrite filter_cons_False by discriminate. exact IH.
  - rewrite Hp, decide_False by exact Hne. rewrite decide_True by reflexivity.
    reflexivity.
  - intros p Hin Hex.
    assert (Hout : p ∈ filter (fun p => Some p <> except) (pred_of h this))
      by (apply list_elem_of_filter; auto).
    rewrite Hs, decide_True by exact Hout. split; [reflexivity |].
    assert (Hthis : this ∈ succ_of h p).
    { destruct Hok as [_ Hsym].
      apply list_elem_of_In, (count_occ_In Nat.eq_dec). rewrite (Hsym p this).
      apply (count_occ_In Nat.eq_dec), list_elem_of_In. exact Hin. }
    split.
    + intros Hin'. apply list_elem_of_In, (count_occ_In Nat.eq_dec) in Hin'.
      rewrite count_occ_replace in Hin' by congruence.
      rewrite decide_True in Hin' by reflexivity. lia.
    + apply list_elem_of_lookup in Hthis as [i Hi].
      eapply list_elem_of_lookup_2. apply replace_lookup. exact Hi.
  - intros z Hz1 Hz2. rewrite Hp, !decide_False by assumption. reflexivity.
Qed.

Lemma replace_app (a b : nat) v w :
  replace a b (v ++ w) = replace a b v ++ replace a b w.
Proof. unfold replace. apply fmap_app. Qed.

Lemma replace_length (a b : nat) v : List.length (replace a b v) = List.length v.
Proof. unfold replace. apply length_fmap. Qed.

Lemma count_occ_repeat_this (x y : nat) k :
  count_occ Nat.eq_dec (repeat x k) y = if decide (y = x) then k else 0.
Proof.
  induction k as [| k IH]; simpl.
  - case_decide; reflexivity.
  - rewrite IH. destruct (Nat.eq_dec x y); case_decide; subst; congruence || lia.
Qed.

(** The loop of [replace_successor], relative to the store [g0] it starts
    from: the state after the positions below [i] of [this->succ]. *)
Section ReplaceSuccessor.
Variable g0 : list StatementNode.
Variables this old new : nat.
Hypothesis Hthis : this < List.length g0.
Hypothesis Hold : old < List.length g0.
Hypothesis Hnew : new < List.length g0.
Hypothesis Hne : new <> old.
Hypothesis Hsym : heap_sym g0.

Definition replaced_upto (i : nat) (g : list StatementNode) : Prop :=
  List.length g = List.length g0
  /\ (forall z, payload_of g z = payload_of g0 z)
  /\ (forall z, succ_of g z
                = if decide (z = this)
                  then replace old new (take i (succ_of g0 this))
                       ++ drop i (succ_of g0 this)
                  else succ_of g0 z)
  /\ (forall z, z <> old ->
        pred_of g z
        = if decide (z = new)
          then pred_of g0 new
               ++ repeat this (count_occ Nat.eq_dec (take i (succ_of g0 this)) old)
          else pred_of g0 z)
  /\ (forall y, count_occ Nat.eq_dec (pred_of g old) y
                + (if decide (y = this)
                   then count_occ Nat.eq_dec (take i (succ_of g0 this)) old else 0)
                = count_occ Nat.eq_dec (pred_of g0 old) y)
  /\ filter (fun y => y <> this) (pred_of g old)
     = filter (fun y => y <> this) (pred_of g0 old).

Lemma replaced_upto_0 : replaced_upto 0 g0.
Proof.
  unfold replaced_upto. rewrite take_0, drop_0. simpl.
  split; [reflexivity |]. split; [reflexivity |].
  split; [intros z; case_decide; subst; reflexivity |].
  split; [intros z _; case_decide; subst; rewrite ?app_nil_r; reflexivity |].
  split; [intros y; case_decide; lia | reflexivity].
Qed.

Lemma replaced_upto_step i g y :
  succ_of g0 this !! i = Some y ->
  replaced_upto i g ->
  exists g', replace_successor_at this old new g i = Done g'
             /\ replaced_upto (S i) g'.
Proof.
  unfold replaced_upto. intros Hi (Hl & Hy & Hs & Hp & Hc & Hf).
  set (S0 := succ_of g0 this) in *.
  assert (Htake : take (S i) S0 = take i S0 ++ [y]) by (apply take_S_r, Hi).
  assert (Hdrop : drop i S0 = y :: drop (S i) S0) by (apply drop_S, Hi).
  assert (Hlt : i < List.length S0) by (eapply lookup_lt_Some; exact Hi).
  assert (Hlen : List.length (replace old new (take i S0)) = i)
    by (rewrite replace_length, length_take; lia).
  assert (Hcur : succ_of g this !! i = Some y).
  { rewrite Hs, decide_True by reflexivity.
    rewrite lookup_app_r by lia. rewrite Hlen, Nat.sub_diag, Hdrop. reflexivity. }
  destruct (decide (y = old)) as [-> | Hyo].
  - (* the entry is replaced *)
    assert (Hin : this ∈ pred_of g old).
    { apply count_occ_pos_In. specialize (Hc this).
      rewrite decide_True in Hc by reflexivity.
      rewrite <- (Hsym this old) in Hc. fold S0 in Hc.
      rewrite <- (take_drop i S0) in Hc at 2.
      rewrite count_occ_app, Hdrop in Hc. simpl in Hc.
      destruct (Nat.eq_dec old old); [lia | congruence]. }
    destruct (erase_first_In this (pred_of g old) Hin) as (v & Hv & Hcv & _).
    destruct (replace_successor_at_hit g this old new i v)
      as (g' & Hrun & Hl' & Hs' & Hp' & Hy'); try lia; try assumption.
    exists g'. split; [exact Hrun |].
    split; [lia |]. split; [intros z; rewrite Hy'; apply Hy |].
    split; [| split; [| split]].
    + intros z. rewrite Hs'. case_decide as Hz;
        [| rewrite Hs, decide_False by exact Hz; reflexivity].
      rewrite Hs, decide_True by reflexivity.
      rewrite Htake, replace_app, Hdrop. simpl.
      rewrite decide_True by reflexivity. rewrite <- app_assoc. simpl.
      rewrite <- Hlen at 1. rewrite insert_app_r_alt by lia.
      rewrite Nat.sub_diag. reflexivity.
    + intros z Hz. rewrite Hp', decide_False by exact Hz.
      rewrite Htake, count_occ_app. simpl.
      destruct (Nat.eq_dec old old) as [_ | ?]; [| congruence].
      case_decide.
      * subst z. rewrite Hp, decide_True by assumption || reflexivity.
        rewrite <- app_assoc. f_equal. rewrite repeat_app. reflexivity.
      * rewrite Hp, decide_False by assumption. reflexivity.
    + intros y. rewrite Hp', decide_True by reflexivity.
      rewrite Htake, count_occ_app. simpl.
      destruct (Nat.eq_dec old old) as [_ | ?]; [| congruence].
      specialize (Hc y). specialize (Hcv y). repeat case_decide; lia.
    + rewrite Hp', decide_True by reflexivity.
      rewrite (erase_first_filter _ _ _ Hv). exact Hf.
  - (* the entry is left alone *)
    exists g. split.
    { apply (replace_successor_at_skip g this old new i y); [lia | exact Hcur | exact Hyo]. }
    assert (Hcount : count_occ Nat.eq_dec (take (S i) S0) old
                     = count_occ Nat.eq_dec (take i S0) old).
    { rewrite Htake, count_occ_app. simpl.
      destruct (Nat.eq_dec y old); [congruence | lia]. }
    split; [exact Hl |]. split; [exact Hy |].
    split; [| split; [| split; [| exact Hf]]].
    + intros z. rewrite Hs. case_decide; [| reflexivity].
      rewrite Htake, replace_app, Hdrop. simpl.
      rewrite decide_False by exact Hyo. rewrite <- app_assoc. reflexivity.
    + intros z Hz. rewrite Hcount. apply Hp, Hz.
    + intros y'. rewrite Hcount. apply Hc.
Qed.

Lemma replaced_upto_loop m : forall i g,
  i + m = List.length (succ_of g0 this) ->
  replaced_upto i g ->
  exists g', Res_foldl (replace_successor_at this old new) g (seq i m) = Done g'
             /\ replaced_upto (i + m) g'.
Proof.
  induction m as [| m IH]; intros i g Him Hinv.
  - exists g. rewrite Nat.add_0_r. split; [reflexivity | exact Hinv].
  - destruct (lookup_lt_is_Some_2 (succ_of g0 this) i) as [y Hy]; [lia |].
    destruct (replaced_upto_step i g y Hy Hinv) as (g1 & Hrun1 & Hinv1).
    destruct (IH (S i) g1) as (g' & Hrun & Hinv'); [lia | exact Hinv1 |].
    exists g'. cbn [seq Res_foldl]. rewrite Hrun1. cbn [Res_bind].
    split; [exact Hrun |]. replace (i + S m) with (S i + m) by lia. exact Hinv'.
Qed.

End ReplaceSuccessor.

Lemma replace_successor_ok g this old new :
  heap_ok g ->
  this < List.length g -> old < List.length g -> new < List.length g ->
  new <> old ->
  exists g',
    replace_successor g this old new = Done g'
    /\ List.length g' = List.length g
    /\ (forall z, payload_of g' z = payload_of g z)
    /\ (forall z, succ_of g' z
                  = if decide (z = this) then replace old new (succ_of g this)
                    else succ_of g z)
    /\ (forall z, pred_of g' z
                  = if decide (z = old)
                    then filter (fun y => y <> this) (pred_of g old)
                    else if decide (z = new)
                    then pred_of g new
                         ++ repeat this (count_occ Nat.eq_dec (succ_of g this) old)
                    else pred_of g z)
    /\ heap_ok g'.
Proof.
  intros [Hc Hsym] Ht Ho Hn Hne. rewrite heap_closed_of in Hc.
  unfold replace_successor.
  destruct (deref_Done g this Ht) as (t & -> & Hgt). cbn [Res_bind].
  assert (Hst : succ t = succ_of g this) by (unfold succ_of; rewrite Hgt; reflexivity).
  rewrite Hst.
  destruct (replaced_upto_loop g this old new Ht Ho Hn Hne Hsym
              (List.length (succ_of g this)) 0 g)
    as (g' & Hrun & Hinv); [reflexivity | apply replaced_upto_0; assumption |].
  unfold replaced_upto in Hinv. destruct Hinv as (Hl & Hy & Hs & Hp & Hcnt & Hf).
  simpl in Hs, Hp, Hcnt. rewrite firstn_all in Hs, Hp, Hcnt.
  rewrite drop_all in Hs.
  exists g'. split; [exact Hrun |]. split; [exact Hl |]. split; [exact Hy |].
  assert (Hs' : forall z, succ_of g' z
                  = if decide (z = this) then replace old new (succ_of g this)
                    else succ_of g z).
  { intros z. rewrite Hs. case_decide; [apply app_nil_r | reflexivity]. }
  assert (Hp' : forall z, pred_of g' z
                  = if decide (z = old)
                    then filter (fun y => y <> this) (pred_of g old)
                    else if decide (z = new)
                    then pred_of g new
                         ++ repeat this (count_occ Nat.eq_dec (succ_of g this) old)
                    else pred_of g z).
  { intros z. case_decide as Hz; [subst z | apply Hp, Hz].
    rewrite <- Hf. symmetry. apply filter_absent.
    specialize (Hcnt this). rewrite decide_True in Hcnt by reflexivity.
    rewrite <- (Hsym this old) in Hcnt. lia. }
  split; [exact Hs' |]. split; [exact Hp' |]. split.
  - apply heap_closed_of. intros x y. rewrite Hs', Hp', Hl.
    intros [H | H].
    + case_decide; [| apply (Hc x); auto].
      apply elem_of_replace in H as [H | ->]; [apply (Hc this); auto | exact Hn].
    + repeat case_decide; subst.
      * apply list_elem_of_filter in H as [_ H]. apply (Hc old). auto.
      * apply elem_of_app in H as [H | H]; [apply (Hc new); auto |].
        apply list_elem_of_In, repeat_spec in H. subst. exact Ht.
      * apply (Hc x). auto.
  - intros x y. rewrite Hs', Hp'.
    destruct (decide (x = this)) as [-> | Hx].
    + rewrite count_occ_replace by congruence.
      destruct (decide (y = old)) as [-> | Hy1].
      * rewrite count_occ_filter, decide_False by tauto. reflexivity.
      * destruct (decide (y = new)) as [-> | Hy2]; [| apply Hsym].
        rewrite count_occ_app, count_occ_repeat_this, decide_True by reflexivity.
        rewrite (Hsym this new). lia.
    + destruct (decide (y = old)) as [-> | Hy1].
      * rewrite count_occ_filter, decide_True by exact Hx. apply Hsym.
      * destruct (decide (y = new)) as [-> | Hy2]; [| apply Hsym].
        rewrite count_occ_app, count_occ_repeat_this, decide_False by exact Hx.
        rewrite (Hsym x new). lia.
Qed.

(** X19: [replace_successor(old_node, new_node)], for two different nodes
    of a store whose [pred] and [succ] lists agree, returns and leaves
    them in agreement.  Every entry for [old_node] in [this->succ] becomes
    [new_node], in place; [this] is appended to [new_node->pred] once per
    entry replaced and disappears from [old_node->pred]; no other list and
    no payload changes.  When [old_node] is not a successor of [this] the
    store is unchanged. *)
Theorem replace_successor_spec
    (h : list StatementNode) (this old_node new_node : nat) :
  heap_ok h ->
  this < List.length h -> old_node < List.length h -> new_node < List.length h ->
  new_node <> old_node ->
  exists h',
    replace_successor h this old_node new_node = Done h'
    /\ heap_ok h'
    /\ List.length h' = List.length h
    /\ (forall z, payload_of h' z = payload_of h z)
    /\ (forall z, succ_of h' z
                  = if decide (z = this)
                    then replace old_node new_node (succ_of h this)
                    else succ_of h z)
    /\ (forall z, pred_of h' z
                  = if decide (z = old_node)
                    then filter (fun y => y <> this) (pred_of h old_node)
                    else if decide (z = new_node)
                    then pred_of h new_node
                         ++ repeat this
                              (count_occ Nat.eq_dec (succ_of h this) old_node)
                    else pred_of h z)
    /\ (old_node ∉ succ_of h' this)
    /\ (old_node ∉ succ_of h this -> h' = h).
Proof.
  intros Hok Ht Ho Hn Hne.
  destruct (replace_successor_ok h this old_node new_node Hok Ht Ho Hn Hne)
    as (h' & Hrun & Hl & Hy & Hs & Hp & Hok').
  exists h'. split; [exact Hrun |]. split; [exact Hok' |]. split; [exact Hl |].
  split; [exact Hy |]. split; [exact Hs |]. split; [exact Hp |]. split.
  - rewrite Hs, decide_True by reflexivity. intros Hin.
    apply list_elem_of_In, (count_occ_In Nat.eq_dec) in Hin.
    rewrite count_occ_replace in Hin by congruence.
    rewrite decide_True in Hin by reflexivity. lia.
  - intros Habs. destruct Hok as [_ Hsym]. apply heap_ext.
    + exact Hl.
    + intros z. rewrite Hs. case_decide; [subst z; apply replace_absent, Habs | reflexivity].
    + intros z. rewrite Hp.
      assert (H0 : count_occ Nat.eq_dec (succ_of h this) old_node = 0)
        by (apply count_occ_0_not_in, Habs).
      repeat case_decide; subst.
      * apply filter_absent. rewrite <- (Hsym this old_node). exact H0.
      * rewrite H0. apply app_nil_r.
      * reflexivity.
    + exact Hy.
Qed.

Lemma node_block_payload (h : list StatementNode) z :
  node_block h z
  = match payload_of h z with
    | Some (PBlock b _ _ _ _) => Some b
    | _ => None
    end.
Proof.
  unfold node_block, payload_of, block_id_of.
  destruct (h !! z) as [n |]; simpl; [| reflexivity].
  destruct (payload n); reflexivity.
Qed.

Lemma payload_in_range (h : list StatementNode) z p :
  payload_of h z = Some p -> z < List.length h.
Proof.
  unfold payload_of. destruct (h !! z) eqn:E; [| discriminate].
  intros _. eapply lookup_lt_Some. exact E.
Qed.

(** The steps of [setup], on any while node. *)
Lemma setup_steps h this head tail a b hb e x tb f u gb gc :
  heap_ok h ->
  payload_of h this = Some (PWhile a b) ->
  node_block h head = Some hb ->
  succ_of h head = [e; x] ->
  payload_of h tail = Some (PBlock tb f u gb gc) ->
  exists h',
    setup h this head tail = Done h'
    /\ heap_ok h'
    /\ List.length h' = S (List.length h)
    /\ (forall z, payload_of h' z
                  = if decide (z = this) then Some (PWhile (Some head) (Some tail))
                    else if decide (z = tail)
                    then Some (PBlock tb f ((u + 1) mod 2 ^ 16) gb gc)
                    else if decide (z = List.length h) then Some PBreak
                    else payload_of h z)
    /\ succ_of h' this
       = (if decide (this ∈ filter (fun p => Some p <> Some tail) (pred_of h head))
          then replace head this (succ_of h this) else succ_of h this) ++ [e].
Proof.
  intros Hok Hw Hhd Hsucc Htl.
  pose proof Hok as [Hclosed _]. rewrite heap_closed_of in Hclosed.
  assert (Hthis : this < List.length h) by (eapply payload_in_range; exact Hw).
  assert (Htail : tail < List.length h) by (eapply payload_in_range; exact Htl).
  assert (Hhead : head < List.length h).
  { unfold node_block in Hhd. destruct (h !! head) eqn:E; [| discriminate].
    eapply lookup_lt_Some; exact E. }
  assert (Hhw : head <> this).
  { intros ->. rewrite node_block_payload, Hw in Hhd. discriminate. }
  assert (Htw : tail <> this) by (intros ->; congruence).
  assert (He : e < List.length h)
    by (apply (Hclosed head); left; rewrite Hsucc; left).
  unfold setup.
  destruct (update_set_loop h this a b head tail Hw)
    as (h0 & -> & Hl0 & Hs0 & Hp0 & Hy0). cbn [Res_bind].
  assert (Hok0 : heap_ok h0) by (apply (heap_ok_same h h0 Hl0 Hs0 Hp0 Hok)).
  destruct (deref_Done h0 head) as (hn & -> & Hhn); [lia |]. cbn [Res_bind].
  assert (Hsn : succ hn = [e; x]).
  { rewrite <- Hsucc, <- Hs0. unfold succ_of. rewrite Hhn. reflexivity. }
  rewrite Hsn. cbn [List.length]. rewrite decide_True by reflexivity.
  cbn [lookup list_lookup].
  destruct (unlink_preds_ok h0 head this (Some tail) Hok0)
    as (h1 & -> & Hl1 & Hy1 & Hp1 & Hs1 & Hok1); [lia | lia | congruence |].
  cbn [Res_bind].
  pose proof (make_shared_ok h1 PBreak Hok1) as Hok2.
  destruct (make_shared_projections h1 StatementBreak_new)
    as (Hl2 & Hs2 & Hp2 & Hy2 & _ & _ & Hy2b).
  unfold make_shared in *. cbn [fst snd] in *.
  fold StatementBreak_new in Hok2.
  set (h2 := h1 ++ [StatementBreak_new]) in *.
  destruct (replace_successor_ok h2 head e (List.length h1) Hok2)
    as (h3 & -> & Hl3 & Hy3 & Hs3 & Hp3 & Hok3); [lia | lia | lia | lia |].
  cbn [Res_bind].
  destruct (add_successor_spec h3 this e)
    as (h4 & Hrun4 & Hl4 & Hs4 & Hp4 & Hy4); [lia | lia |].
  assert (Hok4 : heap_ok h4).
  { apply (add_successor_ok h3 this e h4 Hok3); [lia | lia | exact Hrun4]. }
  rewrite Hrun4. cbn [Res_bind].
  destruct (update_incr_block_until h4 tail tb f u gb gc)
    as (h5 & -> & Hl5 & Hs5 & Hp5 & Hy5).
  { rewrite Hy4, Hy3, Hy2 by lia. rewrite Hy1, Hy0.
    rewrite decide_False by exact Htw. exact Htl. }
  exists h5. split; [reflexivity |].
  split; [apply (heap_ok_same h4 h5 Hl5 Hs5 Hp5 Hok4) |].
  split; [lia |]. split.
  - intros z. rewrite Hy5.
    destruct (decide (z = tail)) as [-> | Hzt].
    + rewrite decide_False by exact Htw. reflexivity.
    + rewrite Hy4, Hy3.
      destruct (decide (z = List.length h)) as [-> | Hzl].
      * rewrite decide_False by lia. rewrite <- Hl0, <- Hl1. exact Hy2b.
      * rewrite Hy2 by lia. rewrite Hy1, Hy0. reflexivity.
  - rewrite Hs5, Hs4, decide_True by reflexivity.
    rewrite Hs3, decide_False by congruence. rewrite Hs2 by lia.
    rewrite Hs1, !Hp0, !Hs0. reflexivity.
Qed.

(** X20: [setup] keeps the statement graph well formed.  On a store whose
    [pred] and [succ] lists agree, for a while node, a head block with
    two successors and a tail block, [setup] returns; the lists of the new
    store agree again; the store has grown by exactly the new
    [StatementBreak]; and every node that was there stands for the block
    it stood for, with no payload changed but those of the while node and
    of the tail. *)
Theorem setup_keeps_edges (h : list StatementNode) (this head tail : nat)
    a b (hb tb : nat) f u gb gc :
  heap_ok h ->
  payload_of h this = Some (PWhile a b) ->
  node_block h head = Some hb ->
  List.length (succ_of h head) = 2 ->
  payload_of h tail = Some (PBlock tb f u gb gc) ->
  exists h',
    setup h this head tail = Done h'
    /\ heap_ok h'
    /\ List.length h' = S (List.length h)
    /\ payload_of h' (List.length h) = Some PBreak
    /\ (forall z, z < List.length h -> node_block h' z = node_block h z)
    /\ (forall z, z < List.length h -> z <> this -> z <> tail ->
          payload_of h' z = payload_of h z).
Proof.
  intros Hok Hw Hhd Hlen Htl.
  destruct (succ_of h head) as [| e [| x [| ? ?]]] eqn:Hsucc; try discriminate.
  destruct (setup_steps h this head tail a b hb e x tb f u gb gc Hok Hw Hhd Hsucc Htl)
    as (h' & Hrun & Hok' & Hl & Hy & _).
  assert (Hthis : this < List.length h) by (eapply payload_in_range; exact Hw).
  assert (Htw : tail <> this) by (intros ->; congruence).
  exists h'. split; [exact Hrun |]. split; [exact Hok' |]. split; [exact Hl |].
  split; [| split].
  - assert (Htail : tail < List.length h) by (eapply payload_in_range; exact Htl).
    rewrite Hy. rewrite (decide_False (P := List.length h = this)) by lia.
    rewrite (decide_False (P := List.length h = tail)) by lia.
    rewrite decide_True by reflexivity. reflexivity.
  - intros z Hz. rewrite !node_block_payload, Hy.
    destruct (decide (z = this)) as [-> | Hz1]; [rewrite Hw; reflexivity |].
    destruct (decide (z = tail)) as [-> | Hz2]; [rewrite Htl; reflexivity |].
    rewrite decide_False by lia. reflexivity.
  - intros z Hz Hz1 Hz2. rewrite Hy.
    rewrite (decide_False (P := z = this)) by exact Hz1.
    rewrite (decide_False (P := z = tail)) by exact Hz2.
    rewrite decide_False by lia. reflexivity.
Qed.

(** X21: the while node after [setup].  For a while node without
    successors, [break_node] then returns the node that was the first
    successor of the head when [setup] was called, and [continue_node] the
    head; the tail's [block_until] has been incremented modulo [2 ^ 16]. *)
Theorem setup_break_continue (h : list StatementNode) (this head tail : nat)
    a b (hb tb : nat) (e x : nat) f u gb gc :
  heap_ok h ->
  payload_of h this = Some (PWhile a b) ->
  succ_of h this = [] ->
  node_block h head = Some hb ->
  succ_of h head = [e; x] ->
  payload_of h tail = Some (PBlock tb f u gb gc) ->
  exists h',
    setup h this head tail = Done h'
    /\ break_node h' this = Done e
    /\ continue_node h' this = Done (Some head)
    /\ payload_of h' this = Some (PWhile (Some head) (Some tail))
    /\ payload_of h' tail = Some (PBlock tb f ((u + 1) mod 2 ^ 16) gb gc).
Proof.
  intros Hok Hw Hws Hhd Hsucc Htl.
  destruct (setup_steps h this head tail a b hb e x tb f u gb gc Hok Hw Hhd Hsucc Htl)
    as (h' & Hrun & Hok' & Hl & Hy & Hs).
  assert (Htw : tail <> this) by (intros ->; congruence).
  assert (Hyw : payload_of h' this = Some (PWhile (Some head) (Some tail)))
    by (rewrite Hy, decide_True by reflexivity; reflexivity).
  assert (Hsw : succ_of h' this = [e]).
  { rewrite Hs, Hws. case_decide; reflexivity. }
  exists h'. split; [exact Hrun |].
  unfold payload_of in Hyw. unfold succ_of in Hsw.
  destruct (h' !! this) as [n |] eqn:Hn; [| discriminate].
  simpl in Hyw, Hsw. injection Hyw as Hyw.
  split; [| split; [| split]].
  - unfold break_node, deref. rewrite Hn. cbn [Res_bind]. rewrite Hsw.
    rewrite decide_True by reflexivity. reflexivity.
  - unfold continue_node, deref. rewrite Hn. cbn [Res_bind]. rewrite Hyw. reflexivity.
  - unfold payload_of. rewrite Hn. simpl. rewrite Hyw. reflexivity.
  - rewrite Hy, decide_False by exact Htw. rewrite decide_True by reflexivity.
    reflexivity.
Qed.





(** Every node that [succ] edges lead to from a node of a closed store is
    a node of the store. *)
Lemma stmt_reach_in_range (h : list StatementNode) a x :
  heap_closed h -> a < List.length h -> stmt_reach h a x -> x < List.length h.
Proof.
  intros Hc Ha Hreach.
  apply (rtc_ind_r (R := DFS.edge (stmt_adj h true))
           (fun x => x < List.length h) a); [exact Ha | | exact Hreach].
  intros y z _ (l & Hl & Hz) Hy. unfold stmt_adj, deref in Hl.
  destruct (h !! y) as [n |] eqn:Hn; [| discriminate].
  cbn [Res_bind] in Hl. injection Hl as <-. apply (Hc y n Hn). auto.
Qed.

(** X23: building, then traversing.  The statement graph that
    [to_statements] builds in an empty store is connected from its entry
    node: a forward [depth_first] from the node returned that never stops
    calls the visitor on every node of the store, and the blocks of the
    nodes visited are exactly the blocks reachable from the entry block. *)
Theorem depth_first_after_to_statements {St : Type}
    (bl : Blocks.BlockList) (entry : nat)
    (visitor : nat -> St -> bool * St) (s : St) :
  DFS.cfg_closed bl ->
  entry < List.length (Blocks.blocks bl) ->
  (forall x s0, (visitor x s0).1 = true) ->
  exists entry_node h' s' calls,
    to_statements bl entry [] = Done (entry_node, h')
    /\ depth_first h' entry_node true (DFS.traced visitor) (s, [])
       = Done (s', calls)
    /\ (forall x, x ∈ calls.*1 <-> x < List.length h')
    /\ (forall c, cfg_reach bl entry c
                  <-> exists x, x ∈ calls.*1 /\ node_block h' x = Some c).
Proof.
  intros Hbl Hentry Hgo.
  destruct (to_statements_spec bl entry [] Hbl Hentry)
    as (h' & m' & Hrun & Hm & He & _).
  simpl in Hrun, Hm.
  assert (Hok : heap_ok h').
  { apply (ext_ok _ _ _ _ _ _ He). split.
    - intros i n Hi. inversion Hi.
    - intros x y. reflexivity. }
  assert (Hkey : forall c x, m' !! c = Some x ->
            x < List.length h' /\ cfg_reach bl entry c /\ mirrors bl m' h' x c).
  { intros c x Hc.
    destruct (ext_new_key _ _ _ _ _ _ He c x Hc (lookup_empty _))
      as (Hx & _ & (r & Hr & Hrc) & Hmir).
    apply list_elem_of_singleton in Hr as ->. split; [lia | auto]. }
  destruct (Hkey entry 0 Hm) as (H0 & _ & _).
  (* every node registered is reachable from the entry node *)
  assert (Hnode : forall c, cfg_reach bl entry c ->
            forall x, m' !! c = Some x -> stmt_reach h' 0 x).
  { intros c Hc.
    apply (rtc_ind_r (R := DFS.edge (DFS.cfg_adj bl true))
             (fun c => forall x, m' !! c = Some x -> stmt_reach h' 0 x) entry);
      [| | exact Hc].
    - intros x Hx. assert (x = 0) as -> by congruence. apply rtc_refl.
    - intros a b' Ha (l & Hl & Hb) IH y Hy.
      destruct (extends_closed bl entry [] h' m' He Hm a Ha) as [xa Hxa].
      destruct (Hkey a xa Hxa) as (Hxa_lt & _ & _ & Hres).
      eapply rtc_r; [apply (IH xa Hxa) |].
      unfold DFS.cfg_adj in Hl. unfold Blocks.succ_of in Hres.
      destruct (Blocks.blocks bl !! a) as [blk |]; [| discriminate].
      injection Hl as <-. simpl in Hres.
      apply list_elem_of_lookup in Hb as [i Hi].
      destruct (Forall2_lookup_l _ _ _ _ _ Hres Hi) as (y' & Hy' & Hby).
      assert (y' = y) as -> by congruence.
      unfold DFS.edge, stmt_adj.
      destruct (deref_Done h' xa Hxa_lt) as (n & -> & Hn). cbn [Res_bind].
      eexists. split; [reflexivity |].
      unfold succ_of in Hy'. rewrite Hn in Hy'. simpl in Hy'.
      eapply list_elem_of_lookup_2. exact Hy'. }
  assert (Hall : forall x, x < List.length h' -> stmt_reach h' 0 x).
  { intros x Hx. destruct (ext_new_node _ _ _ _ _ _ He x) as (c & Hc & _);
      [simpl; lia |].
    destruct (Hkey c x Hc) as (_ & Hrc & _). apply (Hnode c Hrc x Hc). }
  destruct (Traversals.depth_first_reachable stmt_in_range (stmt_adj h' true)
              (List.length h') visitor 0 s)
    as (s' & calls & Hdf & [Hsound Hcomplete] & Hans).
  { reflexivity. }
  { intros x Hx. unfold stmt_adj.
    destruct (deref_Done h' x Hx) as (n & -> & Hn). cbn [Res_bind].
    eexists. split; [reflexivity |]. intros y Hy. apply (proj1 Hok x n Hn). auto. }
  { exact H0. }
  assert (Hnostop : forall x, (x, false) ∉ calls).
  { intros x Hx. destruct (Hans x false Hx) as [s0 Hs0].
    rewrite Hgo in Hs0. discriminate. }
  assert (Hcalls : forall x, x ∈ calls.*1 <-> x < List.length h').
  { intros x. rewrite (Hcomplete Hnostop x). split; [| apply Hall].
    apply stmt_reach_in_range; [apply Hok | exact H0]. }
  exists 0, h', s', calls. split; [exact Hrun |]. split; [exact Hdf |].
  split; [exact Hcalls |]. intros c. split.
  - intros Hc. destruct (extends_closed bl entry [] h' m' He Hm c Hc) as [x Hx].
    destruct (Hkey c x Hx) as (Hlt & _ & Hpay & _).
    exists x. split; [apply Hcalls, Hlt |]. eapply payload_node_block. exact Hpay.
  - intros (x & Hx & Hb). apply Hcalls in Hx.
    destruct (ext_new_node _ _ _ _ _ _ He x) as (k & Hk & _); [simpl; lia |].
    destruct (Hkey k x Hk) as (_ & Hrk & Hpay & _).
    apply payload_node_block in Hpay. congruence.
Qed.

(** *** The theorems at work on the running example *)

(** The running example with a while node not yet set up, at address 4. *)
Definition while_graph_new : list StatementNode :=
  while_graph ++ [StatementWhile_new].

Lemma remove_predecessor_spec_witness :
  exists h',
    remove_predecessor while_graph 1 3 = Done h'
    /\ pred_of h' 1 = [0] /\ succ_of h' 3 = [] /\ heap_ok h'.
Proof.
  destruct (remove_predecessor_spec while_graph 1 3)
    as (h' & Hrun & _ & _ & Hp & Hs & Hok).
  - apply heap_okb_ok. reflexivity.
  - simpl. lia.
  - exists h'. split; [exact Hrun |].
    split; [rewrite Hp; reflexivity |]. split; [rewrite Hs; reflexivity | exact Hok].
Defined.

Lemma add_successor_remove_predecessor_witness :
  exists h1,
    add_successor while_graph 2 0 = Done h1
    /\ 2 ∈ pred_of h1 0 /\ 0 ∈ succ_of h1 2
    /\ remove_predecessor h1 0 2 = Done while_graph.
Proof.
  apply (add_successor_remove_predecessor while_graph 2 0).
  - apply heap_okb_ok. reflexivity.
  - simpl. lia.
  - simpl. lia.
  - apply not_elem_of_nil.
Defined.

Lemma unlink_preds_keeps_edges_witness :
  exists h',
    unlink_preds while_graph 1 2 None = Done h'
    /\ heap_ok h'
    /\ pred_of h' 1 = []
    /\ pred_of h' 2 = [1; 3; 0]
    /\ succ_of h' 0 = [2].
Proof.
  destruct (unlink_preds_keeps_edges while_graph 1 2 None)
    as (h' & Hrun & Hok & _ & _ & _ & Hnone & Hp & Hs & _).
  - apply heap_okb_ok. reflexivity.
  - simpl. lia.
  - simpl. lia.
  - lia.
  - exists h'. split; [exact Hrun |]. split; [exact Hok |].
    split; [apply Hnone; reflexivity |]. split; [rewrite Hp; reflexivity |].
    destruct (Hs 0) as [E _]; [right; left | discriminate |].
    rewrite E. reflexivity.
Defined.

Lemma replace_successor_spec_witness :
  exists h',
    replace_successor while_graph 1 3 0 = Done h'
    /\ heap_ok h'
    /\ succ_of h' 1 = [2; 0]
    /\ pred_of h' 0 = [1]
    /\ pred_of h' 3 = [].
Proof.
  destruct (replace_successor_spec while_graph 1 3 0)
    as (h' & Hrun & Hok & _ & _ & Hs & Hp & _).
  - apply heap_okb_ok. reflexivity.
  - simpl. lia.
  - simpl. lia.
  - simpl. lia.
  - lia.
  - exists h'. split; [exact Hrun |]. split; [exact Hok |].
    split; [rewrite Hs; reflexivity |].
    split; rewrite Hp; reflexivity.
Defined.

Lemma setup_keeps_edges_witness :
  exists h',
    setup while_graph_new 4 1 3 = Done h'
    /\ heap_ok h'
    /\ List.length h' = 6
    /\ payload_of h' 5 = Some PBreak
    /\ (forall z, z < 5 -> node_block h' z = node_block while_graph_new z).
Proof.
  destruct (setup_keeps_edges while_graph_new 4 1 3 None None 1 2 0 0 false false)
    as (h' & Hrun & Hok & Hl & Hy & Hb & _).
  - apply heap_okb_ok. reflexivity.
  - reflexivity.
  - reflexivity.
  - reflexivity.
  - reflexivity.
  - exists h'. split; [exact Hrun |]. split; [exact Hok |].
    split; [exact Hl |]. split; [exact Hy | exact Hb].
Defined.

Lemma setup_break_continue_witness :
  exists h',
    setup while_graph_new 4 1 3 = Done h'
    /\ break_node h' 4 = Done 2
    /\ continue_node h' 4 = Done (Some 1)
    /\ payload_of h' 4 = Some (PWhile (Some 1) (Some 3))
    /\ payload_of h' 3 = Some (PBlock 2 0 ((0 + 1) mod 2 ^ 16) false false).
Proof.
  apply (setup_break_continue while_graph_new 4 1 3 None None 1 2 2 3 0 0 false false).
  - apply heap_okb_ok. reflexivity.
  - reflexivity.
  - reflexivity.
  - reflexivity.
  - reflexivity.
  - reflexivity.
Defined.


Lemma depth_first_after_to_statements_witness :
  exists entry_node h' s' calls,
    to_statements DFS.while_cfg 0 [] = Done (entry_node, h')
    /\ depth_first h' entry_node true (DFS.traced Traversals.count_all) (0, [])
       = Done (s', calls)
    /\ (forall x, x ∈ calls.*1 <-> x < List.length h')
    /\ (forall c, cfg_reach DFS.while_cfg 0 c
                  <-> exists x, x ∈ calls.*1 /\ node_block h' x = Some c).
Proof.
  apply (depth_first_after_to_statements DFS.while_cfg 0 Traversals.count_all 0).
  - apply DFS.cfg_closedb_ok. reflexivity.
  - simpl. lia.
  - reflexivity.
Defined.

End StmtEdges.
